(** * Government notice monitor: scorer, link validator, collector.

    A shallow embedding of the parts of the repository that the
    specification talks about:

    - [filters/healthcare.py]   : [score_notice]
    - [crawlers/khidi_events.py]: [_norm_date], [_validate_link],
                                  [fetch_khidi_events]
    - [main.py]                 : [_parse_date_for_sort], the sort of [collect]
    - [notice_webapp/app.py]    : the refresh flags

    Python [str] values are sequences of Unicode code points; they are
    modelled as [list N].  Literals of the source are written as UTF-8
    string literals and decoded by [u]. *)

From Stdlib Require Import Ascii String.
From Stdlib Require Import List NArith ZArith Bool Lia Permutation.
Import ListNotations.
Open Scope list_scope.

Set Implicit Arguments.

(** ** Strings *)

Definition char := N.
Bind Scope N_scope with char.
Definition str := list char.

Fixpoint utf8 (bs : list N) : str :=
  match bs with
  | [] => []
  | b :: t =>
      if (b <? 128)%N then b :: utf8 t
      else if (b <? 224)%N then
        match t with
        | b2 :: t2 => ((b - 192) * 64 + (b2 - 128))%N :: utf8 t2
        | _ => []
        end
      else if (b <? 240)%N then
        match t with
        | b2 :: b3 :: t3 =>
            ((b - 224) * 4096 + (b2 - 128) * 64 + (b3 - 128))%N :: utf8 t3
        | _ => []
        end
      else
        match t with
        | b2 :: b3 :: b4 :: t4 =>
            ((b - 240) * 262144 + (b2 - 128) * 4096 + (b3 - 128) * 64 + (b4 - 128))%N
              :: utf8 t4
        | _ => []
        end
  end.

(** [u "..."] is the [str] written by a source literal. *)
Definition u (s : String.string) : str :=
  utf8 (map N_of_ascii (list_ascii_of_string s)).

Fixpoint str_eqb (a b : str) : bool :=
  match a, b with
  | [], [] => true
  | x :: a', y :: b' => (x =? y)%N && str_eqb a' b'
  | _, _ => false
  end.

(** [a < b] on strings: comparison by code points. *)
Fixpoint str_lt (a b : str) : bool :=
  match a, b with
  | _, [] => false
  | [], _ :: _ => true
  | x :: a', y :: b' => (x <? y)%N || ((x =? y)%N && str_lt a' b')
  end.

(** [s.startswith(p)] *)
Fixpoint startswith (s p : str) : bool :=
  match p, s with
  | [], _ => true
  | c :: p', x :: s' => (x =? c)%N && startswith s' p'
  | _ :: _, [] => false
  end.

(** [p in s] for strings: substring test *)
Fixpoint contains (s p : str) : bool :=
  startswith s p || match s with [] => false | _ :: s' => contains s' p end.

(** [x in l] for a list or tuple of strings *)
Definition str_in (x : str) (l : list str) : bool := existsb (str_eqb x) l.

(** Unicode white space: the code points for which [str.isspace] holds,
    which are also the ones [\s] matches in a [str] pattern and the ones
    [str.strip()] removes. *)
Definition is_space (c : char) : bool :=
  ((9 <=? c) && (c <=? 13) || (28 <=? c) && (c <=? 32) || (c =? 133) || (c =? 160)
   || (c =? 5760) || (8192 <=? c) && (c <=? 8202) || (c =? 8232) || (c =? 8233)
   || (c =? 8239) || (c =? 8287) || (c =? 12288))%N.

Fixpoint lstrip (s : str) : str :=
  match s with
  | c :: s' => if is_space c then lstrip s' else s
  | [] => []
  end.

Definition rstrip (s : str) : str := rev (lstrip (rev s)).

(** [s.strip()] *)
Definition strip (s : str) : str := rstrip (lstrip s).

(** [s.rstrip(chars)] / [s.strip(chars)] with an explicit character set *)
Fixpoint lstrip_chars (p : char -> bool) (s : str) : str :=
  match s with
  | c :: s' => if p c then lstrip_chars p s' else s
  | [] => []
  end.

Definition rstrip_chars (p : char -> bool) (s : str) : str :=
  rev (lstrip_chars p (rev s)).

Definition strip_chars (p : char -> bool) (s : str) : str :=
  rstrip_chars p (lstrip_chars p s).

(** The text before the first character satisfying [p], and the rest. *)
Fixpoint break_at (p : char -> bool) (s : str) : str * str :=
  match s with
  | [] => ([], [])
  | c :: s' => if p c then ([], s) else let '(a, b) := break_at p s' in (c :: a, b)
  end.

(** [sep.join(parts)] *)
Fixpoint join (sep : str) (parts : list str) : str :=
  match parts with
  | [] => []
  | [p] => p
  | p :: rest => p ++ sep ++ join sep rest
  end.

(** ASCII lower-casing of one code point; used as the default case map. *)
Definition ascii_lower (c : char) : char :=
  if ((65 <=? c) && (c <=? 90))%N then (c + 32)%N else c.

(** Decimal rendering of a natural number, as [str(n)] / [f"{n}"] give it. *)
Fixpoint digits_fuel (fuel : nat) (n : N) (acc : str) : str :=
  match fuel with
  | O => acc
  | S f =>
      let acc' := (48 + n mod 10)%N :: acc in
      if (n <? 10)%N then acc' else digits_fuel f (n / 10)%N acc'
  end.

Definition decimal (n : N) : str := digits_fuel (S (N.to_nat (N.log2 n))) n [].

(** ** The interpreter facts the code depends on

    [py_lower] is [str.lower]; [casefold] is the per-character folding the
    [re] module applies under [re.IGNORECASE]; [set_iter] is the order in
    which a set with the given distinct elements is iterated, which for a
    set of strings follows the string hashes (seeded per process);
    [py_repr] is [repr] on strings; [digit_runs] lists the first code point
    of every run of ten decimal digits that the interpreter's Unicode
    database has beyond ASCII (Arabic-Indic at 1632, Devanagari at 2406,
    ...). *)
Record Runtime := {
  py_lower : str -> str;
  casefold : char -> char;
  set_iter : list str -> list str;
  py_repr  : str -> str;
  digit_runs : list N
}.

(** A set can only be iterated as a rearrangement of its elements. *)
Definition valid_set_iter (f : list str -> list str) : Prop :=
  forall l, Permutation (f l) l.

(** ** Regular expressions

    The fragment of Python's [re] syntax that the sources use, with the
    backtracking semantics of the [re] engine: alternatives are tried left
    to right, repetitions and options are greedy, and the first way to
    match wins. *)
Inductive regex :=
| Eps
| Lit (c : char)                (* a literal character *)
| Cls (p : char -> bool)        (* a character class, [\s], [\d] *)
| Seq (a b : regex)
| Alt (a b : regex)             (* a|b *)
| Star (p : char -> bool)       (* [..]*  (greedy) *)
| Opt (a : regex)               (* a?     (greedy) *)
| Group (a : regex)             (* ( a )  capturing *)
| NegLook (a : regex)           (* (?! a ) *)
| EndAnchor.                    (* $ *)

(** A literal word. *)
Definition lit (s : str) : regex := fold_right (fun c r => Seq (Lit c) r) Eps s.

(** [p1|p2|...|pn], the pattern text ["|".join(patterns)] denotes. *)
Fixpoint re_join (ps : list regex) : regex :=
  match ps with
  | [] => Eps
  | [p] => p
  | p :: rest => Alt p (re_join rest)
  end.

Definition Plus (p : char -> bool) : regex := Seq (Cls p) (Star p).

Definition orelse {A : Type} (x y : option A) : option A :=
  match x with Some _ => x | None => y end.

Fixpoint star_greedy {A : Type} (p : char -> bool) (s : str) (k : str -> option A) : option A :=
  match s with
  | x :: s' => if p x then orelse (star_greedy p s' k) (k s) else k s
  | [] => k []
  end.

(** The text consumed between the suffix [s] and the later suffix [s']. *)
Definition consumed (s s' : str) : str := firstn (length s - length s') s.

(** [$] matches at the end of the text and before a final newline. *)
Definition at_end (s : str) : bool :=
  match s with
  | [] => true
  | [c] => (c =? 10)%N
  | _ => false
  end.

Section Matcher.
(** [fold] is applied to both sides of a literal comparison: the identity
    for a case-sensitive pattern, the runtime's [casefold] under
    [re.IGNORECASE]. *)
Variable fold : char -> char.

(** [rmatch r s cs k]: match [r] at the start of [s] with the groups [cs]
    captured so far, then continue with [k] on the remaining input; [None]
    when every way of matching has been tried. *)
Fixpoint rmatch (r : regex) {A : Type} (s : str) (cs : list str)
         (k : str -> list str -> option A) {struct r} : option A :=
  match r with
  | Eps => k s cs
  | Lit c =>
      match s with
      | x :: s' => if (fold x =? fold c)%N then k s' cs else None
      | [] => None
      end
  | Cls p =>
      match s with
      | x :: s' => if p x then k s' cs else None
      | [] => None
      end
  | Seq a b => rmatch a s cs (fun s' cs' => rmatch b s' cs' k)
  | Alt a b => orelse (rmatch a s cs k) (rmatch b s cs k)
  | Star p => star_greedy p s (fun s' => k s' cs)
  | Opt a => orelse (rmatch a s cs k) (k s cs)
  | Group a => rmatch a s cs (fun s' cs' => k s' (cs' ++ [consumed s s']))
  | NegLook a =>
      match rmatch a s cs (fun _ _ => Some tt) with
      | Some _ => None
      | None => k s cs
      end
  | EndAnchor => if at_end s then k s cs else None
  end.

(** A match object: [group(0)] and the captured groups. *)
Record rematch := { group0 : str; groups : list str }.

Definition match_at (r : regex) (s : str) : option (str * list str) :=
  rmatch r s [] (fun s' cs => Some (s', cs)).

(** [re.search(r, s)]: the first position at which [r] matches. *)
Fixpoint search (r : regex) (s : str) : option rematch :=
  match match_at r s with
  | Some (s', cs) => Some {| group0 := consumed s s'; groups := cs |}
  | None => match s with [] => None | _ :: t => search r t end
  end.

(** [[m.group(0) for m in r.finditer(s)]]: the non-overlapping matches from
    left to right.  After an empty match the scan stays at the same
    position but the next match there has to be non-empty. *)
Fixpoint finditer_fuel (fuel : nat) (r : regex) (s : str) (must_advance : bool)
  : list str :=
  match fuel with
  | O => []
  | S f =>
      match rmatch r s []
              (fun s' _ => if must_advance && (length s' =? length s)%nat
                           then None else Some s') with
      | Some s' =>
          if (length s' =? length s)%nat
          then consumed s s' :: finditer_fuel f r s true
          else consumed s s' :: finditer_fuel f r s' false
      | None =>
          match s with
          | [] => []
          | _ :: t => finditer_fuel f r t false
          end
      end
  end.

Definition finditer (r : regex) (s : str) : list str :=
  finditer_fuel (2 * length s + 2) r s false.
End Matcher.

(** ** Dictionaries

    A Python [dict] with string keys and string values, in insertion
    order. *)
Definition dict := list (str * str).

Fixpoint dict_get (d : dict) (k : str) : option str :=
  match d with
  | [] => None
  | (k', v) :: d' => if str_eqb k' k then Some v else dict_get d' k
  end.

(** [d.get(k, default)] *)
Definition get_or (d : dict) (k default : str) : str :=
  match dict_get d k with Some v => v | None => default end.

(** [d[k] = v]: replaces the value in place, or appends a new key. *)
Fixpoint dict_set (d : dict) (k v : str) : dict :=
  match d with
  | [] => [(k, v)]
  | (k', v') :: d' => if str_eqb k' k then (k, v) :: d' else (k', v') :: dict_set d' k v
  end.

Definition nonempty (s : str) : bool := match s with [] => false | _ => true end.
Definition nonempty_list {A} (l : list A) : bool := match l with [] => false | _ => true end.

(** * filters/healthcare.py *)
Module Healthcare.

Definition PRIMARY_AGENCIES : list str :=
  [ u "보건복지부"; u "질병관리청"; u "식품의약품안전처";
    u "한국보건산업진흥원"; u "건강보험심사평가원";
    u "국립중앙의료원"; u "한국보건의료연구원" ].

Definition SECONDARY_AGENCIES : list str :=
  [ u "과학기술정보통신부"; u "산업통상자원부";
    u "정보통신산업진흥원"; u "정보통신기획평가원";
    u "한국지능정보사회진흥원"; u "한국연구재단";
    u "한국산업기술진흥원"; u "한국산업기술기획평가원";
    u "한국에너지기술평가원" ].

(** Pattern building blocks: [w "x"] is the literal text x, [ws] is [\s*],
    [a ~ b] is concatenation and [alt [a; b; ...]] is [(?:a|b|...)]. *)
Definition w (s : String.string) : regex := lit (u s).
Definition ws : regex := Star is_space.
Definition alt (l : list regex) : regex := re_join l.
Notation "a ~ b" := (Seq a b) (at level 61, left associativity).

(** The class [[\s·∙ㆍ-]]. *)
Definition bio_sep (c : char) : bool :=
  (is_space c || (c =? 183) || (c =? 8729) || (c =? 12685) || (c =? 45))%N.

Definition INCLUDE_PATTERNS : list regex :=
  [ w "의료기기";
    w "디지털" ~ ws ~ w "헬스";
    w "스마트" ~ ws ~ w "헬스";
    w "모바일" ~ ws ~ w "헬스";
    w "원격" ~ alt [w "의료"; w "진료"; w "모니터링"];
    w "웨어러블";
    alt [w "EMR"; w "EHR"];
    w "의료" ~ ws ~ w "정보";
    w "임상" ~ alt [w "시험"; w "연구"];
    alt [w "RWD"; w "RWE"];
    alt [w "의료" ~ ws ~ w "AI"; w "AI" ~ ws ~ w "의료"; w "의료" ~ ws ~ w "인공지능"];
    alt [w "보건의료" ~ ws ~ w "데이터"; w "의료" ~ ws ~ w "데이터"];
    alt [w "바이오" ~ ws ~ w "헬스"; w "바이오헬스"];
    w "재활";
    alt [w "고령자"; w "노인"] ~ ws ~ alt [w "돌봄"; w "케어"];
    w "건강" ~ ws ~ w "관리";
    w "감염병" ~ ws ~ alt [w "대응"; w "예방"; w "감시"];
    alt [w "환자"; w "진단"; w "치료"; w "병원"; w "의약품"; w "제약"; w "신약"];
    alt [w "보건의료기술"; w "의료기술" ~ Opt (w "개발")];
    w "바이오" ~ Star bio_sep ~ w "의료" ].

Definition EXCLUDE_PATTERNS : list regex :=
  [ alt [w "토목"; w "건설"; w "도로"; w "철도"; w "항만"; w "선박"; w "조선"];
    alt [w "항공"; w "우주"; w "위성"];
    alt [w "국방"; w "군수"];
    alt [w "원자력"; w "원전"];
    alt [w "광산"; w "채굴"];
    w "자동차" ~ ws ~ alt [w "부품"; w "경량화"];
    alt [w "반도체" ~ NegLook (ws ~ w "바이오");
         w "디스플레이" ~ NegLook (ws ~ w "헬스");
         w "배터리" ~ NegLook (ws ~ w "헬스")];
    alt [w "에너지"; w "전력"; w "발전"; w "태양광"; w "풍력"; w "수소"];
    alt [w "농업"; w "농업기계"];
    alt [w "소재부품"; w "산업혁신기반"; w "산단"; w "인프라"];
    w "양자" ~ Group (alt [w "컴퓨팅"; w "센싱"; w "플랫폼"]) ].

(** [re.compile("|".join(...), re.IGNORECASE)] *)
Definition inc_regex : regex := re_join INCLUDE_PATTERNS.
Definition exc_regex : regex := re_join EXCLUDE_PATTERNS.

(** The pattern of step 3: [R&D|연구개발|플랫폼|데이터|AI|인공지능]. *)
Definition ctx_regex : regex :=
  alt [w "R&D"; w "연구개발"; w "플랫폼"; w "데이터"; w "AI"; w "인공지능"].

Section Scorer.
Variable rt : Runtime.

(** [_text], applied to the list of its arguments *)
Definition _text (parts : list str) : str :=
  py_lower rt (join (u " ") (filter nonempty parts)).

(** [{s.lower() for s in ms if s}]: the distinct elements of the set. *)
Definition uniq_lower (ms : list str) : list str :=
  nodup (list_eq_dec N.eq_dec) (map (py_lower rt) (filter nonempty ms)).

(** [f"{a_set}"]: the elements are listed in the iteration order of the
    set. *)
Definition repr_set (elems : list str) : str :=
  match set_iter rt elems with
  | [] => u "set()"
  | xs => u "{" ++ join (u ", ") (map (py_repr rt) xs) ++ u "}"
  end.

Definition src_agencies (meta : dict) : str :=
  join (u " ") [get_or meta (u "소관부처") []; get_or meta (u "전문기관") []].

Definition is_primary (meta : dict) : bool :=
  existsb (fun ag => contains (src_agencies meta) ag) PRIMARY_AGENCIES.

Definition is_secondary (meta : dict) : bool :=
  existsb (fun ag => contains (src_agencies meta) ag) SECONDARY_AGENCIES.

Definition hay_of (meta : dict) (extra_text : str) : str :=
  _text [get_or meta (u "공고명") []; extra_text].

Definition inc_of (hay : str) : list str := finditer (casefold rt) inc_regex hay.
Definition exc_of (hay : str) : list str := finditer (casefold rt) exc_regex hay.

(** [min(4, len(uniq))] *)
Definition pts (uniq : list str) : Z := Z.min 4 (Z.of_nat (length uniq)).

(** What step 2 adds for include matches and subtracts for exclude
    matches. *)
Definition inc_pts (hay : str) : Z :=
  match inc_of hay with [] => 0 | ms => pts (uniq_lower ms) end.

Definition exc_pts (hay : str) : Z :=
  match exc_of hay with [] => 0 | ms => pts (uniq_lower ms) end.

Definition has_context (hay : str) : bool :=
  match search (casefold rt) ctx_regex hay with Some _ => true | None => false end.

Definition score_notice (meta : dict) (extra_text : str) : Z * list str :=
  let reasons : list str := [] in
  let score := 0%Z in
  (* 1) agency weight *)
  let '(score, reasons) :=
    if is_primary meta then
      ((score + 3)%Z, reasons ++ [u "1순위 보건/의료 기관(+3)"])
    else if is_secondary meta then
      ((score + 1)%Z, reasons ++ [u "2순위 R&D/ICT 기관(+1)"])
    else (score, reasons) in
  (* 2) keyword matches *)
  let hay := hay_of meta extra_text in
  let inc := inc_of hay in
  let exc := exc_of hay in
  let '(score, reasons) :=
    match inc with
    | [] => (score, reasons)
    | _ =>
        let inc_uniq := uniq_lower inc in
        let inc_pts := pts inc_uniq in
        ((score + inc_pts)%Z,
         reasons ++ [u "헬스 키워드 " ++ repr_set inc_uniq ++ u "(+"
                       ++ decimal (Z.to_N inc_pts) ++ u ")"])
    end in
  let '(score, reasons) :=
    match exc with
    | [] => (score, reasons)
    | _ =>
        let exc_uniq := uniq_lower exc in
        let exc_pts := pts exc_uniq in
        ((score - exc_pts)%Z,
         reasons ++ [u "비헬스 키워드 " ++ repr_set exc_uniq ++ u "(-"
                       ++ decimal (Z.to_N exc_pts) ++ u ")"])
    end in
  (* 3) digital / R&D context *)
  let '(score, reasons) :=
    if has_context hay then
      ((score + 1)%Z, reasons ++ [u "디지털/R&D 맥락(+1)"])
    else (score, reasons) in
  (* 4) secondary agency without any health keyword *)
  let '(score, reasons) :=
    if is_secondary meta && negb (nonempty_list inc) then
      ((score - 1)%Z, reasons ++ [u "2순위 기관인데 헬스 키워드 없음(-1)"])
    else (score, reasons) in
  (score, reasons).

(** [is_interesting_for_association] *)
Definition is_interesting_for_association (meta : dict) (extra_text : str)
           (threshold : Z) : bool * Z * list str :=
  let '(score, reasons) := score_notice meta extra_text in
  ((threshold <=? score)%Z, score, reasons).
End Scorer.

End Healthcare.

(** The interpreter used in the worked examples: ASCII case mapping, sets
    iterated in insertion order, [repr] by single quotes (which is what
    Python prints for text without quotes, backslashes or control
    characters). *)
Definition quote_repr (s : str) : str := u "'" ++ s ++ u "'".

Definition rt0 : Runtime :=
  {| py_lower := map ascii_lower; casefold := ascii_lower;
     set_iter := fun l => l; py_repr := quote_repr; digit_runs := [1632%N] |}.

(** The same interpreter started with another hash seed: sets come out in
    the opposite order. *)
Definition rt1 : Runtime :=
  {| py_lower := map ascii_lower; casefold := ascii_lower;
     set_iter := @rev str; py_repr := quote_repr; digit_runs := [1632%N] |}.

(** ** Decimal digits

    [\d] in a [str] pattern and [int] accept every Unicode decimal digit.
    (No decimal digit is white space.) *)
Definition is_digit (c : char) : bool := ((48 <=? c) && (c <=? 57))%N.

Definition in_run (c z : N) : bool := ((z <=? c) && (c <? z + 10))%N.

Definition is_decimal (rt : Runtime) (c : char) : bool :=
  is_digit c || (negb (is_space c) && existsb (in_run c) (digit_runs rt)).

Fixpoint run_value (c : char) (runs : list N) : N :=
  match runs with
  | [] => 0
  | z :: rest => if in_run c z then (c - z)%N else run_value c rest
  end.

Definition digit_value (rt : Runtime) (c : char) : N :=
  if is_digit c then (c - 48)%N else run_value c (digit_runs rt).

Fixpoint digits_value (rt : Runtime) (s : str) (acc : N) : N :=
  match s with
  | [] => acc
  | c :: s' => digits_value rt s' (10 * acc + digit_value rt c)%N
  end.

(** [int(s)] for a text of decimal digits, possibly after white space;
    [None] is the [ValueError] for any other text this model is asked
    about. *)
Definition int_of_digits (rt : Runtime) (s : str) : option N :=
  match lstrip s with
  | [] => None
  | d => if forallb (is_decimal rt) d then Some (digits_value rt d 0) else None
  end.

(** [f"{n:0Wd}"]: decimal, padded with zeros to the width W. *)
Definition zero_pad (width : nat) (n : N) : str :=
  let d := decimal n in repeat 48%N (width - length d) ++ d.

(** * Exceptions, HTTP and the request log *)

(** A raised exception, carried by what [{e!r}] prints for it. *)
Inductive exc := Exc (repr : str).

Definition exc_repr (e : exc) : str := match e with Exc r => r end.

Inductive result (A : Type) : Type :=
  | Ok (a : A)
  | Raise (e : exc).
Arguments Ok {A} a.
Arguments Raise {A} e.

Definition RecursionError : exc :=
  Exc (u "RecursionError('maximum recursion depth exceeded')").

Inductive Method := HEAD | GET.

(** A request as [_validate_link] sends it: method, URL and Referer header
    (the other headers and the timeout are constants). *)
Record Request := { method : Method; target : str; referer : str }.

(** What the code reads of a [requests.Response]. *)
Record Response := {
  status_code : Z;
  resp_url : str;                     (* str(resp.url), after redirects *)
  content_type : option str;          (* resp.headers.get("Content-Type") *)
  content_length : option str;        (* resp.headers.get("Content-Length") *)
  content : list N;                   (* resp.content, the body bytes *)
  text : str                          (* resp.text *)
}.


(** * datetime

    The values of [datetime] that the sources build: a date with hours and
    minutes, seconds and microseconds being zero. *)
Record datetime := { year : Z; month : Z; day : Z; hour : Z; minute : Z }.

(** [datetime.min] *)
Definition datetime_min : datetime :=
  {| year := 1; month := 1; day := 1; hour := 0; minute := 0 |}.

Definition is_leap (y : Z) : bool :=
  ((y mod 4 =? 0) && (negb (y mod 100 =? 0) || (y mod 400 =? 0)))%Z.

Definition days_in_month (y m : Z) : Z :=
  if (m =? 2)%Z then (if is_leap y then 29 else 28)
  else if ((m =? 4) || (m =? 6) || (m =? 9) || (m =? 11))%Z then 30 else 31.

Definition days_before_year (y : Z) : Z :=
  ((y - 1) * 365 + (y - 1) / 4 - (y - 1) / 100 + (y - 1) / 400)%Z.

Fixpoint days_before_month_fuel (fuel : nat) (y m : Z) : Z :=
  match fuel with
  | O => 0
  | S f => if (m <=? 1)%Z then 0
           else (days_in_month y (m - 1) + days_before_month_fuel f y (m - 1))%Z
  end.

Definition days_before_month (y m : Z) : Z := days_before_month_fuel 12 y m.

(** The proleptic Gregorian ordinal of a date; 1 is January 1 of year 1. *)
Definition ymd_to_ord (y m d : Z) : Z :=
  (days_before_year y + days_before_month y m + d)%Z.

(** Seconds counted from the start of ordinal day 0 (CPython's
    [utc_to_seconds]). *)
Definition to_seconds (dt : datetime) : Z :=
  (ymd_to_ord (year dt) (month dt) (day dt) * 86400 + hour dt * 3600 + minute dt * 60)%Z.

Definition epoch_seconds : Z := (719163 * 86400)%Z.   (* 1970-01-01 *)
Definition min_seconds : Z := 86400%Z.                (* 0001-01-01 00:00 *)
Definition max_seconds : Z := (3652060 * 86400)%Z.    (* 10000-01-01 00:00 *)

Definition YearOutOfRange : exc := Exc (u "ValueError('year 0 is out of range')").
Definition ValueError (msg : String.string) : exc :=
  Exc (u "ValueError('" ++ u msg ++ u "')").

Section LocalTime.
(** [utcoffset t] is the offset of local time from UTC, in seconds, at
    the instant [t] of the time zone the process runs in. *)
Variable utcoffset : Z -> Z.

(** The local wall-clock reading at an instant, as the seconds count of
    that reading; building the reading fails when its year is outside
    1..9999 (the helper [local] of [datetime._mktime]). *)
Definition local (t : Z) : result Z :=
  let lt := (t + utcoffset t)%Z in
  if ((min_seconds <=? lt) && (lt <? max_seconds))%Z then Ok lt else Raise YearOutOfRange.

(** [datetime._mktime] for fold = 0: solve [t = local(u)] for [u]. *)
Definition _mktime (dt : datetime) : result Z :=
  let max_fold_seconds := (24 * 3600)%Z in
  let t := to_seconds dt in
  match local t with
  | Raise e => Raise e
  | Ok lt =>
      let a := (lt - t)%Z in
      let u1 := (t - a)%Z in
      match local u1 with
      | Raise e => Raise e
      | Ok t1 =>
          let finish (b : Z) :=
            let u2 := (t - b)%Z in
            match local u2 with
            | Raise e => Raise e
            | Ok t2 =>
                if (t2 =? t)%Z then Ok u2
                else if (t1 =? t)%Z then Ok u1
                else Ok (Z.max u1 u2)
            end in
          if (t1 =? t)%Z then
            let u2 := (u1 - max_fold_seconds)%Z in
            match local u2 with
            | Raise e => Raise e
            | Ok lt2 =>
                let b := (lt2 - u2)%Z in
                if (a =? b)%Z then Ok u1 else finish b
            end
          else finish (t1 - u1)%Z
      end
  end.

(** [int(dt.timestamp())] of a naive [datetime]: seconds since the epoch. *)
Definition timestamp (dt : datetime) : result Z :=
  match _mktime dt with
  | Ok s => Ok (s - epoch_seconds)%Z
  | Raise e => Raise e
  end.
End LocalTime.

(** ** strptime

    [datetime.strptime(text, format)] for the formats of the sources.  The
    format is turned into a pattern (the tables of [_strptime.py]), the
    pattern has to match at the start of the text and to use all of it, and
    the fields have to form a date. *)
Inductive format :=
  | F_ymd_hm                 (* "%Y-%m-%d %H:%M" *)
  | F_ymd (sep : char).      (* "%Y-%m-%d", "%Y.%m.%d", "%Y/%m/%d" *)

Definition chr_range (lo hi : char) : regex := Cls (fun c => (lo <=? c) && (c <=? hi))%N.

Section Strptime.
Variable rt : Runtime.

Definition dig : regex := Cls (is_decimal rt).

(** (?P<Y>\d\d\d\d) *)
Definition re_Y : regex := Group (Seq dig (Seq dig (Seq dig dig))).
(** (?P<m>1[0-2]|0[1-9]|[1-9]) *)
Definition re_m : regex :=
  Group (re_join [Seq (Lit 49) (chr_range 48 50); Seq (Lit 48) (chr_range 49 57);
                  chr_range 49 57]).
(** (?P<d>3[0-1]|[1-2]\d|0[1-9]|[1-9]| [1-9]) *)
Definition re_d : regex :=
  Group (re_join [Seq (Lit 51) (chr_range 48 49); Seq (chr_range 49 50) dig;
                  Seq (Lit 48) (chr_range 49 57); chr_range 49 57;
                  Seq (Lit 32) (chr_range 49 57)]).
(** (?P<H>2[0-3]|[0-1]\d|\d) *)
Definition re_H : regex :=
  Group (re_join [Seq (Lit 50) (chr_range 48 51); Seq (chr_range 48 49) dig; dig]).
(** (?P<M>[0-5]\d|\d) *)
Definition re_M : regex := Group (re_join [Seq (chr_range 48 53) dig; dig]).

Definition re_date (sep : char) : regex :=
  Seq re_Y (Seq (Lit sep) (Seq re_m (Seq (Lit sep) re_d))).

Definition format_regex (f : format) : regex :=
  match f with
  | F_ymd sep => re_date sep
  | F_ymd_hm =>
      Seq (re_date 45) (Seq (Plus is_space) (Seq re_H (Seq (Lit 58) re_M)))
  end.

Definition field (caps : list str) (i : nat) : option Z :=
  match nth_error caps i with
  | Some g => option_map Z.of_N (int_of_digits rt g)
  | None => None
  end.

Definition strptime (s : str) (f : format) : result datetime :=
  match match_at (fun c => c) (format_regex f) s with
  | None => Raise (ValueError "time data does not match format")
  | Some (rest, caps) =>
      if nonempty rest then Raise (ValueError "unconverted data remains")
      else
        match field caps 0, field caps 1, field caps 2 with
        | Some y, Some m, Some d =>
            let hm := match f with
                      | F_ymd _ => Some (0, 0)%Z
                      | F_ymd_hm =>
                          match field caps 3, field caps 4 with
                          | Some h, Some mi => Some (h, mi)
                          | _, _ => None
                          end
                      end in
            match hm with
            | Some (h, mi) =>
                if (y <? 1)%Z then Raise YearOutOfRange
                else if (days_in_month y m <? d)%Z
                     then Raise (ValueError "day is out of range for month")
                     else Ok {| year := y; month := m; day := d; hour := h; minute := mi |}
            | None => Raise (ValueError "invalid field")
            end
        | _, _, _ => Raise (ValueError "invalid field")
        end
  end.
End Strptime.

(** ** What the HTML selectors find

    An anchor with its [href] and its text; a row of a two-column table
    with the text of its [th] (empty without one) and, when it has a [td],
    the text of the [td] and the [href] of its first anchor; a detail page
    with its table rows, the anchors of its main content region (if the
    region exists) and the anchors of its attachment areas; a row of the
    listing with the title and [href] of its link to /board/view (if any)
    and the texts of its cells. *)
Record Anchor := { href : str; anchor_text : str }.
Record MetaRow := { th : str; td : option (str * option str) }.
Record Page := { table_rows : list MetaRow; body : option (list Anchor);
                 attachments : list Anchor }.
Record ListRow := { view : option (str * str); cells : list str }.

(** The world outside the program.  [server log rq] is the outcome of
    sending [rq] after the requests in [log] have been sent: a response, or
    the exception [requests] raises (timeout, connection error, invalid
    URL, ...).  [urljoin] and [urlparse] are those of [urllib.parse], the
    latter reduced to the [(netloc, path)] it is asked for; both raise
    [ValueError] on some malformed input.  [py_int] is [int] on strings,
    [None] standing for [ValueError].  [strftime_ymd] is
    [datetime.strftime] for the format %Y-%m-%d, which the C library of the
    platform carries out (platforms differ in padding the year).
    [parse_listing] and [parse_detail] stand for BeautifulSoup and the
    selectors of [fetch_khidi_events] and [_pick_best_go_link]: they give
    what the selectors find in a listing page and in a detail page. *)
Record Env := {
  rt : Runtime;
  server : list Request -> Request -> result Response;
  urljoin : str -> str -> result str;
  urlparse : str -> result (str * str);
  py_int : str -> option Z;
  strftime_ymd : datetime -> str;
  parse_listing : str -> list ListRow;
  parse_detail : str -> result Page;
  (* whether appending a line to data/events_skipped.jsonl succeeds *)
  skip_log_writable : bool
}.

(** * crawlers/khidi_events.py *)
Module KhidiEvents.

Definition PLACEHOLDER_HREFS : list str :=
  [ []; u "-"; u "–"; u "—"; u "없음"; u "미정"; u "n/a"; u "N/A"; u "null"; u "NULL" ].

Section WithEnv.
Variable env : Env.

Definition lower : str -> str := py_lower (rt env).

(** The separators of a range: ~, en dash, em dash, 至. *)
Definition is_range_sep (c : char) : bool :=
  ((c =? 126) || (c =? 8211) || (c =? 8212) || (c =? 33267))%N.

Definition d1 : regex := Cls (is_decimal (rt env)).
Definition d4 : regex := Seq d1 (Seq d1 (Seq d1 d1)).
(** \d{1,2} *)
Definition d12 : regex := Seq d1 (Opt d1).
Definition sp : regex := Star is_space.
(** [./-] *)
Definition date_sep (c : char) : bool := ((c =? 46) || (c =? 47) || (c =? 45))%N.

(** (\d{4})\s*년\s*(\d{1,2})\s*월\s*(\d{1,2})\s*일 *)
Definition re_korean : regex :=
  Seq (Group d4) (Seq sp (Seq (Lit 45380) (Seq sp (Seq (Group d12) (Seq sp
  (Seq (Lit 50900) (Seq sp (Seq (Group d12) (Seq sp (Lit 51068)))))))))).

(** (\d{4})\s*[./-]\s*(\d{1,2})\s*[./-]\s*(\d{1,2}) *)
Definition re_separated : regex :=
  Seq (Group d4) (Seq sp (Seq (Cls date_sep) (Seq sp (Seq (Group d12) (Seq sp
  (Seq (Cls date_sep) (Seq sp (Group d12)))))))).

(** (\d{4}-\d{1,2}-\d{1,2}) *)
Definition re_iso : regex :=
  Group (Seq d4 (Seq (Lit 45) (Seq d12 (Seq (Lit 45) d12)))).

(** [s.split("-")] *)
Fixpoint split_dash (s : str) : list str :=
  match s with
  | [] => [[]]
  | c :: s' =>
      match split_dash s' with
      | [] => [[c]]
      | p :: ps => if (c =? 45)%N then [] :: p :: ps else (c :: p) :: ps
      end
  end.

(** [y, mo, d = map(int, parts)] followed by
    [f"{y:04d}-{mo:02d}-{d:02d}"]. *)
Definition format_ymd (parts : list str) : result str :=
  match parts with
  | [a; b; c] =>
      match int_of_digits (rt env) a, int_of_digits (rt env) b,
            int_of_digits (rt env) c with
      | Some y, Some mo, Some d =>
          Ok (zero_pad 4 y ++ u "-" ++ zero_pad 2 mo ++ u "-" ++ zero_pad 2 d)
      | _, _, _ => Raise (ValueError "invalid literal for int() with base 10")
      end
  | _ => Raise (ValueError "not enough values to unpack")
  end.

(** The loop over the formats of step 5: the first format that parses
    gives the answer, a [ValueError] moves on to the next. *)
Fixpoint try_formats (s : str) (fs : list format) : str :=
  match fs with
  | [] => []
  | f :: rest =>
      match strptime (rt env) (firstn 16 s) f with
      | Ok dt => strftime_ymd env dt
      | Raise _ => try_formats s rest
      end
  end.

(** Steps 2 to 5 of [_norm_date], on the text of the first date. *)
Definition norm_first (s : str) : result str :=
  match search (fun c => c) re_korean s with
  | Some m => format_ymd (groups m)
  | None =>
      match search (fun c => c) re_separated s with
      | Some m => format_ymd (groups m)
      | None =>
          match search (fun c => c) re_iso s with
          | Some m => format_ymd (split_dash (nth 0 (groups m) []))
          | None => Ok (try_formats s [F_ymd_hm; F_ymd 45; F_ymd 46; F_ymd 47])
          end
      end
  end.

(** [_norm_date]; the argument [None] is Python's [None]. *)
Definition _norm_date (s : option str) : result str :=
  let s := strip (match s with Some s => s | None => [] end) in
  if negb (nonempty s) then Ok []
  else
    (* 1) of a range, look at the first side only: re.split(...)[0] *)
    let s := fst (break_at is_range_sep s) in
    norm_first s.

(** [_is_placeholder_href]; [None] is Python's [None]. *)
Definition _is_placeholder_href (href : option str) : bool :=
  match href with
  | None => true
  | Some [] => true
  | Some h =>
      let s := lower (strip h) in
      str_in s PLACEHOLDER_HREFS || str_eqb s (u "#")
      || existsb (startswith s) [u "javascript:"; u "mailto:"; u "tel:"]
  end.

(** [_looks_like_khidi_placeholder] *)
Definition _looks_like_khidi_placeholder (url : str) : bool :=
  match urlparse env url with
  | Ok (netloc, path) =>
      let host := lower netloc in
      let path := rstrip_chars (N.eqb 47) path in
      contains host (u "khidi.or.kr") && str_in path [u "/board"; u "/board/-"]
  | Raise _ => false
  end.

(** [_looks_like_ok_content] *)
Definition _looks_like_ok_content (resp : Response) : bool :=
  let ct := lower (match content_type resp with Some c => c | None => [] end) in
  if existsb (contains ct)
       [ u "text/html"; u "application/pdf"; u "application/octet-stream";
         u "application/msword"; u "application/vnd.openxmlformats" ]
  then true
  else
    let by_header :=
      match py_int env (match content_length resp with Some c => c | None => u "0" end) with
      | Some clen => (200 <? clen)%Z
      | None => false
      end in
    if by_header then true else (200 <? length (content resp))%nat.

(** [_safe_abs_url] *)
Definition _safe_abs_url (href : option str) (base : str) : result (option str) :=
  if _is_placeholder_href href then Ok None
  else
    match href with
    | Some h => match urljoin env base (strip h) with
                | Ok v => Ok (Some v)
                | Raise e => Raise e
                end
    | None => Ok None
    end.

Definition is_quote (c : char) : bool := ((c =? 34) || (c =? 39))%N.
Definition not_gt (c : char) : bool := negb (c =? 62)%N.
(** The negated class of [_follow_meta_refresh]: anything but a quote
    character, a space, > and ; *)
Definition url_char (c : char) : bool :=
  negb ((c =? 34) || (c =? 39) || (c =? 32) || (c =? 62) || (c =? 59))%N.

(** The pattern of [_follow_meta_refresh], compiled with [re.I]; with Q
    for the class of the two quote characters it reads
    <meta[^>]+http-equiv=Q?refreshQ?[^>]*content=Q?[^>]*url\s*=\s*([^Q >;]+) *)
Definition meta_refresh_regex : regex :=
  Seq (lit (u "<meta")) (Seq (Plus not_gt) (Seq (lit (u "http-equiv="))
  (Seq (Opt (Cls is_quote)) (Seq (lit (u "refresh")) (Seq (Opt (Cls is_quote))
  (Seq (Star not_gt) (Seq (lit (u "content=")) (Seq (Opt (Cls is_quote))
  (Seq (Star not_gt) (Seq (lit (u "url")) (Seq (Star is_space) (Seq (Lit 61%N)
  (Seq (Star is_space) (Group (Plus url_char))))))))))))))).

(** [_follow_meta_refresh] *)
Definition _follow_meta_refresh (html base_url : str) : result (option str) :=
  match search (casefold (rt env)) meta_refresh_regex html with
  | None => Ok None
  | Some m => _safe_abs_url (Some (strip_chars is_quote (nth 0 (groups m) []))) base_url
  end.

(** The dictionary [meta] that [_validate_link] builds.  A key that is
    absent, or present with the value [None], reads as [None]. *)
Record VMeta := {
  tried_head : bool;
  tried_get : bool;
  final_url : str;
  status : option Z;
  ct : option str;
  note : option str
}.

Definition set_note (m : VMeta) (n : str) : VMeta :=
  {| tried_head := tried_head m; tried_get := tried_get m; final_url := final_url m;
     status := status m; ct := ct m; note := Some n |}.

(** [meta.update(status=r.status_code, final_url=str(r.url), ct=...)] *)
Definition update_from (m : VMeta) (r : Response) : VMeta :=
  {| tried_head := tried_head m; tried_get := tried_get m; final_url := resp_url r;
     status := Some (status_code r); ct := content_type r; note := note m |}.

Definition decimal_Z (z : Z) : str :=
  if (z <? 0)%Z then u "-" ++ decimal (Z.to_N (- z)) else decimal (Z.to_N z).

Definition is_html (r : Response) : bool :=
  contains (lower (match content_type r with Some c => c | None => [] end)) (u "text/html").

(** [sess.head(url, ...)] / [sess.get(url, ...)]: the request is logged and
    answered by the server. *)
Definition send (m : Method) (url ref : str) (log : list Request)
  : result Response * list Request :=
  let rq := {| method := m; target := url; referer := ref |} in
  (server env log rq, log ++ [rq]).

Definition with_tried_head (m : VMeta) : VMeta :=
  {| tried_head := true; tried_get := tried_get m; final_url := final_url m;
     status := status m; ct := ct m; note := note m |}.

Definition with_tried_get (m : VMeta) : VMeta :=
  {| tried_head := tried_head m; tried_get := true; final_url := final_url m;
     status := status m; ct := ct m; note := note m |}.

(** The [meta.update({...})] after a followed meta-refresh. *)
Definition after_refresh (m m2 : VMeta) (nxt : str) : VMeta :=
  {| tried_head := tried_head m; tried_get := tried_get m; final_url := final_url m2;
     status := status m2; ct := ct m2; note := Some (u "meta-refresh→" ++ nxt) |}.

Definition ok_status (lo hi : Z) (r : Response) : bool :=
  ((lo <=? status_code r) && (status_code r <? hi))%Z.

(** The second half of [_validate_link], from the comment "2) GET" on;
    [recurse] is the recursive call [_validate_link(nxt, sess, referer,
    timeout)]. *)
Definition get_step
           (recurse : str -> list Request -> result (bool * VMeta) * list Request)
           (url ref : str) (meta : VMeta) (log : list Request)
  : result (bool * VMeta) * list Request :=
  let meta := with_tried_get meta in
  let '(gr, log) := send GET url ref log in
  match gr with
  | Raise e => (Ok (false, set_note meta (u "get_err:" ++ exc_repr e)), log)
  | Ok gr =>
      let meta := update_from meta gr in
      if ok_status 200 400 gr && _looks_like_ok_content gr then
        if is_html gr then
          match _follow_meta_refresh (firstn 5000 (text gr)) (resp_url gr) with
          | Raise e => (Ok (false, set_note meta (u "get_err:" ++ exc_repr e)), log)
          | Ok None => (Ok (true, meta), log)
          | Ok (Some nxt) =>
              if nonempty nxt && negb (str_eqb nxt (resp_url gr)) then
                match recurse nxt log with
                | (Ok (ok2, m2), log) => (Ok (ok2, after_refresh meta m2 nxt), log)
                | (Raise e, log) =>
                    (Ok (false, set_note meta (u "get_err:" ++ exc_repr e)), log)
                end
              else (Ok (true, meta), log)
          end
        else (Ok (true, meta), log)
      else
        (Ok (false, set_note meta (u "get_bad_status:" ++ decimal_Z (status_code gr))), log)
  end.

(** [_validate_link].  [depth] is the number of nested activations the
    interpreter still allows: a call beyond it raises [RecursionError],
    like any call in Python.  The function threads the request log. *)
Fixpoint _validate_link (depth : nat) (url ref : str) (log : list Request)
  : result (bool * VMeta) * list Request :=
  match depth with
  | O => (Raise RecursionError, log)
  | S depth' =>
      let meta := {| tried_head := false; tried_get := false; final_url := url;
                     status := None; ct := None; note := None |} in
      if negb (nonempty url) then (Ok (false, set_note meta (u "empty-url")), log)
      else
        (* 1) HEAD *)
        let meta := with_tried_head meta in
        let '(hr, log) := send HEAD url ref log in
        match hr with
        | Ok hr =>
            let meta := update_from meta hr in
            if ok_status 200 300 hr then (Ok (true, meta), log)
            else get_step (fun nxt => _validate_link depth' nxt ref) url ref meta log
        | Raise e =>
            get_step (fun nxt => _validate_link depth' nxt ref) url ref
                     (set_note meta (u "head_err:" ++ exc_repr e)) log
        end
  end.
(** *** Picking the link of a detail page *)

Definition BASE : str := u "https://www.khidi.or.kr".
Definition LIST_PATH : str := u "/board?menuId=MENU01491&siteId=SITE00039".

Definition PLACEHOLDERS : list str :=
  [ []; u "-"; u "–"; u "—"; u "없음"; u "미정"; u "n/a"; u "N/A"; u "null"; u "NULL" ].

Definition _KEYWORD_SCORE : list (str * Z) :=
  [ (u "신청", 5); (u "바로가기", 4); (u "원문", 4); (u "공고문", 3);
    (u "자세히", 2); (u "안내", 1) ]%Z.

(** [_score_anchor] *)
Definition _score_anchor (a : Anchor) : Z :=
  let score :=
    fold_left (fun sc kw => if contains (anchor_text a) (fst kw) then sc + snd kw else sc)%Z
              _KEYWORD_SCORE 0%Z in
  match urlparse env (href a) with
  | Ok (netloc, _) =>
      let host := lower netloc in
      if nonempty host && negb (contains host (u "khidi.or.kr"))
      then (score + 2)%Z else score
  | Raise _ => score
  end.

(** [_pick_institution] *)
Definition _pick_institution (meta : dict) : option str :=
  find nonempty
       (map (fun key =>
               let val := strip (get_or meta key []) in
               if nonempty val && negb (str_in val PLACEHOLDERS) then val else [])
            [ u "출처"; u "기관"; u "주최"; u "주관"; u "주최/주관"; u "교육기관"; u "발행기관" ]).

(** A candidate: [(score, url, anchor text)]; tuples compare
    lexicographically, strings by code points. *)
Definition cand := (Z * str * str)%type.

Definition cand_lt (a b : cand) : bool :=
  let '(a1, a2, a3) := a in
  let '(b1, b2, b3) := b in
  ((a1 <? b1)%Z
   || ((a1 =? b1)%Z && (str_lt a2 b2 || (str_eqb a2 b2 && str_lt a3 b3)))).

(** [cands.sort(reverse=True)] *)
Fixpoint insert_desc (x : cand) (l : list cand) : list cand :=
  match l with
  | [] => [x]
  | y :: rest => if cand_lt x y then y :: insert_desc x rest else x :: l
  end.

Definition sort_desc (l : list cand) : list cand := fold_right insert_desc [] l.

(** The [meta] of a row: the string entries, and the entry "validation"
    that holds the metadata of a validation. *)
Record RowMeta := { fields : dict; validation : option VMeta }.

Definition set_field (m : RowMeta) (k v : str) : RowMeta :=
  {| fields := dict_set (fields m) k v; validation := validation m |}.

Definition set_validation (m : RowMeta) (vm : VMeta) : RowMeta :=
  {| fields := fields m; validation := Some vm |}.

(** [{**meta, "go_link_type": kind, "detail_backup": detail_url}] *)
Definition typed (meta : dict) (kind detail_url : str) : RowMeta :=
  {| fields := dict_set (dict_set meta (u "go_link_type") kind)
                        (u "detail_backup") detail_url;
     validation := None |}.

Definition LINK_LABELS : list str :=
  [ u "원문링크"; u "원문URL"; u "신청바로가기"; u "교육신청"; u "행사바로가기";
    u "참가신청"; u "접수" ].

(** The table scan 0) of [_pick_best_go_link]. *)
Definition table_meta (rows : list MetaRow) : dict :=
  fold_left (fun m r =>
               match td r with
               | Some (txt, _) => if nonempty (th r) then dict_set m (th r) txt else m
               | None => m
               end) rows [].

(** The scan 1): the first labelled row whose cell has a usable anchor. *)
Fixpoint meta_link (rows : list MetaRow) (detail_url : str) : result (option (str * str)) :=
  match rows with
  | [] => Ok None
  | r :: rest =>
      match td r with
      | Some (_, Some h) =>
          if nonempty (th r) && existsb (contains (th r)) LINK_LABELS then
            match _safe_abs_url (Some h) detail_url with
            | Raise e => Raise e
            | Ok (Some url) =>
                if nonempty url then Ok (Some (url, th r)) else meta_link rest detail_url
            | Ok None => meta_link rest detail_url
            end
          else meta_link rest detail_url
      | _ => meta_link rest detail_url
      end
  end.

(** The anchors of a region with their absolute URLs; [keep] is the test
    applied to the URL and the anchor, [score] the score recorded. *)
Fixpoint candidates (keep : str -> Anchor -> bool) (score : Anchor -> Z)
         (anchors : list Anchor) (base : str) : result (list cand) :=
  match anchors with
  | [] => Ok []
  | a :: rest =>
      match _safe_abs_url (Some (href a)) base with
      | Raise e => Raise e
      | Ok o =>
          match candidates keep score rest base with
          | Raise e => Raise e
          | Ok cs =>
              match o with
              | Some url =>
                  if nonempty url && keep url a
                  then Ok ((score a, url, anchor_text a) :: cs) else Ok cs
              | None => Ok cs
              end
          end
      end
  end.

(** \.(pdf|hwp|docx?|pptx?)$ with [re.I] *)
Definition attachment_regex : regex :=
  Seq (Lit 46)
      (Seq (Group (re_join [lit (u "pdf"); lit (u "hwp");
                            Seq (lit (u "doc")) (Opt (Lit 120));
                            Seq (lit (u "ppt")) (Opt (Lit 120))]))
           EndAnchor).

Definition is_document (url : str) : bool :=
  match search (casefold (rt env)) attachment_regex url with
  | Some _ => true
  | None => false
  end.

(** The scan 3): the first attachment anchor with a document URL. *)
Fixpoint first_document (anchors : list Anchor) (base : str) : result (option str) :=
  match anchors with
  | [] => Ok None
  | a :: rest =>
      match _safe_abs_url (Some (href a)) base with
      | Raise e => Raise e
      | Ok (Some url) =>
          if nonempty url && is_document url then Ok (Some url)
          else first_document rest base
      | Ok None => first_document rest base
      end
  end.

(** [_pick_best_go_link] *)
Definition _pick_best_go_link (detail_html detail_url : str) : result (str * RowMeta) :=
  match parse_detail env detail_html with
  | Raise e => Raise e
  | Ok soup =>
      let meta := table_meta (table_rows soup) in
      match meta_link (table_rows soup) detail_url with
      | Raise e => Raise e
      | Ok (Some (url, label)) => Ok (url, typed meta (u "meta:" ++ label) detail_url)
      | Ok None =>
          let from_body :=
            match body soup with
            | Some anchors =>
                match candidates (fun _ a => (0 <? _score_anchor a)%Z) _score_anchor
                                 anchors detail_url with
                | Raise e => Raise e
                | Ok cs =>
                    match sort_desc cs with
                    | (_, url, txt) :: _ =>
                        Ok (Some (url, typed meta (u "body:" ++ firstn 30 txt) detail_url))
                    | [] => Ok None
                    end
                end
            | None => Ok None
            end in
          match from_body with
          | Raise e => Raise e
          | Ok (Some r) => Ok r
          | Ok None =>
              match first_document (attachments soup) detail_url with
              | Raise e => Raise e
              | Ok (Some url) => Ok (url, typed meta (u "attachment") detail_url)
              | Ok None => Ok (detail_url, typed meta (u "detail") detail_url)
              end
          end
      end
  end.

(** *** The collector *)

(** [re.sub(r"\s+", " ", s)] *)
Fixpoint collapse_spaces (s : str) (in_run : bool) : str :=
  match s with
  | [] => []
  | c :: s' =>
      if is_space c then (if in_run then collapse_spaces s' true
                          else 32%N :: collapse_spaces s' true)
      else c :: collapse_spaces s' false
  end.

(** [_institution_from_list_row] *)
Definition _institution_from_list_row (tr : ListRow) : option str :=
  match cells tr with
  | _ :: c1 :: _ =>
      let val := strip (collapse_spaces c1 false) in
      if nonempty val && negb (str_in val PLACEHOLDERS) then Some val else None
  | _ => None
  end.

(** An item of the output, and an entry of the skip log (the payload
    handed to [_log_skip], without the time stamp and the constant
    reason that [_log_skip] adds). *)
Record Notice := {
  n_title : str; n_link : str; n_date : str; n_institution : str;
  n_detail_url : str; n_list_inst : option str; n_meta : RowMeta
}.

Record SkipEntry := {
  k_title : str; k_date : str; k_list_inst : option str; k_detail_url : str;
  k_picked_link : str; k_final_go_link : str; k_go_link_type : option str;
  k_note : option str; k_validation : option VMeta
}.

(** The loop [for _, u, txt in cands[:5]]: the first candidate that
    validates. *)
Fixpoint first_valid (depth : nat) (cs : list cand) (detail_href : str)
         (log : list Request)
  : result (option (str * str * VMeta)) * list Request :=
  match cs with
  | [] => (Ok None, log)
  | (_, url, txt) :: rest =>
      match _validate_link depth url detail_href log with
      | (Raise e, log) => (Raise e, log)
      | (Ok (true, vm2), log) => (Ok (Some (url, txt, vm2)), log)
      | (Ok (false, _), log) => first_valid depth rest detail_href log
      end
  end.

(** What the first part of the loop body settles for a row. *)
Record Resolved := {
  r_title : str; r_detail_href : str; r_reg_date : str; r_list_inst : option str;
  r_cand_link : str; r_go_link : str; r_meta : RowMeta
}.

(** [r.raise_for_status()] *)
Definition raise_for_status (r : Response) : result unit :=
  if ((400 <=? status_code r) && (status_code r <? 600))%Z
  then Raise (Exc (u "HTTPError()")) else Ok tt.

(** The [try] block of the loop body (source lines 326-333): the detail
    page and the first candidate.  Any exception leaves the detail URL as
    the candidate. *)
Definition detail_candidate (detail_href : str) (log : list Request)
  : (str * (str * RowMeta)) * list Request :=
  let '(fetched, log) := send GET detail_href [] log in
  let failed := (detail_href,
                 {| fields := [(u "go_link_type", u "detail_error");
                               (u "detail_backup", detail_href)];
                    validation := None |}) in
  match fetched with
  | Raise _ => (([], failed), log)
  | Ok dr =>
      match raise_for_status dr with
      | Raise _ => (([], failed), log)
      | Ok _ =>
          match _pick_best_go_link (text dr) detail_href with
          | Ok r => ((text dr, r), log)
          | Raise _ => ((text dr, failed), log)
          end
      end
  end.

(** [meta.update({"go_link_type": "fallback:...", "fallback_from": ...,
    "validation": vm2})] *)
Definition fallback_meta (meta : RowMeta) (txt cand_link : str) (vm2 : VMeta) : RowMeta :=
  set_validation
    (set_field (set_field meta (u "go_link_type") (u "fallback:" ++ firstn 30 txt))
               (u "fallback_from") cand_link) vm2.

(** [meta.update({"go_link_type": "detail_fallback", ..., "note":
    "alt_placeholder"})] *)
Definition detail_fallback_meta (meta : RowMeta) (cand_link : str) (vm : VMeta) : RowMeta :=
  set_field
    (set_validation
       (set_field (set_field meta (u "go_link_type") (u "detail_fallback"))
                  (u "fallback_from") cand_link) vm)
    (u "note") (u "alt_placeholder").

(** The branch [if not ok and dr_html] (source lines 338-375): the other
    candidates of the page are validated, best first, at most five. *)
Definition fallback_link (depth : nat) (detail_href cand_link : str) (meta : RowMeta)
           (vm : VMeta) (dr_html : str) (log : list Request)
  : result (str * RowMeta) * list Request :=
  match parse_detail env dr_html with
  | Raise e => (Raise e, log)
  | Ok alt_soup =>
      let other url := negb (str_eqb url cand_link) in
      match
        match body alt_soup with
        | Some anchors =>
            candidates (fun url a => other url && (0 <? _score_anchor a)%Z)
                       _score_anchor anchors detail_href
        | None => Ok []
        end,
        candidates (fun url _ => other url) (fun _ => 3%Z)
                   (attachments alt_soup) detail_href
      with
      | Raise e, _ | _, Raise e => (Raise e, log)
      | Ok from_body, Ok from_files =>
          let cands := sort_desc (from_body ++ from_files) in
          match first_valid depth (firstn 5 cands) detail_href log with
          | (Raise e, log) => (Raise e, log)
          | (Ok (Some (alt, txt, vm2)), log) =>
              let meta := fallback_meta meta txt cand_link vm2 in
              if negb (nonempty alt) || _looks_like_khidi_placeholder alt
              then (Ok (detail_href, detail_fallback_meta meta cand_link vm), log)
              else (Ok (alt, meta), log)
          | (Ok None, log) =>
              (Ok (detail_href, detail_fallback_meta meta cand_link vm), log)
          end
      end
  end.

(** The branch [else] (source lines 377-385). *)
Definition direct_link (detail_href cand_link : str) (meta : RowMeta) (ok : bool)
           (vm : VMeta) : str * RowMeta :=
  if ok && negb (_looks_like_khidi_placeholder cand_link) then
    (cand_link, set_validation meta vm)
  else
    (* meta.setdefault("note", ...) *)
    let meta :=
      match dict_get (fields meta) (u "note") with
      | Some _ => meta
      | None => set_field meta (u "note") (u "placeholder-or-bad-candidate")
      end in
    (detail_href, set_validation meta vm).

(** The loop body of [fetch_khidi_events] up to the choice of [go_link]
    (source lines 313-385); [None] is the [continue] of a row without a
    link to /board/view. *)
Definition resolve_row (depth : nat) (tr : ListRow) (log : list Request)
  : result (option Resolved) * list Request :=
  match view tr with
  | None => (Ok None, log)
  | Some (title, a_href) =>
      match urljoin env BASE a_href, _norm_date (nth_error (cells tr) 3) with
      | Raise e, _ | _, Raise e => (Raise e, log)
      | Ok detail_href, Ok reg_date =>
          let list_inst := _institution_from_list_row tr in
          let '((dr_html, (cand_link, meta)), log) := detail_candidate detail_href log in
          match _validate_link depth cand_link detail_href log with
          | (Raise e, log) => (Raise e, log)
          | (Ok (ok, vm), log) =>
              let done (chosen : str * RowMeta) log :=
                (Ok (Some {| r_title := title; r_detail_href := detail_href;
                             r_reg_date := reg_date; r_list_inst := list_inst;
                             r_cand_link := cand_link; r_go_link := fst chosen;
                             r_meta := snd chosen |}), log) in
              if negb ok && nonempty dr_html then
                match fallback_link depth detail_href cand_link meta vm dr_html log with
                | (Raise e, log) => (Raise e, log)
                | (Ok chosen, log) => done chosen log
                end
              else done (direct_link detail_href cand_link meta ok vm) log
          end
      end
  end.

(** The test [_no_original] of the loop body. *)
Definition _no_original (r : Resolved) : bool :=
  str_eqb (r_go_link r) (r_detail_href r)
  || _looks_like_khidi_placeholder (r_go_link r)
  || startswith (get_or (fields (r_meta r)) (u "go_link_type") []) (u "detail").

(** The state of the collection: the list [out], the skip log and the
    request log. *)
Record Collected := { out : list Notice; skipped : list SkipEntry; requests : list Request }.

(** [_log_skip]: one more line in the log file, or nothing at all when
    the write fails (the exception is swallowed). *)
Definition _log_skip (entry : SkipEntry) (file : list SkipEntry) : list SkipEntry :=
  if skip_log_writable env then file ++ [entry] else file.

(** The rest of the loop body (source lines 387-433): skip and log, or
    append. *)
Definition emit_row (r : Resolved) (st : Collected) (log : list Request) : Collected :=
  let meta_inst := match _pick_institution (fields (r_meta r)) with
                   | Some i => i
                   | None => u "-"
                   end in
  if _no_original r then
    {| out := out st;
       skipped := _log_skip
         {| k_title := r_title r; k_date := r_reg_date r; k_list_inst := r_list_inst r;
            k_detail_url := r_detail_href r; k_picked_link := r_cand_link r;
            k_final_go_link := r_go_link r;
            k_go_link_type := dict_get (fields (r_meta r)) (u "go_link_type");
            k_note := dict_get (fields (r_meta r)) (u "note");
            k_validation := validation (r_meta r) |} (skipped st);
       requests := log |}
  else
    let institution :=
      match r_list_inst r with
      | Some li => if nonempty li && negb (str_eqb li (u "기타")) then li
                   else if str_eqb meta_inst (u "-") then u "기타" else meta_inst
      | None => if str_eqb meta_inst (u "-") then u "기타" else meta_inst
      end in
    {| out := out st ++
         [{| n_title := r_title r; n_link := r_go_link r; n_date := r_reg_date r;
             n_institution := institution; n_detail_url := r_detail_href r;
             n_list_inst := r_list_inst r; n_meta := r_meta r |}];
       skipped := skipped st;
       requests := log |}.

(** One pass of the loop [for tr in ...]. *)
Definition process_row (depth : nat) (tr : ListRow) (st : Collected) : result Collected :=
  match resolve_row depth tr (requests st) with
  | (Raise e, _) => Raise e
  | (Ok None, log) =>
      Ok {| out := out st; skipped := skipped st; requests := log |}
  | (Ok (Some r), log) => Ok (emit_row r st log)
  end.

Fixpoint process_rows (depth : nat) (trs : list ListRow) (st : Collected)
  : result Collected :=
  match trs with
  | [] => Ok st
  | tr :: rest =>
      match process_row depth tr st with
      | Raise e => Raise e
      | Ok st' => process_rows depth rest st'
      end
  end.

(** The listing pages [page, page + 1, ...], [count] of them. *)
Fixpoint process_pages (depth : nat) (rows : N) (count : nat) (page : N) (st : Collected)
  : result Collected :=
  match count with
  | O => Ok st
  | S count' =>
      match urljoin env BASE LIST_PATH with
      | Raise e => Raise e
      | Ok list_url =>
          let url := list_url ++ u "&pageNum=" ++ decimal page
                              ++ u "&rowCnt=" ++ decimal rows in
          let '(r, log) := send GET url [] (requests st) in
          match r with
          | Raise e => Raise e
          | Ok r =>
              match raise_for_status r with
              | Raise e => Raise e
              | Ok _ =>
                  match process_rows depth (parse_listing env (text r))
                                     {| out := out st; skipped := skipped st;
                                        requests := log |} with
                  | Raise e => Raise e
                  | Ok st' => process_pages depth rows count' (page + 1)%N st'
                  end
              end
          end
      end
  end.

(** The key of the final sort: the date, [datetime.min] when it does not
    parse. *)
Definition date_key (n : Notice) : Z :=
  match strptime (rt env) (n_date n) (F_ymd 45) with
  | Ok dt => to_seconds dt
  | Raise _ => to_seconds datetime_min
  end.

(** [out.sort(key=_key, reverse=True)] *)
Fixpoint insert_by_date (x : Notice) (l : list Notice) : list Notice :=
  match l with
  | [] => [x]
  | y :: rest => if (date_key x <? date_key y)%Z then y :: insert_by_date x rest else x :: l
  end.

(** [fetch_khidi_events]; [skip_log] is the log file as found. *)
Definition fetch_khidi_events (depth : nat) (max_pages : nat) (rows : N)
           (skip_log : list SkipEntry) : result (list Notice * Collected) :=
  match process_pages depth rows max_pages 1
                      {| out := []; skipped := skip_log; requests := [] |} with
  | Raise e => Raise e
  | Ok st => Ok (fold_right insert_by_date [] (out st), st)
  end.
End WithEnv.

End KhidiEvents.

(** * main.py *)
Module Main.

(** The keys of a collected item that the last stage of [collect] reads:
    [x.get("title")] (default: empty), [x.get("date")] and
    [x.get("score", 0)]. *)
Record Item := { title : str; date : option str; score : Z }.

Section WithZone.
Variable rt : Runtime.
Variable utcoffset : Z -> Z.

(** [_parse_date_for_sort] *)
Definition _parse_date_for_sort (s : option str) : datetime :=
  match s with
  | None | Some [] => datetime_min
  | Some s =>
      let s := strip s in
      match strptime rt (firstn 16 s) F_ymd_hm with
      | Ok dt => dt
      | Raise _ =>
          match strptime rt (firstn 16 s) (F_ymd 45) with
          | Ok dt => dt
          | Raise _ => datetime_min
          end
      end
  end.

(** The key function of the sort:
    (-score, -int(_parse_date_for_sort(date).timestamp()), title) *)
Definition sort_key (x : Item) : result (Z * Z * str) :=
  match timestamp utcoffset (_parse_date_for_sort (date x)) with
  | Ok ts => Ok ((- score x)%Z, (- ts)%Z, title x)
  | Raise e => Raise e
  end.

(** Key tuples compare lexicographically. *)
Definition key_lt (a b : Z * Z * str) : bool :=
  let '(a1, a2, a3) := a in
  let '(b1, b2, b3) := b in
  ((a1 <? b1) || ((a1 =? b1) && ((a2 <? b2) || ((a2 =? b2) && str_lt a3 b3))))%Z.

(** [list.sort(key=...)]: the keys of all elements are computed first (an
    exception of the key function ends the sort), then the elements are
    arranged by their keys, equal keys keeping their order. *)
Fixpoint keyed (l : list Item) : result (list (Z * Z * str * Item)) :=
  match l with
  | [] => Ok []
  | x :: rest =>
      match sort_key x with
      | Raise e => Raise e
      | Ok k =>
          match keyed rest with
          | Raise e => Raise e
          | Ok ks => Ok ((k, x) :: ks)
          end
      end
  end.

Fixpoint insert_keyed (kx : Z * Z * str * Item) (l : list (Z * Z * str * Item))
  : list (Z * Z * str * Item) :=
  match l with
  | [] => [kx]
  | ky :: rest =>
      if key_lt (fst ky) (fst kx) then ky :: insert_keyed kx rest else kx :: l
  end.

Definition sort_keyed (l : list (Z * Z * str * Item)) : list (Z * Z * str * Item) :=
  fold_right insert_keyed [] l.

(** Step 4 of [collect]: [dedup.sort(key=lambda x: ...)]. *)
Definition collect_sort (dedup : list Item) : result (list Item) :=
  match keyed dedup with
  | Raise e => Raise e
  | Ok ks => Ok (map snd (sort_keyed ks))
  end.
End WithZone.

(** The example of the specification: scores 5, 5, 3 with the dates
    2025-01-01, 2024-01-01 and none. *)
Definition spec_example : list Item :=
  [ {| title := u "a"; date := Some (u "2025-01-01"); score := 5 |};
    {| title := u "b"; date := Some (u "2024-01-01"); score := 5 |};
    {| title := u "c"; date := None; score := 3 |} ].

End Main.

(** * notice_webapp/app.py: the refresh endpoints *)
Module WebApp.

(** The keys of [_FLAGS]; each is the flag of one endpoint:
    [refresh_all], [refresh_notices], [refresh_events]. *)
Inductive Endpoint := All | Notices | Events.

(** What a background job runs. *)
Inductive Collector := run_collection | run_events_collection.

Definition job_of (e : Endpoint) : list Collector :=
  match e with
  | All => [run_collection; run_events_collection]
  | Notices => [run_collection]
  | Events => [run_events_collection]
  end.

Definition endpoint_eqb (a b : Endpoint) : bool :=
  match a, b with
  | All, All | Notices, Notices | Events, Events => true
  | _, _ => false
  end.

(** The flags and the background jobs in flight, each named by the endpoint
    that started it. *)
Record State := { flags : Endpoint -> bool; running : list Endpoint }.

(** [_FLAGS = {"all": False, "notices": False, "events": False}] *)
Definition init : State := {| flags := fun _ => false; running := [] |}.

Definition set_flag (f : Endpoint -> bool) (e : Endpoint) (b : bool) : Endpoint -> bool :=
  fun x => if endpoint_eqb x e then b else f x.

(** A POST to an endpoint: if its flag is clear, set it and start the job
    thread; then redirect.  The handler runs as one step. *)
Definition refresh (e : Endpoint) (s : State) : State :=
  if flags s e then s
  else {| flags := set_flag (flags s) e true; running := e :: running s |}.

Fixpoint remove_one (e : Endpoint) (l : list Endpoint) : list Endpoint :=
  match l with
  | [] => []
  | x :: rest => if endpoint_eqb x e then rest else x :: remove_one e rest
  end.

(** The end of a job: its [finally] block clears the flag and the thread
    exits. *)
Definition job_done (e : Endpoint) (s : State) : State :=
  if existsb (endpoint_eqb e) (running s)
  then {| flags := set_flag (flags s) e false; running := remove_one e (running s) |}
  else s.

Inductive Event := Post (e : Endpoint) | Done (e : Endpoint).

Definition step (s : State) (ev : Event) : State :=
  match ev with
  | Post e => refresh e s
  | Done e => job_done e s
  end.

(** The state after a history of requests and job completions. *)
Definition after (history : list Event) : State := fold_left step history init.

Definition in_flight (s : State) (e : Endpoint) : nat :=
  length (filter (endpoint_eqb e) (running s)).

(** The jobs in flight that run a given collector. *)
Definition runs_of (s : State) (c : Collector) : nat :=
  length (filter (fun e => existsb (fun c' => match c, c' with
                                               | run_collection, run_collection
                                               | run_events_collection, run_events_collection => true
                                               | _, _ => false
                                               end) (job_of e)) (running s)).

End WebApp.

(** * A small concrete world for the worked examples

    ASCII decimal [int], URL joining and splitting for plain
    scheme://host/path?query#fragment URLs, and servers given by a table
    of URLs. *)

Fixpoint ascii_digits (s : str) (acc : Z) : option Z :=
  match s with
  | [] => Some acc
  | c :: s' => if is_digit c then ascii_digits s' (10 * acc + Z.of_N (c - 48))%Z else None
  end.

Definition ascii_int (s : str) : option Z :=
  match strip s with
  | [] => None
  | 45%N :: d => match d with [] => None | _ => option_map Z.opp (ascii_digits d 0) end
  | d => ascii_digits d 0
  end.

Fixpoint after_scheme (s : str) : option str :=
  match s with
  | 58%N :: 47%N :: 47%N :: rest => Some rest
  | c :: s' => if ((c =? 47) || (c =? 63) || (c =? 35))%N then None else after_scheme s'
  | [] => None
  end.

Definition urlparse_basic (url : str) : result (str * str) :=
  let is_delim c := ((c =? 47) || (c =? 63) || (c =? 35))%N in
  let is_qf c := ((c =? 63) || (c =? 35))%N in
  match after_scheme url with
  | Some rest =>
      let '(netloc, tail) := break_at is_delim rest in
      Ok (netloc, fst (break_at is_qf tail))
  | None => Ok ([], fst (break_at is_qf url))
  end.

(** Joining: a reference with a scheme stands for itself, a reference that
    starts with / replaces the path of the base. *)
Definition urljoin_basic (base ref : str) : result str :=
  match after_scheme ref with
  | Some _ => Ok ref
  | None =>
      match after_scheme base with
      | Some rest =>
          let origin := firstn (length base - length (snd (break_at (N.eqb 47) rest))) base in
          Ok (origin ++ ref)
      | None => Ok ref
      end
  end.

(** [strftime] of glibc for %Y-%m-%d: the year is not padded. *)
Definition strftime_glibc (dt : datetime) : str :=
  decimal (Z.to_N (year dt)) ++ u "-" ++ zero_pad 2 (Z.to_N (month dt)) ++ u "-"
          ++ zero_pad 2 (Z.to_N (day dt)).

Definition ConnectionError : exc := Exc (u "ConnectionError()").

Definition page (st : Z) (url ctype body : String.string) : Response :=
  {| status_code := st; resp_url := u url; content_type := Some (u ctype);
     content_length := None; content := map N_of_ascii (list_ascii_of_string body);
     text := u body |}.

Definition method_eqb (a b : Method) : bool :=
  match a, b with HEAD, HEAD | GET, GET => true | _, _ => false end.

(** A server that answers from a table and refuses every other request. *)
Fixpoint answer (table : list (Method * str * result Response)) (rq : Request)
  : result Response :=
  match table with
  | [] => Raise ConnectionError
  | (m, url, r) :: rest =>
      if method_eqb m (method rq) && str_eqb url (target rq) then r else answer rest rq
  end.

Definition empty_page : Page := {| table_rows := []; body := None; attachments := [] |}.

Definition world (table : list (Method * str * result Response)) : Env :=
  {| rt := rt0; server := fun _ rq => answer table rq;
     urljoin := urljoin_basic; urlparse := urlparse_basic; py_int := ascii_int;
     strftime_ymd := strftime_glibc;
     parse_listing := fun _ => []; parse_detail := fun _ => Ok empty_page;
     skip_log_writable := true |}.

Import Healthcare.

(** A pattern that cannot match the empty string. *)
Fixpoint productive (r : regex) : bool :=
  match r with
  | Lit _ | Cls _ => true
  | Seq a b => productive a || productive b
  | Alt a b => productive a && productive b
  | Group a => productive a
  | Eps | Star _ | Opt _ | NegLook _ | EndAnchor => false
  end.

(** ** Vocabulary of the scorer properties *)

(** The entries of a pattern table that match somewhere in the text. *)
Definition matched_patterns (rt : Runtime) (ps : list regex) (hay : str) : list regex :=
  filter (fun p => match search (casefold rt) p hay with Some _ => true | None => false end) ps.

(** The points of step 1, step 3 and step 4. *)
Definition agency_pts (meta : dict) : Z :=
  if is_primary meta then 3 else if is_secondary meta then 1 else 0.

Definition context_pts (rt : Runtime) (hay : str) : Z :=
  if has_context rt hay then 1 else 0.

Definition penalty_pts (rt : Runtime) (meta : dict) (hay : str) : Z :=
  if is_secondary meta && negb (nonempty_list (inc_of rt hay)) then 1 else 0.

(** The distinct keywords of the two families found in a text. *)
Definition inc_keywords (rt : Runtime) (hay : str) : list str := uniq_lower rt (inc_of rt hay).
Definition exc_keywords (rt : Runtime) (hay : str) : list str := uniq_lower rt (exc_of rt hay).

(** The same interpreter under another string-hash seed. *)
Definition with_set_iter (rt : Runtime) (f : list str -> list str) : Runtime :=
  {| py_lower := py_lower rt; casefold := casefold rt; set_iter := f;
     py_repr := py_repr rt; digit_runs := digit_runs rt |}.

Definition subset (a b : list str) : bool := forallb (fun x => str_in x b) a.
Definition same_set (a b : list str) : bool := subset a b && subset b a.

(** ** Vocabulary of the validator properties *)

Import KhidiEvents.

Definition head_request (url ref : str) : Request :=
  {| method := HEAD; target := url; referer := ref |}.
Definition get_request (url ref : str) : Request :=
  {| method := GET; target := url; referer := ref |}.

(** The metadata of a verdict: a rejection carries a note, an acceptance
    carries the status code of the response that was accepted. *)
Definition sound_meta (ok : bool) (m : VMeta) : Prop :=
  (ok = false -> note m <> None)
  /\ (ok = true -> exists st, status m = Some st /\ (200 <= st < 400)%Z).

(** The HEAD response is one that [_validate_link] accepts at once. *)
Definition head_accepts (env : Env) (url ref : str) (log : list Request) : bool :=
  match server env log (head_request url ref) with
  | Ok hr => ok_status 200 300 hr
  | Raise _ => false
  end.

(** The acceptance rule in the words of the specification: a 2xx answer to
    HEAD, or else a GET answer below 400 with substantive content. *)
Definition accept_as_specified (env : Env) (url ref : str) (log : list Request) : bool :=
  head_accepts env url ref log
  || match server env (log ++ [head_request url ref]) (get_request url ref) with
     | Ok gr => (status_code gr <? 400)%Z && _looks_like_ok_content env gr
     | Raise _ => false
     end.

(** The URL a substantive GET answer sends the validator on to: the target
    of a meta-refresh in an HTML body, unless it is the URL of the answer
    itself. *)
Definition refresh_target (env : Env) (gr : Response) : result (option str) :=
  if is_html env gr then
    match _follow_meta_refresh env (firstn 5000 (text gr)) (resp_url gr) with
    | Ok (Some nxt) =>
        if nonempty nxt && negb (str_eqb nxt (resp_url gr)) then Ok (Some nxt) else Ok None
    | Ok None => Ok None
    | Raise e => Raise e
    end
  else Ok None.

Definition verdict (r : result (bool * VMeta) * list Request) : bool :=
  match fst r with Ok (ok, _) => ok | Raise _ => false end.

(** The acceptance rule as the code has it; [depth] is what is left of the
    recursion limit for a followed meta-refresh. *)
Definition acceptance_rule (env : Env) (depth : nat) (url ref : str) (log : list Request)
  : bool :=
  nonempty url
  && (head_accepts env url ref log
      || let log1 := log ++ [head_request url ref] in
         match server env log1 (get_request url ref) with
         | Raise _ => false
         | Ok gr =>
             ok_status 200 400 gr && _looks_like_ok_content env gr
             && match refresh_target env gr with
                | Raise _ => false
                | Ok None => true
                | Ok (Some nxt) =>
                    verdict (_validate_link env depth nxt ref (log1 ++ [get_request url ref]))
                end
         end).

(** Worked worlds.  [refresh_to a b] is the page at [a] that redirects to
    [b] by a meta-refresh. *)
Definition refresh_to (url target : String.string) : Response :=
  page 200 url "text/html"
       ("<html><head><meta http-equiv='refresh' content='0; url=" ++ target
          ++ "'></head></html>")%string.

Definition pdf_at (url : String.string) : Response :=
  page 200 url "application/pdf" EmptyString.

(** a redirects to b, b redirects to c, c is a PDF; only c answers HEAD. *)
Definition chain_world : Env :=
  world [ (GET, u "http://a.example/", Ok (refresh_to "http://a.example/" "http://b.example/"));
          (GET, u "http://b.example/", Ok (refresh_to "http://b.example/" "http://c.example/f.pdf"));
          (HEAD, u "http://c.example/f.pdf", Ok (pdf_at "http://c.example/f.pdf")) ].

(** a redirects to a host that does not answer. *)
Definition dead_end_world : Env :=
  world [ (GET, u "http://a.example/", Ok (refresh_to "http://a.example/" "http://b.example/")) ].

(** a and b redirect to each other; neither answers HEAD. *)
Definition cycle_world : Env :=
  world [ (GET, u "http://a.example/", Ok (refresh_to "http://a.example/" "http://b.example/"));
          (GET, u "http://b.example/", Ok (refresh_to "http://b.example/" "http://a.example/")) ].

Definition kh : str := u "https://www.khidi.or.kr/board/view?no=1".

(** ** What a pattern can match

    [denote r s cs s' cs']: the pattern [r] can consume the input [s] down
    to its suffix [s'], extending the captured groups [cs] to [cs'].  (A
    negative look-ahead is only required to consume nothing.) *)
Section Denote.
Variable fold : char -> char.

Fixpoint denote (r : regex) (s : str) (cs : list str) (s' : str) (cs' : list str)
  : Prop :=
  match r with
  | Eps => s' = s /\ cs' = cs
  | Lit c => exists x, s = x :: s' /\ fold x = fold c /\ cs' = cs
  | Cls p => exists x, s = x :: s' /\ p x = true /\ cs' = cs
  | Seq a b => exists s1 cs1, denote a s cs s1 cs1 /\ denote b s1 cs1 s' cs'
  | Alt a b => denote a s cs s' cs' \/ denote b s cs s' cs'
  | Star p => exists w, s = w ++ s' /\ forallb p w = true /\ cs' = cs
  | Opt a => denote a s cs s' cs' \/ (s' = s /\ cs' = cs)
  | Group a => exists cs1, denote a s cs s' cs1 /\ cs' = cs1 ++ [consumed s s']
  | NegLook a => s' = s /\ cs' = cs
  | EndAnchor => s' = s /\ cs' = cs /\ at_end s = true
  end.
End Denote.

(** Patterns without look-ahead and without anchor. *)
Fixpoint plain (r : regex) : bool :=
  match r with
  | Eps | Lit _ | Cls _ | Star _ => true
  | Seq a b | Alt a b => plain a && plain b
  | Opt a | Group a => plain a
  | NegLook _ | EndAnchor => false
  end.

(** A captured run of between [lo] and [hi] decimal digits. *)
Definition digit_run (rt : Runtime) (lo hi : nat) (g : str) : Prop :=
  (lo <= length g <= hi)%nat /\ forallb (is_decimal rt) g = true.

(** A text that starts with a date in digits: four digits, a separator,
    one or two digits, a separator, possibly white space, one or two
    digits. *)
Definition dated (rt : Runtime) (t : str) : Prop :=
  exists g1 x g2 y w g3 rest,
    t = g1 ++ x :: g2 ++ y :: w ++ g3 ++ rest
    /\ digit_run rt 4 4 g1 /\ date_sep x = true /\ digit_run rt 1 2 g2
    /\ date_sep y = true /\ forallb is_space w = true /\ digit_run rt 1 2 g3.

(** The formats of step 5 of [_norm_date]. *)
Definition step5_format (f : format) : bool :=
  match f with
  | F_ymd_hm => true
  | F_ymd sep => date_sep sep
  end.

(** ** Matching before trailing white space

    [lift_tail w] puts back the tail [w] behind the rest of a match.  Two
    continuations are [tail_blind] when the one works on texts followed by
    [w] as the other does without it; [tail_guarded] when, in addition, the
    first rejects what is left of [w] once part of it has been consumed. *)
Definition lift_tail (w : str) (o : option (str * list str)) : option (str * list str) :=
  match o with
  | Some (s', cs) => Some (s' ++ w, cs)
  | None => None
  end.

Definition proper_suffix (t w : str) : Prop := exists pre, pre <> [] /\ w = pre ++ t.

Definition tail_blind (w : str) (k k' : str -> list str -> option (str * list str)) : Prop :=
  forall t c, k' (t ++ w) c = lift_tail w (k t c).

Definition tail_guarded (w : str) (k k' : str -> list str -> option (str * list str))
  : Prop :=
  tail_blind w k k' /\ forall t c, proper_suffix t w -> k' t c = None.

(** A pattern none of whose parts accepts a white-space character. *)
Fixpoint solid (fold : char -> char) (r : regex) : Prop :=
  match r with
  | Eps => True
  | Lit c => forall x, fold x = fold c -> is_space x = false
  | Cls p | Star p => forall x, p x = true -> is_space x = false
  | Seq a b | Alt a b => solid fold a /\ solid fold b
  | Opt a | Group a => solid fold a
  | NegLook _ | EndAnchor => False
  end.

(** A sequence that ends in a solid, productive part. *)
Fixpoint solid_end (fold : char -> char) (r : regex) : Prop :=
  match r with
  | Seq a b => plain a = true /\ solid_end fold b
  | _ => solid fold r /\ productive r = true
  end.

(** ** Vocabulary of the collector properties *)

(** A genuine original link, in the words of the specification: a
    candidate that validated, that is not the detail page itself, not an
    internal placeholder of KHIDI and not a placeholder token. *)
Definition genuine_link (env : Env) (depth : nat) (detail_href link : str) : Prop :=
  (exists log, verdict (_validate_link env depth link detail_href log) = true)
  /\ link <> detail_href
  /\ _looks_like_khidi_placeholder env link = false
  /\ _is_placeholder_href env (Some link) = false.

(** The base URLs that the collector joins references onto: the detail
    URLs, themselves joined onto [BASE]. *)
Definition collector_base (env : Env) (base : str) : Prop :=
  exists a_href, urljoin env BASE a_href = Ok base.

(** What the proofs need to know of [urllib.parse.urljoin]: joining the
    reference of an anchor that is not a placeholder token onto a detail
    URL does not yield a placeholder token.  (The result is the reference
    itself, or a URL that begins with the scheme of the base, one of those
    that allow relative references.) *)
Definition urljoin_keeps_links (env : Env) : Prop :=
  forall base h v,
    collector_base env base ->
    _is_placeholder_href env (Some h) = false ->
    urljoin env base (strip h) = Ok v -> nonempty v = true ->
    _is_placeholder_href env (Some v) = false.

(** A URL that can become the link of a notice. *)
Definition usable (env : Env) (url : str) : Prop :=
  nonempty url = true /\ _is_placeholder_href env (Some url) = false.

(** [meta.get("go_link_type")], empty when the key is missing. *)
Definition link_type (m : RowMeta) : str := get_or (fields m) (u "go_link_type") [].

(** The fate of a resolved row: appended to the output, or written to the
    skip log. *)
Definition appended (r : Resolved) (st st' : Collected) : Prop :=
  (exists n, out st' = out st ++ [n] /\ n_link n = r_go_link r
             /\ n_detail_url n = r_detail_href r)
  /\ skipped st' = skipped st.

Definition skipped_and_logged (r : Resolved) (st st' : Collected) : Prop :=
  out st' = out st
  /\ exists e, skipped st' = skipped st ++ [e] /\ k_final_go_link e = r_go_link r
               /\ k_detail_url e = r_detail_href r /\ k_title e = r_title r.

(** What a run of the loop may do to the collection: append notices with
    genuine links to the output, and append entries without one to the skip
    log. *)
Definition grown (env : Env) (depth : nat) (st st' : Collected) : Prop :=
  (exists new, out st' = out st ++ new
     /\ forall n, In n new -> genuine_link env depth (n_detail_url n) (n_link n))
  /\ (exists new, skipped st' = skipped st ++ new
     /\ forall e, In e new ->
          ~ genuine_link env depth (k_detail_url e) (k_final_go_link e)).

(** *** A site for the worked example of the collector

    References with a scheme stand for themselves, the others are taken
    from the root of the site.  The listing has two rows: the detail page
    of the first names an original link in its table, the detail page of
    the second has no link at all. *)
Definition urljoin_site (base ref : str) : result str :=
  match after_scheme ref with
  | Some _ => Ok ref
  | None => Ok (BASE ++ ref)
  end.

Definition listing_rows : list ListRow :=
  [ {| view := Some (u "Seminar", u "/board/view?no=1");
       cells := [u "2"; u "KHIDI"; u "Seminar"; u "2025.3.5"] |};
    {| view := Some (u "Workshop", u "/board/view?no=2");
       cells := [u "1"; u "-"; u "Workshop"; u "2025-03-01"] |} ].

Definition detail_with_link : Page :=
  {| table_rows := [ {| th := u "원문링크";
                        td := Some (u "apply", Some (u " http://c.example/f.pdf ")) |} ];
     body := None; attachments := [] |}.

Definition site_world : Env :=
  {| rt := rt0;
     server := fun _ rq =>
       answer
         [ (GET, BASE ++ LIST_PATH ++ u "&pageNum=1&rowCnt=20",
            Ok (page 200 "https://www.khidi.or.kr/board" "text/html" "listing"));
           (GET, BASE ++ u "/board/view?no=1",
            Ok (page 200 "https://www.khidi.or.kr/board/view?no=1" "text/html" "first"));
           (GET, BASE ++ u "/board/view?no=2",
            Ok (page 200 "https://www.khidi.or.kr/board/view?no=2" "text/html" "second"));
           (HEAD, u "http://c.example/f.pdf", Ok (pdf_at "http://c.example/f.pdf")) ] rq;
     urljoin := urljoin_site; urlparse := urlparse_basic; py_int := ascii_int;
     strftime_ymd := strftime_glibc;
     parse_listing := fun html => if str_eqb html (u "listing") then listing_rows else [];
     parse_detail := fun html =>
       Ok (if str_eqb html (u "first") then detail_with_link else empty_page);
     skip_log_writable := true |}.

(** No range separator in a text. *)
Definition sep_free (a : str) : bool := forallb (fun c => negb (is_range_sep c)) a.

(** [zero_pad] gives exactly [width] ASCII digits. *)
Definition padded (width : nat) (n : N) : bool :=
  (length (zero_pad width n) =? width)%nat && forallb is_digit (zero_pad width n).

(** The shape YYYY-MM-DD: ten characters, ASCII digits around two hyphens. *)
Definition is_ymd (s : str) : bool :=
  match s with
  | [y1; y2; y3; y4; h1; m1; m2; h2; d1; d2] =>
      forallb is_digit [y1; y2; y3; y4; m1; m2; d1; d2] && (h1 =? 45)%N && (h2 =? 45)%N
  | _ => false
  end.

Definition title_only (t : String.string) : dict := [(u "공고명", u t)].

(** The invariant of the refresh flags: the flag of an endpoint is set
    exactly while one job started through it is in flight. *)
Definition guarded (s : WebApp.State) : Prop :=
  forall e, WebApp.in_flight s e = (if WebApp.flags s e then 1 else 0)%nat.

(** ** Vocabulary of the dates that [_norm_date] finds *)

(** The two ways of writing a date that steps 2 and 3 of [_norm_date]
    look for. *)
Inductive date_kind := Korean | Separated.

(** [t] starts with a date in the Korean way: the year [g1] (four digits),
    the sign 년, the month [g2] and the sign 월, the day [g3] and the sign
    일, with any white space between them; [rest] follows. *)
Definition korean_at (rt : Runtime) (t g1 g2 g3 rest : str) : Prop :=
  exists w1 w2 w3 w4 w5 : str,
    t = g1 ++ w1 ++ 45380%N :: w2 ++ g2 ++ w3 ++ 50900%N :: w4 ++ g3 ++ w5 ++ 51068%N :: rest
    /\ digit_run rt 4 4 g1 /\ digit_run rt 1 2 g2 /\ digit_run rt 1 2 g3
    /\ forallb is_space (w1 ++ w2 ++ w3 ++ w4 ++ w5) = true.

(** [t] starts with a date whose fields are separated by [.], [/] or [-],
    with any white space around the separators; [rest] follows. *)
Definition separated_at (rt : Runtime) (t g1 g2 g3 rest : str) : Prop :=
  exists (w1 : str) (x : char) (w2 w3 : str) (y : char) (w4 : str),
    t = g1 ++ w1 ++ x :: w2 ++ g2 ++ w3 ++ y :: w4 ++ g3 ++ rest
    /\ digit_run rt 4 4 g1 /\ digit_run rt 1 2 g2 /\ digit_run rt 1 2 g3
    /\ date_sep x = true /\ date_sep y = true
    /\ forallb is_space (w1 ++ w2 ++ w3 ++ w4) = true.

Definition date_at (rt : Runtime) (k : date_kind) (t g1 g2 g3 rest : str) : Prop :=
  match k with
  | Korean => korean_at rt t g1 g2 g3 rest
  | Separated => separated_at rt t g1 g2 g3 rest
  end.

(** A date of the kind [k] is written somewhere in [s]. *)
Definition occurs (rt : Runtime) (k : date_kind) (s : str) : Prop :=
  exists pre t g1 g2 g3 rest, s = pre ++ t /\ date_at rt k t g1 g2 g3 rest.

(** The day has both of its digits: it has two, or no digit follows it. *)
Definition day_complete (rt : Runtime) (g3 rest : str) : Prop :=
  length g3 = 2%nat
  \/ match rest with
     | c :: _ => is_decimal rt c = false
     | [] => True
     end.

(** * More of the code: the helpers and the callers *)

(** ** Worked inputs of the scorer: a notice of a primary agency with four
    health keywords and a context word, and a notice with four keywords of
    other industries. *)
Definition best_notice : dict :=
  [ (u "소관부처", u "보건복지부");
    (u "공고명", u "의료기기 웨어러블 재활 환자 AI 사업") ].

Definition worst_notice : dict :=
  [ (u "공고명", u "토목 항공 국방 원자력 사업") ].

(** 1 for a contribution that is not zero. *)
Definition counts (z : Z) : nat := if (z =? 0)%Z then 0 else 1.

(** ** Vocabulary of the properties of the helpers of the collector *)

(** The requests of one validation: a HEAD request, then possibly a GET
    request for the same URL, then possibly the requests for a followed
    URL; all with the same Referer. *)
Fixpoint head_get_pairs (ref : str) (l : list Request) : bool :=
  match l with
  | [] => true
  | h :: rest =>
      match method h with HEAD => true | GET => false end
      && str_eqb (referer h) ref
      && match rest with
         | [] => true
         | g :: rest' =>
             match method g with GET => true | HEAD => false end
             && str_eqb (target g) (target h) && str_eqb (referer g) ref
             && head_get_pairs ref rest'
         end
  end.

(** The anchor text holds one of the keywords of [_KEYWORD_SCORE]. *)
Definition has_keyword (a : Anchor) : bool :=
  existsb (fun kw => contains (anchor_text a) (fst kw)) _KEYWORD_SCORE.

(** The anchor leads to a host outside khidi.or.kr. *)
Definition external (env : Env) (a : Anchor) : bool :=
  match urlparse env (href a) with
  | Ok (netloc, _) =>
      nonempty (lower env netloc) && negb (contains (lower env netloc) (u "khidi.or.kr"))
  | Raise _ => false
  end.

(** The keys that [_pick_institution] looks up, in its order. *)
Definition INSTITUTION_KEYS : list str :=
  [ u "출처"; u "기관"; u "주최"; u "주관"; u "주최/주관"; u "교육기관"; u "발행기관" ].

(** A usable value: not empty after stripping, and not a placeholder. *)
Definition named (val : str) : bool :=
  nonempty (strip val) && negb (str_in (strip val) PLACEHOLDERS).

(** Every white space character is a single U+0020 between two other
    characters. *)
Fixpoint single_spaced (s : str) : bool :=
  match s with
  | [] => true
  | c :: rest =>
      (if is_space c
       then (c =? 32)%N && match rest with [] => true | d :: _ => negb (is_space d) end
       else true)
      && single_spaced rest
  end.

(** A list in descending order of a key. *)
Fixpoint descending {A : Type} (key : A -> Z) (l : list A) : bool :=
  match l with
  | [] => true
  | x :: rest =>
      match rest with
      | [] => true
      | y :: _ => (key y <=? key x)%Z
      end && descending key rest
  end.

(** A pattern without capturing groups. *)
Fixpoint no_group (r : regex) : bool :=
  match r with
  | Seq a b | Alt a b => no_group a && no_group b
  | Opt a => no_group a
  | Group _ => false
  | _ => true
  end.

(** A page that redirects by a meta-refresh, as a browser would read it. *)
Definition refresh_page : str :=
  u "<html><head><META HTTP-EQUIV='Refresh' CONTENT='3; URL=/event/view?id=7;x=1'></head></html>".

(** The score of a candidate. *)
Definition cand_score (c : cand) : Z := fst (fst c).

(** A detail page without a labelled table row whose body has two scored
    links to other hosts. *)
Definition page_with_body : Page :=
  {| table_rows := [];
     body := Some [ {| href := u "http://info.example/guide"; anchor_text := u "안내" |};
                    {| href := u "http://apply.example/form";
                       anchor_text := u "신청 바로가기" |} ];
     attachments := [] |}.

Definition body_world : Env :=
  {| rt := rt0; server := fun _ _ => Raise ConnectionError;
     urljoin := urljoin_site; urlparse := urlparse_basic; py_int := ascii_int;
     strftime_ymd := strftime_glibc;
     parse_listing := fun _ => []; parse_detail := fun _ => Ok page_with_body;
     skip_log_writable := true |}.

(** A site whose listing has two events, the older one first; each detail
    page names an original link in its table. *)
Definition busy_rows : list ListRow :=
  [ {| view := Some (u "Seminar", u "/board/view?no=1");
       cells := [u "2"; u "KHIDI  본원"; u "Seminar"; u "2025.3.5 ~ 2025.3.7"] |};
    {| view := Some (u "Workshop", u "/board/view?no=2");
       cells := [u "1"; u "-"; u "Workshop"; u "2025년 4월 1일"] |} ].

Definition linked_page (link : String.string) : Page :=
  {| table_rows := [ {| th := u "원문링크"; td := Some (u "apply", Some (u link)) |};
                     {| th := u "주최"; td := Some (u " 보건복지부 ", None) |} ];
     body := None; attachments := [] |}.

Definition busy_site : Env :=
  {| rt := rt0;
     server := fun _ rq =>
       answer
         [ (GET, BASE ++ LIST_PATH ++ u "&pageNum=1&rowCnt=20",
            Ok (page 200 "https://www.khidi.or.kr/board" "text/html" "listing"));
           (GET, BASE ++ u "/board/view?no=1",
            Ok (page 200 "https://www.khidi.or.kr/board/view?no=1" "text/html" "first"));
           (GET, BASE ++ u "/board/view?no=2",
            Ok (page 200 "https://www.khidi.or.kr/board/view?no=2" "text/html" "second"));
           (HEAD, u "http://c.example/f.pdf", Ok (pdf_at "http://c.example/f.pdf"));
           (HEAD, u "http://d.example/g.pdf", Ok (pdf_at "http://d.example/g.pdf")) ] rq;
     urljoin := urljoin_site; urlparse := urlparse_basic; py_int := ascii_int;
     strftime_ymd := strftime_glibc;
     parse_listing := fun html => if str_eqb html (u "listing") then busy_rows else [];
     parse_detail := fun html =>
       Ok (if str_eqb html (u "first") then linked_page "http://c.example/f.pdf"
           else linked_page "http://d.example/g.pdf");
     skip_log_writable := true |}.

(** What every notice of the feed satisfies: its date is empty or has the
    shape YYYY-MM-DD, and its institution is a name, not a placeholder. *)
Definition well_formed_notice (n : Notice) : Prop :=
  (n_date n = [] \/ is_ymd (n_date n) = true)
  /\ nonempty (n_institution n) = true
  /\ str_in (n_institution n) PLACEHOLDERS = false.

(** ** Vocabulary of the date properties *)

(** [f"{y:04d}-{m:02d}-{d:02d}"] *)
Definition ymd_text (y m d : N) : str :=
  zero_pad 4 y ++ u "-" ++ zero_pad 2 m ++ u "-" ++ zero_pad 2 d.

(** A date of the calendar that [datetime] can hold. *)
Definition calendar_date (y m d : N) : bool :=
  ((1 <=? y) && (y <=? 9999) && (1 <=? m) && (m <=? 12) && (1 <=? d)
   && (Z.of_N d <=? days_in_month (Z.of_N y) (Z.of_N m))%Z)%N.

(** The part of a date text after the year. *)
Definition month_day_text (m d : N) : str :=
  45%N :: zero_pad 2 m ++ 45%N :: zero_pad 2 d.

(** The date pattern after the year, and the same followed by the time of
    the format with hours and minutes. *)
Definition after_year (rt : Runtime) : regex :=
  Seq (Lit 45) (Seq (re_m) (Seq (Lit 45) (re_d rt))).

Definition then_time (rt : Runtime) : regex :=
  Seq (Plus is_space) (Seq (re_H rt) (Seq (Lit 58) (re_M rt))).

(** All pairs of a month and a day number. *)
Definition month_days : list (N * N) :=
  flat_map (fun m => map (fun d => (N.of_nat m, N.of_nat d)) (seq 1 31)) (seq 1 12).

(** The continuation of [match_at]. *)
Definition matched (s : str) (cs : list str) : option (str * list str) := Some (s, cs).

(** The month and the day of a date text are read back as they were
    written, and no time follows them. *)
Definition reads_month_day (rt : Runtime) (md : N * N) : bool :=
  let '(m, d) := md in
  match rmatch (fun c => c) (after_year rt) (month_day_text m d) [] matched with
  | Some ([], [a; b]) => str_eqb a (zero_pad 2 m) && str_eqb b (zero_pad 2 d)
  | _ => false
  end
  && match rmatch (fun c => c) (Seq (after_year rt) (then_time rt))
                  (month_day_text m d) [] matched with
     | None => true
     | Some _ => false
     end.

(** * main.py: [enrich_and_filter] and the removal of duplicates in [collect] *)
Module Collect.

(** What [it.get(key)] finds in an item: nothing, the value [None], or a
    text. *)
Inductive slot := Missing | Null | Text (s : str).

(** [AttributeError("'NoneType' object has no attribute 'strip'")] *)
Definition AttributeError : exc :=
  Exc (u "AttributeError(" ++ [34%N] ++ u "'NoneType' object has no attribute 'strip'"
         ++ [34%N] ++ u ")").

(** [it.get(key, '').strip()]: the default only stands in for a missing
    key. *)
Definition stripped (f : slot) : result str :=
  match f with
  | Missing => Ok (strip [])
  | Text s => Ok (strip s)
  | Null => Raise AttributeError
  end.

(** The keys of an item that the removal of duplicates reads; [ident]
    stands for the rest of the item. *)
Record Candidate := { title : slot; date : slot; link : slot; ident : N }.

Definition key := (str * str * str)%type.

(** The key of an item: [it.get(k, '').strip()] for the keys ['title'],
    ['date'] and ['link']. *)
Definition key_of (it : Candidate) : result key :=
  match stripped (title it) with
  | Raise e => Raise e
  | Ok t =>
      match stripped (date it) with
      | Raise e => Raise e
      | Ok d =>
          match stripped (link it) with
          | Raise e => Raise e
          | Ok l => Ok (t, d, l)
          end
      end
  end.

Definition key_eqb (a b : key) : bool :=
  let '(a1, a2, a3) := a in
  let '(b1, b2, b3) := b in
  str_eqb a1 b1 && str_eqb a2 b2 && str_eqb a3 b3.

(** The loop of step 3: [seen] is the set of keys met, [dedup] the list
    built so far. *)
Fixpoint dedup_loop (all_items : list Candidate) (seen : list key) (dedup : list Candidate)
  : result (list Candidate) :=
  match all_items with
  | [] => Ok dedup
  | it :: rest =>
      match key_of it with
      | Raise e => Raise e
      | Ok k =>
          if existsb (key_eqb k) seen then dedup_loop rest seen dedup
          else dedup_loop rest (seen ++ [k]) (dedup ++ [it])
      end
  end.

(** Step 3 of [collect]. *)
Definition dedup (all_items : list Candidate) : result (list Candidate) :=
  dedup_loop all_items [] [].

(** A notice as [enrich_and_filter] reads it: [n["link"]] (a [KeyError]
    when the key is missing) and [n.get("meta", {})]. *)
Record Fetched := { n_link : option str; n_meta : dict; n_ident : N }.

(** A selected notice: [{**n, "meta": meta, "score": score, "reasons":
    reasons}]. *)
Record Selected := { chosen : Fetched; s_meta : dict; s_score : Z; s_reasons : list str }.

Definition KeyError : exc := Exc (u "KeyError('link')").

Section Enrich.
Variable rt : Runtime.
(** The two optional callbacks; each may raise. *)
Variable fetch_meta_func : option (str -> result dict).
Variable fetch_extra_text_func : option (str -> result str).

(** [fetch_meta_func(n["link"]) or meta], any exception leaving [meta]. *)
Definition enriched_meta (n : Fetched) : dict :=
  let meta := n_meta n in
  match fetch_meta_func with
  | None => meta
  | Some f =>
      match n_link n with
      | None => meta
      | Some l =>
          match f l with
          | Ok fetched => if nonempty_list fetched then fetched else meta
          | Raise _ => meta
          end
      end
  end.

(** [fetch_extra_text_func(n["link"])], the empty text on any exception. *)
Definition extra_text_of (n : Fetched) : str :=
  match fetch_extra_text_func with
  | None => []
  | Some f =>
      match n_link n with
      | None => []
      | Some l => match f l with Ok t => t | Raise _ => [] end
      end
  end.

(** [enrich_and_filter] *)
Fixpoint enrich_and_filter (notices : list Fetched) (threshold : Z) : list Selected :=
  match notices with
  | [] => []
  | n :: rest =>
      let meta := enriched_meta n in
      let extra_text := extra_text_of n in
      let '(ok, score, reasons) :=
        is_interesting_for_association rt meta extra_text threshold in
      if ok
      then {| chosen := n; s_meta := meta; s_score := score; s_reasons := reasons |}
             :: enrich_and_filter rest threshold
      else enrich_and_filter rest threshold
  end.
End Enrich.

End Collect.

(** ** Vocabulary of the properties of the removal of duplicates *)

(** [a] is [b] with some elements left out. *)
Fixpoint subsequence {A : Type} (a b : list A) : Prop :=
  match b with
  | [] => a = []
  | y :: b' =>
      match a with
      | [] => True
      | x :: a' => (x = y /\ subsequence a' b') \/ subsequence a b'
      end
  end.

(** No field of the item is [None]. *)
Definition no_null (it : Collect.Candidate) : bool :=
  match Collect.title it, Collect.date it, Collect.link it with
  | Collect.Null, _, _ | _, Collect.Null, _ | _, _, Collect.Null => false
  | _, _, _ => true
  end.

(** The key of an item without [None]. *)
Definition key_text (f : Collect.slot) : str :=
  match f with Collect.Text s => strip s | _ => [] end.

Definition item_key (it : Collect.Candidate) : Collect.key :=
  (key_text (Collect.title it), key_text (Collect.date it), key_text (Collect.link it)).

(** ** More of [str] and [re] *)

(** [s.replace(a, b)] for single characters. *)
Definition replace (a b : char) (s : str) : str :=
  map (fun c => if (c =? a)%N then b else c) s.

(** [re.split(r, s)[0]]: the text before the first match of [r], all of
    [s] without a match. *)
Fixpoint split_first (r : regex) (s : str) : str :=
  match match_at (fun c => c) r s with
  | Some _ => []
  | None =>
      match s with
      | [] => []
      | c :: t => c :: split_first r t
      end
  end.

(** * notice_webapp/app.py: the date an item is ordered by *)
Module WebDates.

(** What the date helpers read of an item: [item.get("date")] and
    [item.get("meta")]. *)
Record Shown := { date : option str; meta : dict }.

(** A value that is there and is not empty. *)
Definition truthy (v : option str) : option str :=
  match v with
  | Some (c :: s) => Some (c :: s)
  | _ => None
  end.

(** [for k in keys: if meta.get(k): return str(meta[k])] *)
Fixpoint first_of (meta : dict) (keys : list str) : option str :=
  match keys with
  | [] => None
  | k :: rest =>
      match truthy (dict_get meta k) with
      | Some v => Some v
      | None => first_of meta rest
      end
  end.

(** \s*~\s* *)
Definition re_tilde : regex := Seq (Star is_space) (Seq (Lit 126) (Star is_space)).

(** [_DATE_FMTS] *)
Definition _DATE_FMTS : list format := [F_ymd_hm; F_ymd 45; F_ymd 46; F_ymd 47].

Section WithRuntime.
Variable rt : Runtime.

(** (\d{4}[./-]\d{1,2}[./-]\d{1,2}) *)
Definition re_date_run : regex :=
  let d := Cls (is_decimal rt) in
  let sep := Cls date_sep in
  Group (Seq d (Seq d (Seq d (Seq d (Seq sep (Seq d (Seq (Opt d) (Seq sep (Seq d (Opt d)))))))))).

(** [_pick_date_str] *)
Definition _pick_date_str (item : Shown) : option str :=
  match truthy (date item) with
  | Some s => Some s
  | None =>
      let meta := meta item in
      match first_of meta [u "공고일자"; u "등록일"; u "게시일"] with
      | Some s => Some s
      | None =>
          match truthy (dict_get meta (u "notice_posted_at")) with
          | Some s => Some s
          | None =>
              let term := match truthy (dict_get meta (u "접수기간")) with
                          | Some t => t
                          | None => []
                          end in
              match search (fun c => c) re_date_run term with
              | Some m => nth_error (groups m) 0
              | None => None
              end
          end
      end
  end.

(** The loop over [_DATE_FMTS]: the first format that reads the text, else
    [datetime.min]. *)
Fixpoint first_format (s : str) (fmts : list format) : datetime :=
  match fmts with
  | [] => datetime_min
  | fmt :: rest =>
      match strptime rt s fmt with
      | Ok dt => dt
      | Raise _ => first_format s rest
      end
  end.

(** [_parse_date_for_sort] *)
Definition _parse_date_for_sort (item : Shown) : datetime :=
  match _pick_date_str item with
  | None | Some [] => datetime_min
  | Some s =>
      let s := strip s in
      let s := split_first re_tilde s in
      let s := replace 47 45 (replace 46 45 s) in
      first_format (firstn 16 s) _DATE_FMTS
  end.
End WithRuntime.

End WebDates.

(** ** Vocabulary of the properties of the web application's dates *)

(** The start of a period, with dashes for dots and slashes. *)
Definition period_start (s : str) : str :=
  replace 47 45 (replace 46 45 (split_first WebDates.re_tilde (strip s))).

(** A date written with the separator [sep]. *)
Definition date_text (sep : char) (y m d : N) : str :=
  zero_pad 4 y ++ sep :: zero_pad 2 m ++ sep :: zero_pad 2 d.

(** A text does not start with white space. *)
Definition head_solid (s : str) : bool :=
  match s with
  | c :: _ => negb (is_space c)
  | [] => true
  end.

(** What is left to match of [re_tilde] after its leading white space. *)
Definition tilde_k (s' : str) : option (str * list str) :=
  match s' with
  | x :: s'' => if (x =? 126)%N then star_greedy is_space s'' (fun s3 => Some (s3, [])) else None
  | [] => None
  end.

(** A character of a date text: no white space and no period sign. *)
Definition date_char (c : char) : bool := negb (is_space c) && negb (c =? 126)%N.

(** * crawlers/g2b_api.py: the pages that are scanned *)
Module G2B.

(** [_ceil_div]; [//] is the division that rounds down. *)
Definition _ceil_div (a b : Z) : Z :=
  if (b =? 0)%Z then 0%Z else ((a + b - 1) / b)%Z.

(** [range(last, stop, -1)] *)
Definition range_down (last stop : Z) : list Z :=
  map (fun i => (last - Z.of_nat i)%Z) (seq 0 (Z.to_nat (last - stop))).

(** The pages [_collect] asks for after the first one, from
    [totalCount], the page size and the number of pages to scan. *)
Definition page_range (total rows scan_pages : Z) : list Z :=
  let total_pages := Z.max 1 (_ceil_div total rows) in
  let last := total_pages in
  let first := Z.max 1 (last - scan_pages + 1) in
  range_down last (first - 1).

(** [scan_pages = max(20, int(max_pages) * 20)] of [fetch_g2b_notices] *)
Definition scan_pages_of (max_pages : Z) : Z := Z.max 20 (max_pages * 20).

End G2B.

(** * crawlers/kiat.py and crawlers/keit_srome.py: the registration date

    Both files define [_norm_date] with the same text. *)
Module Kiat.
Section WithEnv.
Variable env : Env.

(** [_norm_date]; [None] is Python's [None], as argument and as result. *)
Definition _norm_date (s : option str) : option str :=
  match s with
  | None | Some [] => None
  | Some s =>
      let s := replace 47 45 (replace 46 45 (strip s)) in
      match strptime (rt env) (firstn 10 s) (F_ymd 45) with
      | Ok dt => Some (strftime_ymd env dt)
      | Raise _ =>
          match firstn 10 s with
          | [] => None
          | t => Some t
          end
      end
  end.
End WithEnv.
End Kiat.

(** ** The application period of a KIAT row *)
Module KiatPeriod.

(** The result of [_norm_period]. *)
Record Period := {
  start_date : option str;
  end_date : option str;
  period : str;
  raw : str
}.

(** [f"{x}"] for a text or [None]. *)
Definition format_opt (x : option str) : str :=
  match x with
  | Some s => s
  | None => u "None"
  end.

(** The truth value of a text or [None]. *)
Definition is_true (x : option str) : bool :=
  match x with
  | Some (_ :: _) => true
  | _ => false
  end.

Section WithEnv.
Variable env : Env.

(** [_norm_period]; the matches of the pattern, which is one group, are
    what [re.findall] lists. *)
Definition _norm_period (s : option str) : Period :=
  let raw := strip (match s with Some s => s | None => [] end) in
  let m := finditer (fun c => c) (WebDates.re_date_run (rt env)) raw in
  let start := match nth_error m 0 with
               | Some x => Kiat._norm_date env (Some x)
               | None => None
               end in
  let end_ := match nth_error m 1 with
              | Some x => Kiat._norm_date env (Some x)
              | None => None
              end in
  let pretty := if is_true start || is_true end_
                then format_opt start ++ u " ~ " ++ format_opt end_
                else raw in
  {| start_date := start; end_date := end_; period := pretty; raw := raw |}.
End WithEnv.
End KiatPeriod.

(** ** Vocabulary of the properties of the KIAT and KEIT dates *)

(** The keys of a KIAT item that [collect] reads when it removes
    duplicates: ["title"], ["date"] (the registration date of the row) and
    ["link"]. *)
Definition kiat_item (env : Env) (title reg_date link : str) : Collect.Candidate :=
  {| Collect.title := Collect.Text title;
     Collect.date := match Kiat._norm_date env (Some reg_date) with
                     | Some d => Collect.Text d
                     | None => Collect.Null
                     end;
     Collect.link := Collect.Text link;
     Collect.ident := 0 |}.

(** A date as [datetime] holds it, at midnight. *)
Definition date_of (y m d : N) : datetime :=
  {| year := Z.of_N y; month := Z.of_N m; day := Z.of_N d; hour := 0; minute := 0 |}.

(** The first match of [r] in [s] as [re.sub] with a count of one uses it:
    the text before the match and the text after it. *)
Fixpoint search_span (fold : char -> char) (r : regex) (s : str) : option (str * str) :=
  match match_at fold r s with
  | Some (s', _) => Some ([], s')
  | None =>
      match s with
      | [] => None
      | c :: t =>
          match search_span fold r t with
          | Some (pre, post) => Some (c :: pre, post)
          | None => None
          end
      end
  end.

(** * notice_webapp/app.py: the page of the KIAT proxy *)
Module WebProxy.

Definition snippet : str := u "<script>try{window.alert=function(){};}catch(e){}</script>".

Definition head_end : str := u "</head>".

(** [_inject_mute_alerts]: the pattern is matched under [re.I]; the
    replacement text has no escapes, so it is inserted as it is. *)
Definition _inject_mute_alerts (rt : Runtime) (html : str) : str :=
  match search_span (casefold rt) (lit head_end) html with
  | Some (pre, post) => pre ++ (snippet ++ head_end) ++ post
  | None => snippet ++ html
  end.

End WebProxy.

(** ** Vocabulary of the properties of the proxy page *)

(** [tag] is the end tag of the head, in any case of the letters. *)
Definition is_head_end (rt : Runtime) (tag : str) : Prop :=
  map (casefold rt) tag = map (casefold rt) WebProxy.head_end.

(** * Properties *)

Unset Implicit Arguments.

Lemma str_eqb_eq a b : str_eqb a b = true <-> a = b.
Proof.
  revert b; induction a as [|x a IH]; intros [|y b]; simpl; split; try congruence.
  - intros H; apply andb_true_iff in H as [E H]; apply N.eqb_eq in E; apply IH in H.
    congruence.
  - intros H; inversion H; subst; rewrite N.eqb_refl; simpl; now apply IH.
Qed.

Lemma str_eqb_refl a : str_eqb a a = true.
Proof. now apply str_eqb_eq. Qed.

Lemma str_eqb_neq a b : str_eqb a b = false <-> a <> b.
Proof.
  destruct (str_eqb a b) eqn:E; split; try congruence.
  - apply str_eqb_eq in E; congruence.
  - intros _ H; apply str_eqb_eq in H; congruence.
Qed.

(** ** The matcher *)

Lemma orelse_Some {A : Type} (x y : option A) a :
  orelse x y = Some a -> x = Some a \/ y = Some a.
Proof. destruct x; simpl; auto. Qed.

Lemma star_greedy_inv {A : Type} p s (k : str -> option A) a :
  star_greedy p s k = Some a ->
  exists s', k s' = Some a /\ (length s' <= length s)%nat.
Proof.
  induction s as [|x s IH]; simpl; intros H.
  - exists []; auto.
  - destruct (p x).
    + apply orelse_Some in H as [H|H].
      * destruct (IH H) as (s' & Hk & Hl). exists s'; split; auto.
      * exists (x :: s); auto.
    + exists (x :: s); auto.
Qed.

Section MatcherFacts.
Variable fold : char -> char.

(** Whatever way a match succeeds, the continuation was entered on a
    suffix that is no longer than the input, and strictly shorter when the
    pattern is productive. *)
Lemma rmatch_inv r : forall (A : Type) s cs (k : str -> list str -> option A) a,
  rmatch fold r s cs k = Some a ->
  exists s' cs', k s' cs' = Some a
                 /\ (length s' <= length s)%nat
                 /\ (productive r = true -> (length s' < length s)%nat).
Proof.
  induction r; intros A s cs k res H; simpl in H.
  - exists s, cs; repeat split; auto; discriminate.
  - destruct s as [|x s]; [discriminate|].
    destruct (fold x =? fold c)%N; [|discriminate].
    exists s, cs; simpl; repeat split; auto.
  - destruct s as [|x s]; [discriminate|].
    destruct (p x); [|discriminate].
    exists s, cs; simpl; repeat split; auto.
  - apply IHr1 in H as (s1 & cs1 & H & L1 & P1).
    apply IHr2 in H as (s2 & cs2 & H & L2 & P2).
    exists s2, cs2; repeat split; auto; [lia|].
    simpl; intros Hp; apply orb_true_iff in Hp as [Hp|Hp];
      [specialize (P1 Hp)|specialize (P2 Hp)]; lia.
  - apply orelse_Some in H as [H|H];
      [apply IHr1 in H|apply IHr2 in H];
      destruct H as (s1 & cs1 & H & L & P); exists s1, cs1;
      repeat split; auto; simpl; intros Hp; apply andb_true_iff in Hp as [? ?]; auto.
  - apply star_greedy_inv in H as (s' & H & L).
    exists s', cs; repeat split; auto; discriminate.
  - apply orelse_Some in H as [H|H].
    + apply IHr in H as (s1 & cs1 & H & L & _).
      exists s1, cs1; repeat split; auto; discriminate.
    + exists s, cs; repeat split; auto; discriminate.
  - apply IHr in H as (s1 & cs1 & H & L & P).
    exists s1, (cs1 ++ [consumed s s1]); repeat split; auto.
  - destruct (rmatch fold r s cs (fun _ _ => Some tt)); [discriminate|].
    exists s, cs; repeat split; auto; discriminate.
  - destruct (at_end s); [|discriminate].
    exists s, cs; repeat split; auto; discriminate.
Qed.

Lemma consumed_nonempty (s s' : str) :
  (length s' < length s)%nat -> nonempty (consumed s s') = true.
Proof.
  unfold consumed; intros H.
  destruct (length s - length s')%nat eqn:E; [lia|].
  destruct s as [|x s]; [simpl in H; lia|reflexivity].
Qed.

(** [finditer] on a productive pattern yields non-empty matches only. *)
Lemma finditer_fuel_nonempty r (Hr : productive r = true) :
  forall fuel s adv, Forall (fun m => nonempty m = true) (finditer_fuel fold fuel r s adv).
Proof.
  induction fuel as [|f IH]; intros s adv; simpl; [constructor|].
  destruct (rmatch fold r s [] _) as [s'|] eqn:E.
  - apply rmatch_inv in E as (s1 & cs1 & Hk & _ & P).
    specialize (P Hr).
    assert (s1 = s') as ->
        by (destruct (adv && (length s1 =? length s)%nat); congruence).
    assert ((length s' =? length s)%nat = false) as -> by (apply Nat.eqb_neq; lia).
    constructor; [now apply consumed_nonempty|apply IH].
  - destruct s; [constructor|apply IH].
Qed.

Lemma finditer_nonempty r s :
  productive r = true -> Forall (fun m => nonempty m = true) (finditer fold r s).
Proof. intros; now apply finditer_fuel_nonempty. Qed.
End MatcherFacts.

Lemma filter_all {A} (f : A -> bool) l :
  Forall (fun x => f x = true) l -> filter f l = l.
Proof. induction 1; simpl; [|rewrite H]; congruence. Qed.

(** ** The scorer *)

Lemma nodup_nil_iff (l : list str) : nodup (list_eq_dec N.eq_dec) l = [] <-> l = [].
Proof.
  split; [|now intros ->].
  destruct l as [|x l]; auto; intros H.
  assert (In x (nodup (list_eq_dec N.eq_dec) (x :: l))) as Hin
      by (apply nodup_In; now left).
  rewrite H in Hin; destruct Hin.
Qed.

Lemma subset_incl a b : subset a b = true -> incl a b.
Proof.
  unfold subset, str_in; rewrite forallb_forall; intros H x Hx.
  apply H in Hx. apply existsb_exists in Hx as (y & Hy & E).
  apply str_eqb_eq in E; now subst.
Qed.

Lemma same_set_length a b :
  NoDup a -> NoDup b -> same_set a b = true -> length a = length b.
Proof.
  unfold same_set; intros Na Nb H; apply andb_true_iff in H as [H1 H2].
  apply Permutation_length, NoDup_Permutation; auto.
  intros x; split; [apply (subset_incl _ _ H1)|apply (subset_incl _ _ H2)].
Qed.

Lemma pts_bounds l : (0 <= pts l <= 4)%Z.
Proof. unfold pts; lia. Qed.

Lemma pts_mono a b : (length a <= length b)%nat -> (pts a <= pts b)%Z.
Proof. unfold pts; lia. Qed.

Lemma inc_productive : productive inc_regex = true.
Proof. reflexivity. Qed.

Lemma exc_productive : productive exc_regex = true.
Proof. reflexivity. Qed.

Section ScorerFacts.
Variable rt : Runtime.

Lemma uniq_lower_NoDup ms : NoDup (uniq_lower rt ms).
Proof. apply NoDup_nodup. Qed.

(** On matches that are all non-empty the filter [if s] keeps everything,
    and the set is empty only if there was no match. *)
Lemma uniq_lower_nonempty ms :
  Forall (fun m => nonempty m = true) ms ->
  uniq_lower rt ms = nodup (list_eq_dec N.eq_dec) (map (py_lower rt) ms)
  /\ (uniq_lower rt ms = [] <-> ms = []).
Proof.
  intros H; unfold uniq_lower; rewrite (filter_all _ _ H); split; auto.
  rewrite nodup_nil_iff; split; [apply map_eq_nil|now intros ->].
Qed.

Lemma inc_keywords_nil hay : inc_keywords rt hay = [] <-> inc_of rt hay = [].
Proof. apply uniq_lower_nonempty, finditer_nonempty, inc_productive. Qed.

Lemma inc_pts_keywords hay : inc_pts rt hay = pts (inc_keywords rt hay).
Proof.
  unfold inc_pts, inc_keywords; destruct (inc_of rt hay); reflexivity.
Qed.

Lemma exc_pts_keywords hay : exc_pts rt hay = pts (exc_keywords rt hay).
Proof.
  unfold exc_pts, exc_keywords; destruct (exc_of rt hay); reflexivity.
Qed.

(** The score is the sum of the four steps. *)
Lemma score_notice_sum meta extra :
  let hay := hay_of rt meta extra in
  fst (score_notice rt meta extra)
  = (agency_pts meta + inc_pts rt hay - exc_pts rt hay
     + context_pts rt hay - penalty_pts rt meta hay)%Z.
Proof.
  unfold score_notice, agency_pts, inc_pts, exc_pts, context_pts, penalty_pts.
  cbv zeta.
  destruct (is_primary meta), (is_secondary meta),
    (inc_of rt (hay_of rt meta extra)), (exc_of rt (hay_of rt meta extra)),
    (has_context rt (hay_of rt meta extra)); cbn [fst andb negb nonempty_list]; lia.
Qed.

Lemma penalty_mono meta meta' hay hay' :
  src_agencies meta = src_agencies meta' ->
  (length (inc_keywords rt hay) <= length (inc_keywords rt hay'))%nat ->
  (penalty_pts rt meta' hay' <= penalty_pts rt meta hay)%Z.
Proof.
  intros Hag Hlen; unfold penalty_pts, is_secondary; rewrite Hag.
  destruct (existsb _ SECONDARY_AGENCIES); cbn [andb]; [|lia].
  destruct (inc_of rt hay') eqn:E'; cbn [negb nonempty_list]; [|destruct (inc_of rt hay); simpl; lia].
  apply inc_keywords_nil in E'; rewrite E' in Hlen; simpl in Hlen.
  assert (inc_keywords rt hay = []) as E by (destruct (inc_keywords rt hay); simpl in *; [auto|lia]).
  apply inc_keywords_nil in E; rewrite E; simpl; lia.
Qed.

(** The score grows with the number of include keywords and with the
    context flag, and falls with the number of exclude keywords. *)
Lemma score_profile_mono meta extra meta' extra' :
  let hay := hay_of rt meta extra in
  let hay' := hay_of rt meta' extra' in
  src_agencies meta = src_agencies meta' ->
  (length (inc_keywords rt hay) <= length (inc_keywords rt hay'))%nat ->
  (length (exc_keywords rt hay') <= length (exc_keywords rt hay))%nat ->
  (has_context rt hay = true -> has_context rt hay' = true) ->
  (fst (score_notice rt meta extra) <= fst (score_notice rt meta' extra'))%Z.
Proof.
  intros hay hay' Hag Hinc Hexc Hctx.
  rewrite !score_notice_sum; fold hay hay'.
  pose proof (penalty_mono meta meta' hay hay' Hag Hinc).
  rewrite !inc_pts_keywords, !exc_pts_keywords.
  apply pts_mono in Hinc, Hexc.
  assert (agency_pts meta = agency_pts meta') as ->
      by (unfold agency_pts, is_primary, is_secondary; now rewrite Hag).
  assert (context_pts rt hay <= context_pts rt hay')%Z
    by (unfold context_pts; destruct (has_context rt hay);
        [rewrite Hctx by auto; lia|destruct (has_context rt hay'); lia]).
  lia.
Qed.
End ScorerFacts.

(** *** Worked inputs *)

(** C3, as stated, fails: the text "환자 진단" is matched by a single entry
    of INCLUDE_PATTERNS (the alternation 환자|진단|치료|...), yet it scores
    two include points, one for each of the two distinct matched words. *)
Lemma one_pattern_two_points :
  let hay := hay_of rt0 (title_only "환자 진단") [] in
  length (matched_patterns rt0 INCLUDE_PATTERNS hay) = 1%nat
  /\ inc_keywords rt0 hay = [u "환자"; u "진단"]
  /\ inc_pts rt0 hay = 2%Z
  /\ inc_pts rt0 hay
     <> Z.min 4 (Z.of_nat (length (matched_patterns rt0 INCLUDE_PATTERNS hay))).
Proof. vm_compute. repeat split; congruence. Qed.

(** C3, amended: the include contribution is the number of distinct
    (lower-cased) matched strings of the combined include pattern, capped
    at 4, the exclude contribution is minus the number of distinct matched
    strings of the combined exclude pattern, capped at 4; so the include
    part lies in [0,4], the exclude part in [-4,0], their sum in [-4,4],
    and they enter the score additively. *)
Theorem keyword_contribution (rt : Runtime) (meta : dict) (extra_text : str) :
  let hay := hay_of rt meta extra_text in
  let distinct := nodup (list_eq_dec N.eq_dec) in
  inc_pts rt hay
    = Z.min 4 (Z.of_nat (length (distinct (map (py_lower rt) (inc_of rt hay)))))
  /\ exc_pts rt hay
    = Z.min 4 (Z.of_nat (length (distinct (map (py_lower rt) (exc_of rt hay)))))
  /\ (0 <= inc_pts rt hay <= 4)%Z
  /\ (-4 <= - exc_pts rt hay <= 0)%Z
  /\ (-4 <= inc_pts rt hay - exc_pts rt hay <= 4)%Z
  /\ fst (score_notice rt meta extra_text)
     = (agency_pts meta + (inc_pts rt hay - exc_pts rt hay)
        + context_pts rt hay - penalty_pts rt meta hay)%Z.
Proof.
  intros hay distinct.
  pose proof (uniq_lower_nonempty rt _ (@finditer_nonempty (casefold rt) inc_regex hay inc_productive))
    as [Ei _].
  pose proof (uniq_lower_nonempty rt _ (@finditer_nonempty (casefold rt) exc_regex hay exc_productive))
    as [Ee _].
  pose proof (pts_bounds (inc_keywords rt hay)).
  pose proof (pts_bounds (exc_keywords rt hay)).
  rewrite (score_notice_sum rt meta extra_text); fold hay.
  rewrite inc_pts_keywords, exc_pts_keywords in *.
  unfold inc_keywords, exc_keywords, inc_of, exc_of in *.
  rewrite Ei, Ee in *. unfold pts in *.
  repeat split; try lia.
Qed.

(** C7, as stated, fails: on the same input two interpreter processes whose
    string hashes order the set {환자, 진단} differently return different
    reason texts. *)
Lemma reasons_follow_set_order :
  let meta := title_only "환자 진단" in
  valid_set_iter (set_iter rt0) /\ valid_set_iter (set_iter rt1)
  /\ snd (score_notice rt0 meta []) = [u "헬스 키워드 {'환자', '진단'}(+2)"]
  /\ snd (score_notice rt1 meta []) = [u "헬스 키워드 {'진단', '환자'}(+2)"]
  /\ snd (score_notice rt0 meta []) <> snd (score_notice rt1 meta []).
Proof.
  split; [intros l; apply Permutation_refl|].
  split; [intros l; simpl; apply Permutation_sym, Permutation_rev|].
  vm_compute; repeat split; congruence.
Qed.

Lemma perm_short (f : list str -> list str) (l : list str) :
  valid_set_iter f -> (length l <= 1)%nat -> f l = l.
Proof.
  intros V H; specialize (V l).
  destruct l as [|x [|y l]]; simpl in H; try lia.
  - now apply Permutation_nil, Permutation_sym.
  - now apply Permutation_length_1_inv, Permutation_sym.
Qed.

(** C7, amended: the score and the number of reasons do not depend on the
    process; the reason texts are the same in every process when each of
    the two keyword sets has at most one element (with more elements the
    sets are printed in the iteration order of the process). *)
Theorem score_notice_across_processes
        (rt : Runtime) (f g : list str -> list str) (meta : dict) (extra_text : str) :
  valid_set_iter f -> valid_set_iter g ->
  let a := score_notice (with_set_iter rt f) meta extra_text in
  let b := score_notice (with_set_iter rt g) meta extra_text in
  let hay := hay_of rt meta extra_text in
  fst a = fst b
  /\ length (snd a) = length (snd b)
  /\ ((length (inc_keywords rt hay) <= 1)%nat ->
      (length (exc_keywords rt hay) <= 1)%nat -> a = b).
Proof.
  intros Vf Vg a b hay; subst a b.
  unfold score_notice, inc_keywords, exc_keywords; cbv zeta.
  change (hay_of (with_set_iter rt f) meta extra_text) with hay.
  change (hay_of (with_set_iter rt g) meta extra_text) with hay.
  change (inc_of (with_set_iter rt f) hay) with (inc_of rt hay).
  change (inc_of (with_set_iter rt g) hay) with (inc_of rt hay).
  change (exc_of (with_set_iter rt f) hay) with (exc_of rt hay).
  change (exc_of (with_set_iter rt g) hay) with (exc_of rt hay).
  change (has_context (with_set_iter rt f) hay) with (has_context rt hay).
  change (has_context (with_set_iter rt g) hay) with (has_context rt hay).
  change (uniq_lower (with_set_iter rt f)) with (uniq_lower rt).
  change (uniq_lower (with_set_iter rt g)) with (uniq_lower rt).
  assert (R : forall l, (length l <= 1)%nat ->
                   repr_set (with_set_iter rt f) l = repr_set (with_set_iter rt g) l).
  { intros l Hl; unfold repr_set; simpl. now rewrite (@perm_short f l Vf Hl), (@perm_short g l Vg Hl). }
  destruct (is_primary meta), (is_secondary meta), (inc_of rt hay) as [|i0 inc],
    (exc_of rt hay) as [|e0 exc], (has_context rt hay);
    cbn [fst snd andb negb nonempty_list app length];
    (split; [reflexivity|split; [reflexivity|]]);
    intros Hi He; rewrite ?(R _ Hi), ?(R _ He); reflexivity.
Qed.

Lemma score_notice_across_processes_witness :
  let meta := title_only "의료기기 지원사업 공고" in
  fst (score_notice rt0 meta []) = fst (score_notice rt1 meta [])
  /\ length (snd (score_notice rt0 meta [])) = length (snd (score_notice rt1 meta []))
  /\ score_notice rt0 meta [] = score_notice rt1 meta [].
Proof.
  intros meta.
  assert (V0 : valid_set_iter (fun l : list str => l)) by (intros l; apply Permutation_refl).
  assert (V1 : valid_set_iter (@rev str))
    by (intros l; apply Permutation_sym, Permutation_rev).
  destruct (score_notice_across_processes rt0 (fun l => l) (@rev str) meta [] V0 V1)
    as (A & B & C).
  split; [exact A|split; [exact B|]].
  apply C; vm_compute; lia.
Defined.

(** C8, as stated, fails in its second half: the text below already has four
    exclude keywords; appending the exclude keyword 양자플랫폼 adds exactly
    one exclude keyword and no include keyword, the exclude part stays at
    its floor of -4, and the word 플랫폼 inside the new keyword earns the
    context point of step 3: the score rises from -4 to -3. *)
Lemma exclude_keyword_raises_score :
  let extra := u "토목 항공 국방 원자력" in
  let extra' := extra ++ u " 양자플랫폼" in
  let hay := hay_of rt0 [] extra in
  let hay' := hay_of rt0 [] extra' in
  exc_keywords rt0 hay' = exc_keywords rt0 hay ++ [u "양자플랫폼"]
  /\ length (exc_keywords rt0 hay) = 4%nat
  /\ inc_of rt0 hay = [] /\ inc_of rt0 hay' = []
  /\ fst (score_notice rt0 [] extra) = (-4)%Z
  /\ fst (score_notice rt0 [] extra') = (-3)%Z
  /\ ~ (fst (score_notice rt0 [] extra') <= fst (score_notice rt0 [] extra))%Z.
Proof. vm_compute. repeat split; congruence. Qed.

(** C8, amended: take an input, a second one in which exactly one more
    include keyword matches, and a third one in which exactly one more
    exclude keyword matches, the three with the same agency fields and
    each otherwise with the same keywords as the first.  If the second does
    not lose the context point of step 3 and the third does not gain it,
    then the third scores at most what the first scores, and the first at
    most what the second scores.  (The caps at 4 and the lifted penalty of
    step 4 are accounted for.) *)
Theorem keyword_monotonicity (rt : Runtime)
        (meta meta_inc meta_exc : dict) (extra extra_inc extra_exc : str) :
  let hay := hay_of rt meta extra in
  let hay_inc := hay_of rt meta_inc extra_inc in
  let hay_exc := hay_of rt meta_exc extra_exc in
  src_agencies meta_inc = src_agencies meta ->
  src_agencies meta_exc = src_agencies meta ->
  (* one more include keyword *)
  subset (inc_keywords rt hay) (inc_keywords rt hay_inc) = true ->
  length (inc_keywords rt hay_inc) = S (length (inc_keywords rt hay)) ->
  same_set (exc_keywords rt hay_inc) (exc_keywords rt hay) = true ->
  implb (has_context rt hay) (has_context rt hay_inc) = true ->
  (* one more exclude keyword *)
  subset (exc_keywords rt hay) (exc_keywords rt hay_exc) = true ->
  length (exc_keywords rt hay_exc) = S (length (exc_keywords rt hay)) ->
  same_set (inc_keywords rt hay_exc) (inc_keywords rt hay) = true ->
  implb (has_context rt hay_exc) (has_context rt hay) = true ->
  (fst (score_notice rt meta_exc extra_exc) <= fst (score_notice rt meta extra)
   <= fst (score_notice rt meta_inc extra_inc))%Z.
Proof.
  intros hay hay_inc hay_exc Ai Ae _ Li Si Ci _ Le Se Ce.
  apply same_set_length in Si, Se; try apply uniq_lower_NoDup.
  split; apply score_profile_mono; auto; fold hay hay_inc hay_exc; try lia.
  - destruct (has_context rt hay_exc); simpl in Ce; auto; discriminate.
  - destruct (has_context rt hay); simpl in Ci; auto; discriminate.
Qed.

Lemma keyword_monotonicity_witness :
  let meta := [(u "전문기관", u "한국연구재단"); (u "공고명", u "지원사업 공고")] in
  (fst (score_notice rt0 meta (u "반도체")) <= fst (score_notice rt0 meta [])
   <= fst (score_notice rt0 meta (u "임상시험")))%Z
  /\ fst (score_notice rt0 meta (u "반도체")) = (-1)%Z
  /\ fst (score_notice rt0 meta []) = 0%Z
  /\ fst (score_notice rt0 meta (u "임상시험")) = 2%Z.
Proof.
  intros meta; split; [|vm_compute; repeat split; reflexivity].
  apply (keyword_monotonicity rt0 meta meta meta [] (u "임상시험") (u "반도체"));
    vm_compute; reflexivity.
Defined.

(** ** The link validator *)

Section ValidatorFacts.
Variable env : Env.
Variable ref : str.

Lemma get_step_inv recurse url meta log :
  (forall nxt l, match fst (recurse nxt l) with
                 | Ok (ok, m) => sound_meta ok m
                 | Raise _ => True
                 end) ->
  exists ok m log', get_step env recurse url ref meta log = (Ok (ok, m), log')
                    /\ sound_meta ok m.
Proof.
  intros Hrec; unfold get_step, send; cbv zeta.
  destruct (server env log _) as [gr|e].
  2:{ do 3 eexists; split; [reflexivity|split; [discriminate|discriminate]]. }
  destruct (ok_status 200 400 gr) eqn:Hst; cbn [andb].
  2:{ do 3 eexists; split; [reflexivity|split; discriminate]. }
  assert (Hgood : sound_meta true (update_from (with_tried_get meta) gr)).
  { split; [discriminate|intros _; exists (status_code gr); split; [reflexivity|]].
    unfold ok_status in Hst; lia. }
  destruct (_looks_like_ok_content env gr).
  2:{ do 3 eexists; split; [reflexivity|split; discriminate]. }
  destruct (is_html env gr).
  2:{ do 3 eexists; split; [reflexivity|exact Hgood]. }
  destruct (_follow_meta_refresh env _ _) as [[nxt|]|e].
  - destruct (nonempty nxt && negb (str_eqb nxt (resp_url gr))).
    + specialize (Hrec nxt ((log ++ [{| method := GET; target := url; referer := ref |}]))).
      destruct (recurse nxt _) as [[[ok2 m2]|e] l2]; cbn [fst] in Hrec.
      * do 3 eexists; split; [reflexivity|].
        destruct Hrec as [Hn Hs]; split; [discriminate|exact Hs].
      * do 3 eexists; split; [reflexivity|split; discriminate].
    + do 3 eexists; split; [reflexivity|exact Hgood].
  - do 3 eexists; split; [reflexivity|exact Hgood].
  - do 3 eexists; split; [reflexivity|split; discriminate].
Qed.

Lemma validate_inv d : forall url log,
  match fst (_validate_link env d url ref log) with
  | Ok (ok, meta) => sound_meta ok meta
  | Raise _ => True
  end.
Proof.
  induction d as [|d IH]; intros url log; [exact I|].
  cbn [_validate_link]; unfold send.
  destruct (negb (nonempty url)); [split; discriminate|].
  destruct (server env log _) as [hr|e].
  - destruct (ok_status 200 300 hr) eqn:Hst.
    + split; [discriminate|intros _; exists (status_code hr); split; [reflexivity|]].
      unfold ok_status in Hst; lia.
    + destruct (get_step_inv (fun nxt => _validate_link env d nxt ref) url
                             (update_from (with_tried_head
                                {| tried_head := false; tried_get := false; final_url := url;
                                   status := None; ct := None; note := None |}) hr)
                             (log ++ [{| method := HEAD; target := url; referer := ref |}]) IH)
        as (ok & m & l & -> & Hs); exact Hs.
  - destruct (get_step_inv (fun nxt => _validate_link env d nxt ref) url
                           (set_note (with_tried_head
                              {| tried_head := false; tried_get := false; final_url := url;
                                 status := None; ct := None; note := None |})
                              (u "head_err:" ++ exc_repr e))
                           (log ++ [{| method := HEAD; target := url; referer := ref |}]) IH)
      as (ok & m & l & -> & Hs); exact Hs.
Qed.
Lemma get_step_verdict recurse url meta log :
  verdict (get_step env recurse url ref meta log)
  = match server env log (get_request url ref) with
    | Raise _ => false
    | Ok gr =>
        ok_status 200 400 gr && _looks_like_ok_content env gr
        && match refresh_target env gr with
           | Raise _ => false
           | Ok None => true
           | Ok (Some nxt) => verdict (recurse nxt (log ++ [get_request url ref]))
           end
    end.
Proof.
  unfold get_step, send, refresh_target, verdict, get_request; cbv zeta.
  destruct (server env log _) as [gr|e]; [|reflexivity].
  destruct (ok_status 200 400 gr); [|reflexivity].
  destruct (_looks_like_ok_content env gr); [|reflexivity].
  destruct (is_html env gr); [|reflexivity].
  destruct (_follow_meta_refresh env _ _) as [[nxt|]|e]; try reflexivity.
  destruct (nonempty nxt && negb (str_eqb nxt (resp_url gr))); [|reflexivity].
  destruct (recurse nxt _) as [[[ok2 m2]|e] l2]; reflexivity.
Qed.

Lemma get_step_requests recurse url meta log n :
  (forall nxt l, exists new, snd (recurse nxt l) = l ++ new /\ (length new <= n)%nat) ->
  exists new, snd (get_step env recurse url ref meta log) = log ++ new
              /\ (length new <= S n)%nat.
Proof.
  intros Hrec; unfold get_step, send; cbv zeta.
  set (rq := {| method := GET; target := url; referer := ref |}).
  assert (One : exists new, log ++ [rq] = log ++ new /\ (length new <= S n)%nat)
    by (exists [rq]; split; [reflexivity|simpl; lia]).
  destruct (server env log rq) as [gr|e]; [|exact One].
  destruct (ok_status 200 400 gr && _looks_like_ok_content env gr); [|exact One].
  destruct (is_html env gr); [|exact One].
  destruct (_follow_meta_refresh env _ _) as [[nxt|]|e]; try exact One.
  destruct (nonempty nxt && negb (str_eqb nxt (resp_url gr))); [|exact One].
  destruct (Hrec nxt (log ++ [rq])) as (new & E & L).
  destruct (recurse nxt (log ++ [rq])) as [[[ok2 m2]|e] l2]; cbn [snd] in *; subst l2;
    exists (rq :: new); rewrite <- app_assoc; (split; [reflexivity|simpl; lia]).
Qed.

Lemma validate_requests d : forall url log,
  exists new, snd (_validate_link env d url ref log) = log ++ new
              /\ (length new <= 2 * d)%nat.
Proof.
  induction d as [|d IH]; intros url log.
  - exists []; rewrite app_nil_r; auto.
  - cbn [_validate_link]; unfold send.
    set (rq := {| method := HEAD; target := url; referer := ref |}).
    destruct (negb (nonempty url)).
    { exists []; rewrite app_nil_r; split; [reflexivity|simpl; lia]. }
    assert (G : forall meta, exists new,
                 snd (get_step env (fun nxt => _validate_link env d nxt ref) url ref meta
                               (log ++ [rq])) = log ++ new
                 /\ (length new <= 2 * S d)%nat).
    { intros meta.
      destruct (get_step_requests (fun nxt => _validate_link env d nxt ref) url meta
                                  (log ++ [rq]) (2 * d) (fun nxt l => IH nxt l))
        as (new & E & L).
      exists (rq :: new); rewrite E, <- app_assoc; split; [reflexivity|simpl; lia]. }
    destruct (server env log rq) as [hr|e]; [|apply G].
    destruct (ok_status 200 300 hr); [|apply G].
    exists [rq]; split; [reflexivity|simpl; lia].
Qed.

Lemma validate_verdict d url log :
  verdict (_validate_link env (S d) url ref log) = acceptance_rule env d url ref log.
Proof.
  unfold acceptance_rule, head_accepts; cbn [_validate_link]; unfold send.
  fold (head_request url ref).
  destruct (nonempty url); cbn [negb andb]; [|reflexivity].
  destruct (server env log (head_request url ref)) as [hr|e].
  - destruct (ok_status 200 300 hr); [reflexivity|].
    cbn [orb]; apply get_step_verdict.
  - cbn [orb]; apply get_step_verdict.
Qed.
End ValidatorFacts.

(** A call that the interpreter can enter returns a verdict with sound
    metadata. *)
Lemma validate_returns (env : Env) (depth : nat) (url ref : str) (log : list Request) :
  exists ok meta log',
    _validate_link env (S depth) url ref log = (Ok (ok, meta), log')
    /\ sound_meta ok meta.
Proof.
  pose proof (validate_inv env ref (S depth) url log) as Hinv.
  destruct (_validate_link env (S depth) url ref log) as [[[ok meta]|e] log'] eqn:E.
  2:{ exfalso. revert E. cbn [_validate_link]; unfold send.
      destruct (negb (nonempty url)); [discriminate|].
      destruct (server env log _) as [hr|e1].
      - destruct (ok_status 200 300 hr); [discriminate|].
        destruct (get_step_inv env ref (fun nxt => _validate_link env depth nxt ref) url
                    (update_from (with_tried_head
                       {| tried_head := false; tried_get := false; final_url := url;
                          status := None; ct := None; note := None |}) hr)
                    (log ++ [{| method := HEAD; target := url; referer := ref |}])
                    (validate_inv env ref depth))
          as (? & ? & ? & -> & _); discriminate.
      - destruct (get_step_inv env ref (fun nxt => _validate_link env depth nxt ref) url
                    (set_note (with_tried_head
                       {| tried_head := false; tried_get := false; final_url := url;
                          status := None; ct := None; note := None |})
                       (u "head_err:" ++ exc_repr e1))
                    (log ++ [{| method := HEAD; target := url; referer := ref |}])
                    (validate_inv env ref depth))
          as (? & ? & ? & -> & _); discriminate. }
  exists ok, meta, log'; split; [reflexivity|exact Hinv].
Qed.



(** C4, as stated, fails: the page at a.example answers GET with status 200
    and content type text/html, so the stated rule accepts it; its body is a
    meta-refresh to a host that does not answer, and [_validate_link]
    rejects. *)
Lemma substantive_get_rejected :
  let url := u "http://a.example/" in
  accept_as_specified dead_end_world url kh [] = true
  /\ verdict (_validate_link dead_end_world 5 url kh []) = false
  /\ verdict (_validate_link dead_end_world 5 url kh [])
     <> accept_as_specified dead_end_world url kh [].
Proof. vm_compute; repeat split; congruence. Qed.

(** C4, amended: an empty URL is rejected without a request.  Otherwise a
    2xx answer to HEAD is accepted at once; on any other outcome a GET is
    issued and the URL is rejected unless its status is in [200, 400) and
    the content looks substantive; such an answer is accepted, except that
    for an HTML body with a meta-refresh to another URL the verdict is the
    one of validating that URL (a rejection if following it raises). *)
Theorem validate_link_acceptance (env : Env) (depth : nat) (url ref : str)
        (log : list Request) :
  exists ok meta log',
    _validate_link env (S depth) url ref log = (Ok (ok, meta), log')
    /\ ok = acceptance_rule env depth url ref log
    /\ (head_accepts env url ref log = true -> nonempty url = true ->
        log' = log ++ [head_request url ref]).
Proof.
  destruct (validate_returns env depth url ref log) as (ok & meta & log' & E & _).
  exists ok, meta, log'; split; [exact E|split].
  - rewrite <- validate_verdict; unfold verdict; now rewrite E.
  - revert E; unfold head_accepts, head_request; cbn [_validate_link]; unfold send.
    intros E Hh Hu; rewrite Hu in E; cbn [negb] in E.
    destruct (server env log _) as [hr|e]; [|discriminate].
    rewrite Hh in E; now inversion E.
Qed.

Lemma validate_link_acceptance_witness :
  exists meta,
    _validate_link chain_world 1 (u "http://c.example/f.pdf") kh []
    = (Ok (true, meta), [head_request (u "http://c.example/f.pdf") kh]).
Proof.
  destruct (validate_link_acceptance chain_world 0 (u "http://c.example/f.pdf") kh [])
    as (ok & meta & log' & E & A & L).
  exists meta. rewrite E, A, L; reflexivity.
Defined.

(** C6, as stated, fails: validating a.example follows the refresh to
    b.example and then the refresh from there to c.example: two hops and
    five requests, where a single extra hop would stop at b.example after
    at most four. *)
Lemma two_hops_followed :
  let r := _validate_link chain_world 5 (u "http://a.example/") kh [] in
  map (fun rq => (method rq, target rq)) (snd r)
  = [ (HEAD, u "http://a.example/"); (GET, u "http://a.example/");
      (HEAD, u "http://b.example/"); (GET, u "http://b.example/");
      (HEAD, u "http://c.example/f.pdf") ]
  /\ verdict r = true
  /\ match fst r with Ok (_, m) => final_url m = u "http://c.example/f.pdf" | _ => False end.
Proof. vm_compute; repeat split; reflexivity. Qed.

(** C6, amended: the recursion has no hop bound of its own.  It ends for
    every input because every hop costs one nested call and the
    interpreter allows only so many: a call with [depth] nested activations
    left returns after at most two requests per activation, without
    raising. *)
Theorem validate_link_terminates (env : Env) (depth : nat) (url ref : str)
        (log : list Request) :
  exists ok meta new,
    _validate_link env (S depth) url ref log = (Ok (ok, meta), log ++ new)
    /\ (length new <= 2 * S depth)%nat.
Proof.
  destruct (validate_returns env depth url ref log) as (ok & meta & log' & E & _).
  destruct (validate_requests env ref (S depth) url log) as (new & En & L).
  rewrite E in En; cbn [snd] in En; subst log'.
  now exists ok, meta, new.
Qed.

(** On a cycle the nesting is cut by the recursion limit only: with [depth]
    activations allowed, [2 * depth] requests are sent before the innermost
    failure turns the verdict into a rejection. *)
Lemma cycle_step (a b : String.string) rec meta log :
  (a, b) = ("http://a.example/", "http://b.example/")%string
  \/ (a, b) = ("http://b.example/", "http://a.example/")%string ->
  get_step cycle_world rec (u a) kh meta log
  = match rec (u b) (log ++ [get_request (u a) kh]) with
    | (Ok (ok2, m2), l) =>
        (Ok (ok2, after_refresh (update_from (with_tried_get meta) (refresh_to a b)) m2 (u b)), l)
    | (Raise e, l) =>
        (Ok (false, set_note (update_from (with_tried_get meta) (refresh_to a b))
                             (u "get_err:" ++ exc_repr e)), l)
    end.
Proof. intros [E|E]; inversion E; subst; reflexivity. Qed.

Lemma cycle_runs_to_the_limit depth : forall (a b : String.string) log,
  (a, b) = ("http://a.example/", "http://b.example/")%string
  \/ (a, b) = ("http://b.example/", "http://a.example/")%string ->
  let r := _validate_link cycle_world depth (u a) kh log in
  verdict r = false /\ length (snd r) = (length log + 2 * depth)%nat.
Proof.
  induction depth as [|d IH]; intros a b log Hab; [simpl; split; [reflexivity|lia]|].
  assert (Hba : (b, a) = ("http://a.example/", "http://b.example/")%string
                \/ (b, a) = ("http://b.example/", "http://a.example/")%string)
    by (destruct Hab as [E|E]; inversion E; auto).
  assert (Hhead : _validate_link cycle_world (S d) (u a) kh log
                  = get_step cycle_world (fun nxt => _validate_link cycle_world d nxt kh)
                             (u a) kh
                             (set_note (with_tried_head
                                {| tried_head := false; tried_get := false; final_url := u a;
                                   status := None; ct := None; note := None |})
                                (u "head_err:" ++ exc_repr ConnectionError))
                             (log ++ [head_request (u a) kh]))
    by (destruct Hab as [E|E]; inversion E; subst; reflexivity).
  cbv zeta; rewrite Hhead, (cycle_step _ _ _ _ _ Hab).
  specialize (IH b a ((log ++ [head_request (u a) kh]) ++ [get_request (u a) kh]) Hba).
  cbv zeta in IH; destruct IH as [V L].
  destruct (_validate_link cycle_world d (u b) kh _) as [[[ok2 m2]|e] l]; cbn [snd] in *;
    unfold verdict in *; cbn [fst] in *; (split; [auto|]);
    rewrite L, !length_app; simpl; lia.
Qed.

(** ** The refresh flags *)

(** C9, as stated, fails: a POST to /refresh followed by a POST to
    /refresh/notices starts two jobs, both running [run_collection], because
    each endpoint tests its own flag only. *)
Lemma two_refresh_runs_in_flight :
  let s := WebApp.after [WebApp.Post WebApp.All; WebApp.Post WebApp.Notices] in
  WebApp.running s = [WebApp.Notices; WebApp.All]
  /\ WebApp.runs_of s WebApp.run_collection = 2%nat
  /\ ~ (length (WebApp.running s) <= 1)%nat.
Proof. vm_compute; repeat split; try reflexivity; lia. Qed.

Section RefreshFacts.
Import WebApp.

Lemma in_flight_remove e x l :
  length (filter (endpoint_eqb e) (remove_one x l))
  = if endpoint_eqb e x && existsb (endpoint_eqb x) l
    then pred (length (filter (endpoint_eqb e) l))
    else length (filter (endpoint_eqb e) l).
Proof.
  induction l as [|y l IH]; simpl.
  - now rewrite andb_false_r.
  - destruct e, x, y; simpl in *; try reflexivity; try exact IH;
      rewrite IH; simpl; try reflexivity;
      destruct (existsb _ l); simpl; try reflexivity.
    all: destruct (filter _ l); reflexivity.
Qed.

Lemma step_guarded s ev : guarded s -> guarded (step s ev).
Proof.
  intros G e; destruct ev as [x|x]; simpl.
  - unfold refresh; destruct (flags s x) eqn:F; [apply G|].
    unfold in_flight, set_flag; simpl.
    specialize (G e); unfold in_flight in G.
    destruct (endpoint_eqb e x) eqn:E.
    + assert (e = x) by (destruct e, x; simpl in E; congruence); subst.
      rewrite F in G. simpl; now rewrite G.
    + exact G.
  - unfold job_done; destruct (existsb (endpoint_eqb x) (running s)) eqn:X; [|apply G].
    unfold in_flight, set_flag; simpl; rewrite in_flight_remove, X, andb_true_r.
    specialize (G e); unfold in_flight in G.
    destruct (endpoint_eqb e x) eqn:E; [|exact G].
    rewrite G; now destruct (flags s e).
Qed.

Lemma after_guarded history : guarded (after history).
Proof.
  unfold after.
  assert (H : forall s, guarded s -> guarded (fold_left step history s)).
  { induction history as [|ev h IH]; simpl; auto using step_guarded. }
  apply H; intros e; reflexivity.
Qed.
End RefreshFacts.

(** C9, amended: the guard is per endpoint.  After any history of requests
    and job completions (request handlers running one at a time), each
    endpoint has at most one job in flight, its flag is set exactly while
    that job is in flight, and a further POST to an endpoint whose job is in
    flight changes nothing: it starts no job.  Jobs started through
    different endpoints are not excluded from one another. *)
Theorem refresh_guard_per_endpoint (history : list WebApp.Event) (e : WebApp.Endpoint) :
  let s := WebApp.after history in
  (WebApp.in_flight s e <= 1)%nat
  /\ (WebApp.flags s e = true <-> WebApp.in_flight s e = 1%nat)
  /\ (WebApp.in_flight s e = 1%nat ->
      WebApp.after (history ++ [WebApp.Post e]) = s).
Proof.
  intros s; pose proof (after_guarded history e) as G; fold s in G.
  split; [rewrite G; destruct (WebApp.flags s e); lia|].
  split; [rewrite G; destruct (WebApp.flags s e); split; congruence|].
  intros H; unfold WebApp.after; rewrite fold_left_app; simpl.
  fold (WebApp.after history); fold s; unfold WebApp.refresh.
  rewrite G in H; destruct (WebApp.flags s e); [reflexivity|discriminate].
Qed.

Lemma refresh_guard_per_endpoint_witness :
  let h := [WebApp.Post WebApp.All; WebApp.Post WebApp.Events] in
  WebApp.in_flight (WebApp.after h) WebApp.All = 1%nat
  /\ WebApp.after (h ++ [WebApp.Post WebApp.All]) = WebApp.after h.
Proof.
  intros h; split; [reflexivity|].
  apply (refresh_guard_per_endpoint h WebApp.All); reflexivity.
Defined.

(** ** The sort of [collect] *)

Lemma local_in_range off t :
  (min_seconds <= t + off < max_seconds)%Z -> local (fun _ => off) t = Ok (t + off)%Z.
Proof.
  intros [A B]; unfold local.
  apply Z.leb_le in A; apply Z.ltb_lt in B; now rewrite A, B.
Qed.

Lemma local_before_min off t :
  (t + off < min_seconds)%Z -> local (fun _ => off) t = Raise YearOutOfRange.
Proof.
  intros A; unfold local.
  apply Z.leb_gt in A; now rewrite A.
Qed.

Lemma local_after_max off t :
  (max_seconds <= t + off)%Z -> local (fun _ => off) t = Raise YearOutOfRange.
Proof.
  intros A; unfold local.
  apply Z.ltb_ge in A; now rewrite A, andb_false_r.
Qed.

(** [datetime.min.timestamp()] raises in every time zone of constant
    offset: west of Greenwich the local reading of the instant is already
    in year 0, elsewhere the probe one day earlier is. *)
Lemma timestamp_of_min_raises (off : Z) :
  timestamp (fun _ => off) datetime_min = Raise YearOutOfRange.
Proof.
  unfold timestamp, _mktime.
  change (to_seconds datetime_min) with 86400%Z.
  assert (M : min_seconds = 86400%Z) by reflexivity.
  destruct (Z_lt_ge_dec (86400 + off) min_seconds) as [L|G].
  { now rewrite local_before_min. }
  destruct (Z_lt_ge_dec (86400 + off) max_seconds) as [L2|G2].
  2:{ rewrite local_after_max by lia; reflexivity. }
  rewrite (local_in_range off 86400) by lia.
  rewrite (local_in_range off) by lia.
  replace (86400 - (86400 + off - 86400) + off =? 86400)%Z with true
    by (symmetry; apply Z.eqb_eq; lia).
  rewrite local_before_min by lia; reflexivity.
Qed.

Lemma local_raises_only tz t e : local tz t = Raise e -> e = YearOutOfRange.
Proof. unfold local; destruct (_ && _); congruence. Qed.

Lemma timestamp_raises_only tz dt e : timestamp tz dt = Raise e -> e = YearOutOfRange.
Proof.
  unfold timestamp, _mktime.
  repeat match goal with
         | |- context [local tz ?t] =>
             let E := fresh "E" in
             destruct (local tz t) eqn:E; [|apply local_raises_only in E; subst]
         | |- context [if ?b then _ else _] => destruct b
         end; congruence.
Qed.

Section SortFacts.
Import Main.
Variable rt : Runtime.
Variable tz : Z -> Z.

Lemma sort_key_raises_only x e : sort_key rt tz x = Raise e -> e = YearOutOfRange.
Proof.
  unfold sort_key; destruct (timestamp tz _) eqn:E; [discriminate|].
  apply timestamp_raises_only in E; congruence.
Qed.

Lemma keyed_raises x items :
  In x items -> sort_key rt tz x = Raise YearOutOfRange ->
  keyed rt tz items = Raise YearOutOfRange.
Proof.
  induction items as [|y items IH]; simpl; [tauto|].
  intros [->|Hin] Hx.
  - now rewrite Hx.
  - destruct (sort_key rt tz y) eqn:Ey.
    + now rewrite IH.
    + apply sort_key_raises_only in Ey; now subst.
Qed.
End SortFacts.

(** C2 on the code: whenever the list holds an item whose date is absent or
    does not parse, so that [_parse_date_for_sort] answers [datetime.min],
    the key function raises [ValueError] on that item and the sort of
    [collect] fails, whatever the (constant) offset of the time zone. *)
Theorem collect_sort_fails_without_date
        (rt : Runtime) (off : Z) (items : list Main.Item) (x : Main.Item) :
  In x items ->
  Main._parse_date_for_sort rt (Main.date x) = datetime_min ->
  Main.collect_sort rt (fun _ => off) items = Raise YearOutOfRange.
Proof.
  intros Hin Hmin; unfold Main.collect_sort.
  rewrite (@keyed_raises rt (fun _ => off) x items Hin); [reflexivity|].
  unfold Main.sort_key; now rewrite Hmin, timestamp_of_min_raises.
Qed.

(** The example of the specification (scores 5, 5, 3; the third item has no
    date) in the time zone of Seoul, nine hours east of UTC. *)
Lemma collect_sort_fails_without_date_witness :
  Main.collect_sort rt0 (fun _ => 32400%Z) Main.spec_example = Raise YearOutOfRange.
Proof.
  apply (@collect_sort_fails_without_date rt0 32400 Main.spec_example
           {| Main.title := u "c"; Main.date := None; Main.score := 3 |}).
  - simpl; auto.
  - reflexivity.
Defined.

(** With the third item dated, the same list is sorted as the
    specification describes. *)
Lemma collect_sort_dated_example :
  let c := {| Main.title := u "c"; Main.date := Some (u "2025-03-10 09:30"); Main.score := 5 |} in
  let a := {| Main.title := u "a"; Main.date := Some (u "2025-01-01"); Main.score := 5 |} in
  let b := {| Main.title := u "b"; Main.date := Some (u "2024-01-01"); Main.score := 7 |} in
  Main.collect_sort rt0 (fun _ => 32400%Z) [a; b; c] = Ok [b; c; a].
Proof. vm_compute; reflexivity. Qed.


(** ** Soundness and completeness of the matcher *)

Lemma star_greedy_sound {A : Type} p s (k : str -> option A) a :
  star_greedy p s k = Some a ->
  exists w s', s = w ++ s' /\ forallb p w = true /\ k s' = Some a.
Proof.
  induction s as [|x s IH]; simpl; intros H.
  - exists [], []; auto.
  - destruct (p x) eqn:Px.
    + apply orelse_Some in H as [H|H].
      * destruct (IH H) as (w & s' & -> & Hw & Hk).
        exists (x :: w), s'; simpl; rewrite Px; auto.
      * exists [], (x :: s); auto.
    + exists [], (x :: s); auto.
Qed.

Lemma star_greedy_complete {A : Type} p w s' (k : str -> option A) a :
  forallb p w = true -> k s' = Some a -> exists a', star_greedy p (w ++ s') k = Some a'.
Proof.
  induction w as [|x w IH]; simpl; intros Hw Hk.
  - destruct s' as [|y s']; simpl; [eauto|].
    destruct (p y); [|eauto].
    destruct (star_greedy p s' k); simpl; eauto.
  - apply andb_true_iff in Hw as [Px Hw]; rewrite Px.
    destruct (IH Hw Hk) as (a' & ->); simpl; eauto.
Qed.

Section MatcherSemantics.
Variable fold : char -> char.

Lemma rmatch_sound r : forall (A : Type) s cs (k : str -> list str -> option A) a,
  rmatch fold r s cs k = Some a ->
  exists s' cs', denote fold r s cs s' cs' /\ k s' cs' = Some a.
Proof.
  induction r; intros A s cs k res H; simpl in H.
  - exists s, cs; simpl; auto.
  - destruct s as [|x s]; [discriminate|].
    destruct (fold x =? fold c)%N eqn:E; [|discriminate].
    apply N.eqb_eq in E. exists s, cs; simpl; eauto.
  - destruct s as [|x s]; [discriminate|].
    destruct (p x) eqn:E; [|discriminate].
    exists s, cs; simpl; eauto.
  - apply IHr1 in H as (s1 & cs1 & D1 & H).
    apply IHr2 in H as (s2 & cs2 & D2 & H).
    exists s2, cs2; simpl; eauto.
  - apply orelse_Some in H as [H|H];
      [apply IHr1 in H|apply IHr2 in H];
      destruct H as (s1 & cs1 & D & H); exists s1, cs1; simpl; auto.
  - apply star_greedy_sound in H as (w & s' & -> & Hw & H).
    exists s', cs; simpl; eauto.
  - apply orelse_Some in H as [H|H].
    + apply IHr in H as (s1 & cs1 & D & H). exists s1, cs1; simpl; auto.
    + exists s, cs; simpl; auto.
  - apply IHr in H as (s1 & cs1 & D & H).
    exists s1, (cs1 ++ [consumed s s1]); simpl; eauto.
  - destruct (rmatch fold r s cs (fun _ _ => Some tt)); [discriminate|].
    exists s, cs; simpl; auto.
  - destruct (at_end s) eqn:E; [|discriminate].
    exists s, cs; simpl; auto.
Qed.

Lemma rmatch_complete r : plain r = true ->
  forall (A : Type) s cs s' cs' (k : str -> list str -> option A) a,
    denote fold r s cs s' cs' -> k s' cs' = Some a ->
    exists a', rmatch fold r s cs k = Some a'.
Proof.
  induction r; intros Hp A s cs s' cs' k res D Hk; simpl in *; try discriminate.
  - destruct D as [-> ->]; eauto.
  - destruct D as (x & -> & E & ->). apply N.eqb_eq in E; rewrite E; eauto.
  - destruct D as (x & -> & E & ->). rewrite E; eauto.
  - apply andb_true_iff in Hp as [P1 P2].
    destruct D as (s1 & cs1 & D1 & D2).
    destruct (IHr2 P2 _ _ _ _ _ _ _ D2 Hk) as (a2 & H2).
    exact (IHr1 P1 _ _ _ _ _ _ _ D1 H2).
  - apply andb_true_iff in Hp as [P1 P2].
    destruct D as [D|D].
    + destruct (IHr1 P1 _ _ _ _ _ _ _ D Hk) as (a1 & ->); simpl; eauto.
    + destruct (IHr2 P2 _ _ _ _ _ _ _ D Hk) as (a2 & H2).
      destruct (rmatch fold r1 s cs k); simpl; eauto.
  - destruct D as (w & -> & Hw & ->).
    exact (star_greedy_complete p w s' (fun s0 => k s0 cs) res Hw Hk).
  - destruct D as [D|[-> ->]].
    + destruct (IHr Hp _ _ _ _ _ _ _ D Hk) as (a1 & ->); simpl; eauto.
    + destruct (rmatch fold r s cs k); simpl; eauto.
  - destruct D as (cs1 & D & ->).
    exact (IHr Hp _ _ _ _ _ (fun s0 c0 => k s0 (c0 ++ [consumed s s0])) _ D Hk).
Qed.

(** What is consumed is a prefix of the input. *)
Lemma denote_suffix r : forall s cs s' cs',
  denote fold r s cs s' cs' -> exists pre, s = pre ++ s'.
Proof.
  induction r; simpl; intros s cs s' cs' D.
  - destruct D as [-> _]; now exists [].
  - destruct D as (x & -> & _); now exists [x].
  - destruct D as (x & -> & _); now exists [x].
  - destruct D as (s1 & cs1 & D1 & D2).
    apply IHr1 in D1 as (p1 & ->); apply IHr2 in D2 as (p2 & ->).
    exists (p1 ++ p2); now rewrite app_assoc.
  - destruct D as [D|D]; eauto.
  - destruct D as (w & -> & _); eauto.
  - destruct D as [D|[-> _]]; [eauto|now exists []].
  - destruct D as (cs1 & D & _); eauto.
  - destruct D as [-> _]; now exists [].
  - destruct D as [-> _]; now exists [].
Qed.

Lemma match_at_sound r s s' cs :
  match_at fold r s = Some (s', cs) -> denote fold r s [] s' cs.
Proof.
  unfold match_at; intros H.
  apply rmatch_sound in H as (s1 & cs1 & D & E); now inversion E; subst.
Qed.

Lemma match_at_complete r s s' cs :
  plain r = true -> denote fold r s [] s' cs -> match_at fold r s <> None.
Proof.
  unfold match_at; intros Hp D.
  destruct (@rmatch_complete r Hp (str * list str) s [] s' cs
              (fun s0 c0 => Some (s0, c0)) (s', cs) D eq_refl) as (a & ->).
  discriminate.
Qed.

(** A successful search found its match at some position of the text. *)
Lemma search_sound r s m :
  search fold r s = Some m ->
  exists pre t s', s = pre ++ t /\ denote fold r t [] s' (groups m)
                   /\ group0 m = consumed t s'.
Proof.
  induction s as [|x s IH]; simpl.
  - destruct (match_at fold r []) as [[s' cs]|] eqn:E; [|discriminate].
    intros H; inversion H; subst; simpl.
    exists [], [], s'; auto using match_at_sound.
  - destruct (match_at fold r (x :: s)) as [[s' cs]|] eqn:E.
    + intros H; inversion H; subst; simpl.
      exists [], (x :: s), s'; auto using match_at_sound.
    + intros H; apply IH in H as (pre & t & s' & -> & D & G).
      exists (x :: pre), t, s'; auto.
Qed.

(** A match at some position makes the search succeed. *)
Lemma search_complete r pre t s' cs :
  plain r = true -> denote fold r t [] s' cs -> search fold r (pre ++ t) <> None.
Proof.
  intros Hp D; induction pre as [|x pre IH]; simpl.
  - pose proof (match_at_complete r t s' cs Hp D) as M.
    destruct t; simpl; destruct (match_at fold r _) as [[? ?]|]; congruence.
  - destruct (match_at fold r (x :: pre ++ t)) as [[? ?]|]; [discriminate|exact IH].
Qed.
End MatcherSemantics.

(** ** Dates: digits and padding *)

Lemma consumed_app (pre s : str) : consumed (pre ++ s) s = pre.
Proof.
  unfold consumed; rewrite length_app.
  replace (length pre + length s - length s)%nat with (length pre) by lia.
  rewrite firstn_app, Nat.sub_diag, firstn_all; simpl; apply app_nil_r.
Qed.

Lemma is_digit_range c : is_digit c = true <-> (48 <= c <= 57)%N.
Proof.
  unfold is_digit; rewrite andb_true_iff, !N.leb_le; tauto.
Qed.

Lemma is_digit_not_space c : is_digit c = true -> is_space c = false.
Proof.
  intros H; apply is_digit_range in H.
  assert (E : (c = 48 \/ c = 49 \/ c = 50 \/ c = 51 \/ c = 52 \/ c = 53 \/ c = 54
               \/ c = 55 \/ c = 56 \/ c = 57)%N) by lia.
  repeat destruct E as [->|E]; try subst c; reflexivity.
Qed.

Lemma decimal_not_space rt c : is_decimal rt c = true -> is_space c = false.
Proof.
  unfold is_decimal; intros H; apply orb_true_iff in H as [H|H].
  - now apply is_digit_not_space.
  - apply andb_true_iff in H as [H _]; now destruct (is_space c).
Qed.

Lemma run_value_lt c runs : (run_value c runs < 10)%N.
Proof.
  induction runs as [|z runs IH]; simpl; [lia|].
  unfold in_run; destruct ((z <=? c) && (c <? z + 10))%N eqn:E; [|exact IH].
  apply andb_true_iff in E as [A B]; apply N.leb_le in A; apply N.ltb_lt in B; lia.
Qed.

Lemma digit_value_lt rt c : (digit_value rt c < 10)%N.
Proof.
  unfold digit_value; destruct (is_digit c) eqn:E; [|apply run_value_lt].
  apply is_digit_range in E; lia.
Qed.

Lemma digits_value_bound rt s : forall acc,
  (digits_value rt s acc < (acc + 1) * 10 ^ N.of_nat (length s))%N.
Proof.
  induction s as [|c s IH]; intros acc; simpl digits_value.
  - simpl; lia.
  - pose proof (digit_value_lt rt c) as D.
    specialize (IH (10 * acc + digit_value rt c)%N).
    replace (N.of_nat (length (c :: s))) with (N.succ (N.of_nat (length s)))
      by (simpl length; lia).
    rewrite N.pow_succ_r'.
    eapply N.lt_le_trans; [exact IH|].
    rewrite (N.mul_comm 10), N.mul_assoc.
    apply N.mul_le_mono_r; lia.
Qed.

Lemma int_of_digits_value rt g :
  g <> [] -> forallb (is_decimal rt) g = true ->
  int_of_digits rt g = Some (digits_value rt g 0).
Proof.
  intros Hne Hd; unfold int_of_digits.
  destruct g as [|c g]; [congruence|].
  simpl in Hd; apply andb_true_iff in Hd as [Hc Hg].
  simpl lstrip; rewrite (decimal_not_space rt c Hc).
  simpl forallb; now rewrite Hc, Hg.
Qed.

Lemma below_in_seq (k n : N) :
  (n < k)%N -> In n (map N.of_nat (seq 0 (N.to_nat k))).
Proof.
  intros H; apply in_map_iff; exists (N.to_nat n); split; [apply N2Nat.id|].
  apply in_seq; lia.
Qed.

Lemma padded_4 n : (n < 10000)%N -> padded 4 n = true.
Proof.
  intros H.
  assert (All : forallb (padded 4) (map N.of_nat (seq 0 (N.to_nat 10000))) = true)
    by (vm_compute; reflexivity).
  rewrite forallb_forall in All; apply All, (below_in_seq 10000); exact H.
Qed.

Lemma padded_2 n : (n < 100)%N -> padded 2 n = true.
Proof.
  intros H.
  assert (All : forallb (padded 2) (map N.of_nat (seq 0 (N.to_nat 100))) = true)
    by (vm_compute; reflexivity).
  rewrite forallb_forall in All; apply All, (below_in_seq 100); exact H.
Qed.

Lemma is_ymd_of_padded (y m d : N) :
  padded 4 y = true -> padded 2 m = true -> padded 2 d = true ->
  is_ymd (zero_pad 4 y ++ u "-" ++ zero_pad 2 m ++ u "-" ++ zero_pad 2 d) = true.
Proof.
  unfold padded; intros Hy Hm Hd.
  apply andb_true_iff in Hy as [Ly Dy], Hm as [Lm Dm], Hd as [Ld Dd].
  apply Nat.eqb_eq in Ly, Lm, Ld.
  destruct (zero_pad 4 y) as [|y1 [|y2 [|y3 [|y4 [|? ?]]]]]; try discriminate.
  destruct (zero_pad 2 m) as [|m1 [|m2 [|? ?]]]; try discriminate.
  destruct (zero_pad 2 d) as [|d1 [|d2 [|? ?]]]; try discriminate.
  simpl in *.
  repeat match goal with
         | H : _ && _ = true |- _ => apply andb_true_iff in H as [? ?]
         end.
  repeat (apply andb_true_iff; split); auto.
  all: unfold is_digit in *;
    repeat match goal with
           | H : _ && _ = true |- _ => apply andb_true_iff in H as [? ?]
           end; assumption.
Qed.

(** ** Dates: what the patterns of [_norm_date] capture *)

Section DateFacts.
Variable env : Env.
Local Abbreviation dec := (is_decimal (rt env)).
Local Abbreviation idf := (fun c : char => c).
Local Abbreviation digit_run := (digit_run (rt env)).

Lemma denote_d4 s cs s' cs' :
  denote idf (d4 env) s cs s' cs' ->
  exists g, s = g ++ s' /\ digit_run 4 4 g /\ cs' = cs.
Proof.
  simpl; intros (s1 & c1 & (x1 & -> & H1 & ->) & s2 & c2 & (x2 & -> & H2 & ->)
                 & s3 & c3 & (x3 & -> & H3 & ->) & x4 & -> & H4 & ->).
  exists [x1; x2; x3; x4]; repeat split; simpl; try lia.
  now rewrite H1, H2, H3, H4.
Qed.

Lemma denote_d12 s cs s' cs' :
  denote idf (d12 env) s cs s' cs' ->
  exists g, s = g ++ s' /\ digit_run 1 2 g /\ cs' = cs.
Proof.
  simpl; intros (s1 & c1 & (x1 & -> & H1 & ->) & [(x2 & -> & H2 & ->)|[-> ->]]).
  - exists [x1; x2]; repeat split; simpl; try lia. now rewrite H1, H2.
  - exists [x1]; repeat split; simpl; try lia. now rewrite H1.
Qed.

Lemma denote_group_d4 s cs s' cs' :
  denote idf (Group (d4 env)) s cs s' cs' ->
  exists g, s = g ++ s' /\ digit_run 4 4 g /\ cs' = cs ++ [g].
Proof.
  intros (c1 & D & ->); apply denote_d4 in D as (g & -> & R & ->).
  exists g; rewrite consumed_app; auto.
Qed.

Lemma denote_group_d12 s cs s' cs' :
  denote idf (Group (d12 env)) s cs s' cs' ->
  exists g, s = g ++ s' /\ digit_run 1 2 g /\ cs' = cs ++ [g].
Proof.
  intros (c1 & D & ->); apply denote_d12 in D as (g & -> & R & ->).
  exists g; rewrite consumed_app; auto.
Qed.

Lemma korean_groups t s' cs :
  denote idf (re_korean env) t [] s' cs ->
  exists g1 g2 g3, cs = [g1; g2; g3]
                   /\ digit_run 4 4 g1 /\ digit_run 1 2 g2 /\ digit_run 1 2 g3.
Proof.
  unfold re_korean.
  intros (s1 & c1 & G1 & s2 & c2 & (w2 & _ & _ & ->) & s3 & c3 & (x3 & _ & _ & ->)
          & s4 & c4 & (w4 & _ & _ & ->) & s5 & c5 & G2
          & s6 & c6 & (w6 & _ & _ & ->) & s7 & c7 & (x7 & _ & _ & ->)
          & s8 & c8 & (w8 & _ & _ & ->) & s9 & c9 & G3
          & s10 & c10 & (w10 & _ & _ & ->) & x11 & _ & _ & ->).
  apply denote_group_d4 in G1 as (g1 & _ & R1 & ->).
  apply denote_group_d12 in G2 as (g2 & _ & R2 & ->).
  apply denote_group_d12 in G3 as (g3 & _ & R3 & ->).
  exists g1, g2, g3; auto.
Qed.

Lemma separated_groups t s' cs :
  denote idf (re_separated env) t [] s' cs ->
  exists g1 g2 g3, cs = [g1; g2; g3]
                   /\ digit_run 4 4 g1 /\ digit_run 1 2 g2 /\ digit_run 1 2 g3.
Proof.
  unfold re_separated.
  intros (s1 & c1 & G1 & s2 & c2 & (w2 & _ & _ & ->) & s3 & c3 & (x3 & _ & _ & ->)
          & s4 & c4 & (w4 & _ & _ & ->) & s5 & c5 & G2
          & s6 & c6 & (w6 & _ & _ & ->) & s7 & c7 & (x7 & _ & _ & ->)
          & s8 & c8 & (w8 & _ & _ & ->) & G3).
  apply denote_group_d4 in G1 as (g1 & _ & R1 & ->).
  apply denote_group_d12 in G2 as (g2 & _ & R2 & ->).
  apply denote_group_d12 in G3 as (g3 & _ & R3 & ->).
  exists g1, g2, g3; auto.
Qed.

Lemma digit_run_int lo hi g :
  (1 <= lo)%nat -> digit_run lo hi g ->
  exists n, int_of_digits (rt env) g = Some n /\ (n < 10 ^ N.of_nat hi)%N.
Proof.
  intros Hlo [[L1 L2] D].
  exists (digits_value (rt env) g 0); split.
  - apply int_of_digits_value; auto. destruct g; simpl in *; [lia|discriminate].
  - eapply N.lt_le_trans; [apply digits_value_bound|].
    rewrite N.mul_1_l. apply N.pow_le_mono_r; lia.
Qed.

(** Three captured digit runs always format, and into the shape
    YYYY-MM-DD. *)
Lemma format_ymd_runs g1 g2 g3 :
  digit_run 4 4 g1 -> digit_run 1 2 g2 -> digit_run 1 2 g3 ->
  exists out, format_ymd env [g1; g2; g3] = Ok out /\ is_ymd out = true.
Proof.
  intros R1 R2 R3; unfold format_ymd.
  apply digit_run_int in R1 as (y & -> & By); [|lia].
  apply digit_run_int in R2 as (m & -> & Bm); [|lia].
  apply digit_run_int in R3 as (d & -> & Bd); [|lia].
  change (10 ^ N.of_nat 4)%N with 10000%N in By.
  change (10 ^ N.of_nat 2)%N with 100%N in Bm, Bd.
  eexists; split; [reflexivity|].
  apply is_ymd_of_padded; auto using padded_4, padded_2.
Qed.
Lemma mk_group (r : regex) g s cs :
  denote idf r (g ++ s) cs s cs -> denote idf (Group r) (g ++ s) cs s (cs ++ [g]).
Proof. intros D; exists cs; now rewrite consumed_app. Qed.

Lemma mk_d4 g s cs :
  digit_run 4 4 g -> denote idf (Group (d4 env)) (g ++ s) cs s (cs ++ [g]).
Proof.
  intros [[L1 L2] D]; apply mk_group.
  destruct g as [|a [|b [|c [|d [|? ?]]]]]; simpl in L1, L2; try lia.
  simpl in D. repeat (apply andb_true_iff in D as [? D]).
  simpl; eexists _, _; split; [eauto|].
  eexists _, _; split; [eauto|]. eexists _, _; split; eauto.
Qed.

Lemma mk_d12 g s cs :
  digit_run 1 2 g -> denote idf (Group (d12 env)) (g ++ s) cs s (cs ++ [g]).
Proof.
  intros [[L1 L2] D]; apply mk_group.
  destruct g as [|a [|b [|? ?]]]; simpl in L1, L2; try lia;
    simpl in D; repeat (apply andb_true_iff in D as [? D]);
    simpl; eexists _, _; split; eauto.
Qed.

Lemma dated_separated t :
  dated (rt env) t -> exists s' cs, denote idf (re_separated env) t [] s' cs.
Proof.
  intros (g1 & x & g2 & y & w & g3 & rest & -> & R1 & X & R2 & Y & W & R3).
  exists rest, [g1; g2; g3]; unfold re_separated.
  eexists _, _; split; [apply (mk_d4 g1 _ []); exact R1|].
  eexists _, _; split; [exists []; simpl; eauto|].
  eexists _, _; split; [exists x; eauto|].
  eexists _, _; split; [exists []; simpl; eauto|].
  eexists _, _; split; [apply (mk_d12 g2 _ [g1]); exact R2|].
  eexists _, _; split; [exists []; simpl; eauto|].
  eexists _, _; split; [exists y; eauto|].
  eexists _, _; split; [exists w; eauto|].
  apply (mk_d12 g3 rest [g1; g2]); exact R3.
Qed.

Lemma dated_app t tail : dated (rt env) t -> dated (rt env) (t ++ tail).
Proof.
  intros (g1 & x & g2 & y & w & g3 & rest & -> & H).
  exists g1, x, g2, y, w, g3, (rest ++ tail); split; [|exact H].
  now repeat (rewrite <- ?app_assoc, <- ?app_comm_cons).
Qed.

Lemma dated_found pre t :
  dated (rt env) t -> search idf (re_separated env) (pre ++ t) <> None.
Proof.
  intros D; apply dated_separated in D as (s' & cs & D).
  now apply (search_complete idf (re_separated env) pre t s' cs).
Qed.

Lemma iso_dated t cs s' cs' : denote idf (re_iso env) t cs s' cs' -> dated (rt env) t.
Proof.
  unfold re_iso; intros (c0 & (s1 & c1 & D1 & s2 & c2 & (x & -> & X & ->)
                               & s3 & c3 & D2 & s4 & c4 & (y & -> & Y & ->) & D3) & _).
  apply denote_d4 in D1 as (g1 & -> & R1 & _).
  apply denote_d12 in D2 as (g2 & -> & R2 & _).
  apply denote_d12 in D3 as (g3 & -> & R3 & _).
  simpl in X, Y; subst x y.
  exists g1, 45%N, g2, 45%N, [], g3, s'; split; [reflexivity|]; auto 10.
Qed.

Lemma digit_decimal c : is_digit c = true -> dec c = true.
Proof. unfold is_decimal; now intros ->. Qed.

Lemma range_decimal lo hi c :
  (48 <= lo)%N -> (hi <= 57)%N -> ((lo <=? c) && (c <=? hi))%N = true -> dec c = true.
Proof.
  intros A B H; apply digit_decimal, is_digit_range.
  apply andb_true_iff in H as [H1 H2]; apply N.leb_le in H1, H2; lia.
Qed.

Lemma lit_decimal (c x : char) : is_digit c = true -> x = c -> dec x = true.
Proof. intros H ->; now apply digit_decimal. Qed.

Lemma run1 a : dec a = true -> digit_run 1 2 [a].
Proof. intros H; split; simpl; [lia|now rewrite H]. Qed.

Lemma run2 a b : dec a = true -> dec b = true -> digit_run 1 2 [a; b].
Proof. intros H1 H2; split; simpl; [lia|now rewrite H1, H2]. Qed.

(** The date part of a [strptime] format consumes a dated text. *)
Lemma re_date_dated sep t cs s' cs' :
  date_sep sep = true ->
  denote idf (re_date (rt env) sep) t cs s' cs' -> dated (rt env) t.
Proof.
  intros Hsep; unfold re_date, re_Y, re_m, re_d, dig, chr_range.
  intros (s1 & c1 & (c0 & DY & _) & s2 & c2 & (x & -> & X & ->)
          & s3 & c3 & (c3' & DM & _) & s4 & c4 & (y & -> & Y & ->) & c5 & DD & _).
  apply denote_d4 in DY as (g1 & -> & R1 & _).
  simpl in X, Y; subst x y.
  assert (M : exists g2, s2 = g2 ++ sep :: s4 /\ digit_run 1 2 g2).
  { simpl in DM.
    destruct DM as [(z & ? & (a & -> & A & _) & b & -> & B & _)
                   |[(z & ? & (a & -> & A & _) & b & -> & B & _)|(a & -> & A & _)]].
    - exists [a; b]; split; [reflexivity|apply run2].
      + now apply (lit_decimal 49).
      + now apply (range_decimal 48 50).
    - exists [a; b]; split; [reflexivity|apply run2].
      + now apply (lit_decimal 48).
      + now apply (range_decimal 49 57).
    - exists [a]; split; [reflexivity|apply run1; now apply (range_decimal 49 57)]. }
  destruct M as (g2 & -> & R2).
  assert (D : exists w g3, s4 = w ++ g3 ++ s' /\ forallb is_space w = true
                           /\ digit_run 1 2 g3).
  { simpl in DD.
    destruct DD as [(z & ? & (a & -> & A & _) & b & -> & B & _)
                   |[(z & ? & (a & -> & A & _) & b & -> & B & _)
                    |[(z & ? & (a & -> & A & _) & b & -> & B & _)
                     |[(a & -> & A & _)
                      |(z & ? & (a & -> & A & _) & b & -> & B & _)]]]].
    - exists [], [a; b]; split; [reflexivity|split; [reflexivity|apply run2]].
      + now apply (lit_decimal 51).
      + now apply (range_decimal 48 49).
    - exists [], [a; b]; split; [reflexivity|split; [reflexivity|apply run2]]; auto.
      now apply (range_decimal 49 50).
    - exists [], [a; b]; split; [reflexivity|split; [reflexivity|apply run2]].
      + now apply (lit_decimal 48).
      + now apply (range_decimal 49 57).
    - exists [], [a]; split; [reflexivity|split; [reflexivity|apply run1]].
      now apply (range_decimal 49 57).
    - exists [a], [b]; simpl in A; subst a;
        split; [reflexivity|split; [reflexivity|apply run1]].
      now apply (range_decimal 49 57). }
  destruct D as (w & g3 & -> & W & R3).
  exists g1, sep, g2, sep, w, g3, s'; split; [reflexivity|]; auto 10.
Qed.

Lemma format_dated f t s' cs :
  step5_format f = true ->
  denote idf (format_regex (rt env) f) t [] s' cs -> dated (rt env) t.
Proof.
  destruct f as [|sep]; simpl step5_format; intros Hf.
  - intros (s1 & c1 & D & T).
    pose proof (denote_suffix idf _ _ _ _ _ D) as (p1 & E).
    apply re_date_dated in D; [|reflexivity].
    destruct D as (g1 & x & g2 & y & w & g3 & rest & -> & H).
    exists g1, x, g2, y, w, g3, rest; auto.
  - now apply re_date_dated.
Qed.

Lemma strptime_dated s f dt :
  step5_format f = true -> strptime (rt env) s f = Ok dt -> dated (rt env) s.
Proof.
  unfold strptime; intros Hf H.
  destruct (match_at idf (format_regex (rt env) f) s) as [[rest caps]|] eqn:M;
    [|discriminate].
  apply match_at_sound in M; now apply format_dated in M.
Qed.

(** Steps 4 and 5 never find a date that step 3 has not found. *)
Lemma iso_dead s :
  search idf (re_separated env) s = None -> search idf (re_iso env) s = None.
Proof.
  intros H; destruct (search idf (re_iso env) s) as [m|] eqn:E; [|reflexivity].
  apply search_sound in E as (pre & t & s' & -> & D & _).
  apply iso_dated in D; now apply (dated_found pre) in D.
Qed.

Lemma try_formats_dead s fs :
  search idf (re_separated env) s = None ->
  forallb step5_format fs = true -> try_formats env s fs = [].
Proof.
  intros H; induction fs as [|f fs IH]; cbn [try_formats forallb]; [reflexivity|].
  intros Hf; apply andb_true_iff in Hf as [Hf Hfs].
  destruct (strptime (rt env) (firstn 16 s) f) as [dt|e] eqn:E; [exfalso|auto].
  apply strptime_dated in E; [|exact Hf].
  apply (dated_app _ (skipn 16 s)) in E; rewrite firstn_skipn in E.
  apply (dated_found []) in E; simpl in E; contradiction.
Qed.

(** Steps 2 to 5 return, and return nothing or a YYYY-MM-DD text. *)
Lemma norm_first_shape s :
  exists out, norm_first env s = Ok out /\ (out = [] \/ is_ymd out = true).
Proof.
  unfold norm_first.
  destruct (search idf (re_korean env) s) as [m|] eqn:K.
  { apply search_sound in K as (pre & t & s' & _ & D & _).
    apply korean_groups in D as (g1 & g2 & g3 & -> & R1 & R2 & R3).
    destruct (format_ymd_runs g1 g2 g3 R1 R2 R3) as (out & -> & Y); eauto. }
  destruct (search idf (re_separated env) s) as [m|] eqn:S.
  { apply search_sound in S as (pre & t & s' & _ & D & _).
    apply separated_groups in D as (g1 & g2 & g3 & -> & R1 & R2 & R3).
    destruct (format_ymd_runs g1 g2 g3 R1 R2 R3) as (out & -> & Y); eauto. }
  rewrite (iso_dead s S), (try_formats_dead s _ S) by reflexivity.
  eauto.
Qed.
End DateFacts.

(** ** Trailing white space does not change what a date pattern finds *)

Lemma consumed_tail (t s1 w : str) : consumed (t ++ w) (s1 ++ w) = consumed t s1.
Proof.
  unfold consumed; rewrite !length_app.
  replace (length t + length w - (length s1 + length w))%nat
    with (length t - length s1)%nat by lia.
  rewrite firstn_app.
  replace (length t - length s1 - length t)%nat with 0%nat by lia.
  simpl; apply app_nil_r.
Qed.

Lemma proper_suffix_tail x w : proper_suffix w (x :: w).
Proof. exists [x]; split; [discriminate|reflexivity]. Qed.

Lemma proper_suffix_trans t t' w :
  (exists pre, t' = pre ++ t) -> proper_suffix t' w -> proper_suffix t w.
Proof.
  intros (p1 & ->) (p2 & Hne & ->); exists (p2 ++ p1); split; [|now rewrite app_assoc].
  destruct p2; [congruence|discriminate].
Qed.

Lemma proper_suffix_space t w :
  forallb is_space w = true -> proper_suffix t w -> forallb is_space t = true.
Proof.
  intros Hw (pre & _ & ->); rewrite forallb_app in Hw; now apply andb_true_iff in Hw.
Qed.

Lemma lift_tail_orelse w x y :
  lift_tail w (orelse x y) = orelse (lift_tail w x) (lift_tail w y).
Proof. destruct x as [[? ?]|]; reflexivity. Qed.

Section TailFacts.
Variable fold : char -> char.
Variable w : str.
Hypothesis Hw : forallb is_space w = true.

Local Abbreviation K := (str -> list str -> option (str * list str)).

(** What a match consumed of a proper suffix of [w] leaves a proper suffix
    of [w]. *)
Lemma guarded_rest r (k' : K) :
  (forall t c, proper_suffix t w -> k' t c = None) ->
  forall t c, proper_suffix t w -> rmatch fold r t c k' = None.
Proof.
  intros G t c P.
  destruct (rmatch fold r t c k') as [a|] eqn:E; [|reflexivity].
  apply rmatch_sound in E as (s1 & c1 & D & E).
  apply denote_suffix in D.
  rewrite (G s1 c1) in E; [discriminate|].
  now apply (proper_suffix_trans s1 t w).
Qed.

Lemma star_guarded p (k' : str -> option (str * list str)) :
  (forall t, proper_suffix t w -> k' t = None) -> star_greedy p w k' = k' w.
Proof.
  intros G; destruct w as [|x w'] eqn:Ew; [reflexivity|].
  simpl; destruct (p x); [|reflexivity].
  destruct (star_greedy p w' k') as [a|] eqn:E; [|reflexivity].
  apply star_greedy_sound in E as (v & s1 & Ev & _ & E).
  rewrite G in E; [discriminate|].
  exists (x :: v); split; [discriminate|now rewrite Ev].
Qed.

Lemma plain_blind r : plain r = true ->
  forall k k' : K, tail_guarded w k k' ->
  forall t c, rmatch fold r (t ++ w) c k' = lift_tail w (rmatch fold r t c k).
Proof.
  induction r as [|c0|p|r1 IHr1 r2 IHr2|r1 IHr1 r2 IHr2|p|r IHr|r IHr|r IHr|];
    intros Hp k k' [J G] t c; simpl in Hp; try discriminate; simpl.
  - apply J.
  - destruct t as [|x t]; simpl.
    + destruct w as [|y w'] eqn:Ew; [reflexivity|].
      destruct (fold y =? fold c0)%N; [|reflexivity].
      apply G; rewrite <- Ew at 1; subst; apply proper_suffix_tail.
    + destruct (fold x =? fold c0)%N; [apply J|reflexivity].
  - destruct t as [|x t]; simpl.
    + destruct w as [|y w'] eqn:Ew; [reflexivity|].
      destruct (p y); [|reflexivity].
      apply G; subst; apply proper_suffix_tail.
    + destruct (p x); [apply J|reflexivity].
  - apply andb_true_iff in Hp as [P1 P2].
    apply (IHr1 P1 (fun s1 c1 => rmatch fold r2 s1 c1 k)
                (fun s1 c1 => rmatch fold r2 s1 c1 k')).
    split; [intros t1 c1; now apply IHr2|].
    intros t1 c1; now apply guarded_rest.
  - apply andb_true_iff in Hp as [P1 P2].
    rewrite lift_tail_orelse, (IHr1 P1 k k'), (IHr2 P2 k k'); auto; now split.
  - induction t as [|x t IHt]; simpl.
    + rewrite (star_guarded p (fun s1 => k' s1 c)); [apply (J [])|].
      intros t1 P; now apply G.
    + destruct (p x); [|apply (J (x :: t))].
      rewrite lift_tail_orelse, IHt. f_equal; apply (J (x :: t)).
  - rewrite lift_tail_orelse, (IHr Hp k k'); [|now split].
    f_equal; apply J.
  - apply (IHr Hp (fun s1 c1 => k s1 (c1 ++ [consumed t s1]))
               (fun s1 c1 => k' s1 (c1 ++ [consumed (t ++ w) s1]))).
    split; [|intros t1 c1 P; now apply G].
    intros t1 c1; rewrite consumed_tail; apply J.
Qed.

Lemma plain_guarded r (k k' : K) :
  plain r = true -> tail_guarded w k k' ->
  tail_guarded w (fun s c => rmatch fold r s c k) (fun s c => rmatch fold r s c k').
Proof.
  intros Hp H; split; [intros t c; now apply plain_blind|].
  intros t c; apply guarded_rest, H.
Qed.

Lemma space_head x t : forallb is_space (x :: t) = true -> is_space x = true.
Proof. simpl; intros H; now apply andb_true_iff in H. Qed.

(** A solid pattern treats the tail like the end of the text. *)
Lemma solid_blind r : solid fold r ->
  forall k k' : K, tail_blind w k k' ->
  forall t c, rmatch fold r (t ++ w) c k' = lift_tail w (rmatch fold r t c k).
Proof.
  induction r as [|c0|p|r1 IHr1 r2 IHr2|r1 IHr1 r2 IHr2|p|r IHr|r IHr|r IHr|];
    intros Hs k k' J t c; simpl in Hs; try contradiction; simpl.
  - apply J.
  - destruct t as [|x t]; simpl.
    + destruct w as [|y w'] eqn:Ew; [reflexivity|].
      destruct (fold y =? fold c0)%N eqn:E; [|reflexivity].
      apply N.eqb_eq, Hs in E. apply space_head in Hw; congruence.
    + destruct (fold x =? fold c0)%N; [apply J|reflexivity].
  - destruct t as [|x t]; simpl.
    + destruct w as [|y w'] eqn:Ew; [reflexivity|].
      destruct (p y) eqn:E; [|reflexivity].
      apply Hs in E. apply space_head in Hw; congruence.
    + destruct (p x); [apply J|reflexivity].
  - destruct Hs as [S1 S2].
    apply (IHr1 S1 (fun s1 c1 => rmatch fold r2 s1 c1 k)
                (fun s1 c1 => rmatch fold r2 s1 c1 k')).
    intros t1 c1; now apply IHr2.
  - destruct Hs as [S1 S2].
    now rewrite lift_tail_orelse, (IHr1 S1 k k'), (IHr2 S2 k k').
  - induction t as [|x t IHt]; simpl.
    + destruct w as [|y w'] eqn:Ew; [apply (J [])|].
      simpl; destruct (p y) eqn:E; [|apply (J [])].
      apply Hs in E. apply space_head in Hw; congruence.
    + destruct (p x); [|apply (J (x :: t))].
      rewrite lift_tail_orelse, IHt. f_equal; apply (J (x :: t)).
  - rewrite lift_tail_orelse, (IHr Hs k k'); [|exact J].
    f_equal; apply J.
  - apply (IHr Hs (fun s1 c1 => k s1 (c1 ++ [consumed t s1]))
               (fun s1 c1 => k' s1 (c1 ++ [consumed (t ++ w) s1]))).
    intros t1 c1; rewrite consumed_tail; apply J.
Qed.

(** A solid, productive pattern finds nothing in white space. *)
Lemma solid_start r : solid fold r -> productive r = true ->
  forall (k' : K) t c, forallb is_space t = true -> rmatch fold r t c k' = None.
Proof.
  induction r as [|c0|p|r1 IHr1 r2 IHr2|r1 IHr1 r2 IHr2|p|r IHr|r IHr|r IHr|];
    intros Hs Hp k' t c Ht; simpl in Hs, Hp; try discriminate;
    try contradiction; simpl.
  - destruct t as [|x t]; [reflexivity|].
    destruct (fold x =? fold c0)%N eqn:E; [|reflexivity].
    apply N.eqb_eq, Hs in E. apply space_head in Ht; congruence.
  - destruct t as [|x t]; [reflexivity|].
    destruct (p x) eqn:E; [|reflexivity].
    apply Hs in E. apply space_head in Ht; congruence.
  - destruct Hs as [S1 S2].
    destruct (productive r1) eqn:P1; [now apply IHr1|].
    simpl in Hp.
    destruct (rmatch fold r1 t c _) as [a|] eqn:E; [|reflexivity].
    apply rmatch_sound in E as (s1 & c1 & D & E).
    apply denote_suffix in D as (pre & ->).
    rewrite forallb_app in Ht; apply andb_true_iff in Ht as [_ Ht].
    rewrite (IHr2 S2 Hp k' s1 c1 Ht) in E; discriminate.
  - destruct Hs as [S1 S2]; apply andb_true_iff in Hp as [P1 P2].
    now rewrite (IHr1 S1 P1), (IHr2 S2 P2).
  - now apply IHr.
Qed.

Lemma solid_end_guarded r : solid_end fold r ->
  forall k k' : K, tail_blind w k k' ->
  tail_guarded w (fun s c => rmatch fold r s c k) (fun s c => rmatch fold r s c k').
Proof.
  assert (Base : forall r0, solid fold r0 -> productive r0 = true ->
            forall k k' : K, tail_blind w k k' ->
            tail_guarded w (fun s c => rmatch fold r0 s c k)
                         (fun s c => rmatch fold r0 s c k')).
  { intros r0 S P k k' J; split; [intros t c; now apply solid_blind|].
    intros t c Pt; apply solid_start; auto. now apply (proper_suffix_space t w). }
  induction r as [|c0|p|r1 IHr1 r2 IHr2|r1 IHr1 r2 IHr2|p|r IHr|r IHr|r IHr|];
    intros H k k' J; try (destruct H as [S P]; now apply Base).
  destruct H as [P1 E2].
  apply (plain_guarded r1 (fun s c => rmatch fold r2 s c k)
                       (fun s c => rmatch fold r2 s c k') P1).
  now apply IHr2.
Qed.

Lemma search_in_tail r t :
  (forall t', proper_suffix t' w \/ t' = w -> match_at fold r t' = None) ->
  (exists pre, w = pre ++ t) -> search fold r t = None.
Proof.
  intros G; induction t as [|x t IH]; intros (pre & E); simpl.
  - rewrite G; auto.
    destruct pre; [right; now rewrite E|left; exists (c :: pre); split; [discriminate|auto]].
  - rewrite G.
    + apply IH; exists (pre ++ [x]); now rewrite <- app_assoc.
    + destruct pre; [right; now rewrite E|left; exists (c :: pre); split; [discriminate|auto]].
Qed.

Lemma search_hit r s s' cs :
  match_at fold r s = Some (s', cs) ->
  search fold r s = Some {| group0 := consumed s s'; groups := cs |}.
Proof. intros H; destruct s; simpl; now rewrite H. Qed.

Lemma search_miss r x s :
  match_at fold r (x :: s) = None -> search fold r (x :: s) = search fold r s.
Proof. intros H; simpl; now rewrite H. Qed.

(** The search over a text followed by white space is the search over the
    text. *)
Lemma search_tail r t :
  solid_end fold r -> search fold r (t ++ w) = search fold r t.
Proof.
  intros E.
  destruct (solid_end_guarded r E (fun s c => Some (s, c)) (fun s c => Some (s, c)))
    as [J G]; [intros t1 c1; reflexivity|].
  assert (J' : forall t0, match_at fold r (t0 ++ w) = lift_tail w (match_at fold r t0))
    by (intros t0; apply (J t0 [])).
  assert (G' : forall t', proper_suffix t' w -> match_at fold r t' = None)
    by (intros t' P; apply (G t' [] P)).
  clear J G.
  induction t as [|x t IH].
  - pose proof (J' []) as J0; cbn [app] in *.
    destruct (match_at fold r []) as [[s1 c1]|] eqn:M0; simpl in J0.
    + rewrite (search_hit r w _ _ J0), (search_hit r [] _ _ M0).
      change (consumed w (s1 ++ w)) with (consumed ([] ++ w) (s1 ++ w)).
      now rewrite consumed_tail.
    + rewrite (search_in_tail r w); [simpl; now rewrite M0| |now exists []].
      intros t' [P| ->]; auto.
  - pose proof (J' (x :: t)) as J0; cbn [app] in *.
    destruct (match_at fold r (x :: t)) as [[s1 c1]|] eqn:M0; simpl in J0.
    + rewrite (search_hit r _ _ _ J0), (search_hit r _ _ _ M0).
      change (x :: t ++ w) with ((x :: t) ++ w); now rewrite consumed_tail.
    + now rewrite (search_miss r _ _ J0), (search_miss r _ _ M0).
Qed.
End TailFacts.

(** ** Stripping and splitting *)

Lemma lstrip_spec s :
  exists w0, s = w0 ++ lstrip s /\ forallb is_space w0 = true
             /\ (lstrip s = [] \/ exists x r, lstrip s = x :: r /\ is_space x = false).
Proof.
  induction s as [|c s (w0 & E & W & H)]; simpl.
  - exists []; auto.
  - destruct (is_space c) eqn:C.
    + exists (c :: w0); simpl; rewrite C, W, <- E; auto.
    + exists []; repeat split; eauto.
Qed.

Lemma lstrip_app_solid s q x r : lstrip s = x :: r -> lstrip (s ++ q) = lstrip s ++ q.
Proof.
  induction s as [|c s IH]; simpl; [discriminate|].
  destruct (is_space c); auto.
Qed.

Lemma lstrip_app_space s q : forallb is_space s = true -> lstrip (s ++ q) = lstrip q.
Proof.
  induction s as [|c s IH]; simpl; auto.
  intros H; apply andb_true_iff in H as [-> H]; auto.
Qed.

Lemma forallb_rev {A : Type} (f : A -> bool) l : forallb f (rev l) = forallb f l.
Proof.
  induction l as [|x l IH]; simpl; auto.
  now rewrite forallb_app, IH; simpl; rewrite andb_true_r, andb_comm.
Qed.

Lemma rstrip_spec y : exists w, y = rstrip y ++ w /\ forallb is_space w = true.
Proof.
  unfold rstrip; destruct (lstrip_spec (rev y)) as (w0 & E & W & _).
  exists (rev w0); split; [|now rewrite forallb_rev].
  rewrite <- rev_app_distr, <- E; symmetry; apply rev_involutive.
Qed.

Lemma rstrip_app_keep p q : rstrip q <> [] -> rstrip (p ++ q) = p ++ rstrip q.
Proof.
  unfold rstrip; intros H; rewrite rev_app_distr.
  destruct (lstrip (rev q)) as [|x r] eqn:E; [now elim H|].
  rewrite (lstrip_app_solid _ _ x r E), E, rev_app_distr, rev_involutive; reflexivity.
Qed.

Lemma rstrip_cons_solid c b : is_space c = false -> exists b', rstrip (c :: b) = c :: b'.
Proof.
  intros C; destruct (rstrip_spec (c :: b)) as (w & E & W).
  destruct (rstrip (c :: b)) as [|c' r]; simpl in E.
  - subst w; simpl in W; rewrite C in W; discriminate.
  - inversion E; subst; eauto.
Qed.

Lemma range_sep_solid c : is_range_sep c = true -> is_space c = false.
Proof.
  unfold is_range_sep; rewrite !orb_true_iff, !N.eqb_eq.
  intros [[[->| ->]| ->]| ->]; reflexivity.
Qed.

Lemma break_at_sep p a c b :
  forallb (fun x => negb (p x)) a = true -> p c = true ->
  break_at p (a ++ c :: b) = (a, c :: b).
Proof.
  induction a as [|x a IH]; simpl; intros H C; [now rewrite C|].
  apply andb_true_iff in H as [X H]; apply negb_true_iff in X; rewrite X.
  now rewrite IH.
Qed.

Lemma break_at_free p a :
  forallb (fun x => negb (p x)) a = true -> break_at p a = (a, []).
Proof.
  induction a as [|x a IH]; simpl; intros H; [reflexivity|].
  apply andb_true_iff in H as [X H]; apply negb_true_iff in X; rewrite X.
  now rewrite IH.
Qed.

(** ** [_norm_date] *)

Section NormDateFacts.
Variable env : Env.
Local Abbreviation idf := (fun c : char => c).

Lemma korean_solid_end : solid_end idf (re_korean env).
Proof.
  unfold re_korean; simpl; repeat split; try reflexivity.
  intros x ->; reflexivity.
Qed.

Lemma separated_solid_end : solid_end idf (re_separated env).
Proof.
  unfold re_separated; simpl; repeat split; try reflexivity;
    intros x; apply decimal_not_space.
Qed.

(** White space behind the text of a date does not change the answer. *)
Lemma norm_first_tail t w :
  forallb is_space w = true -> norm_first env (t ++ w) = norm_first env t.
Proof.
  intros W; unfold norm_first.
  rewrite (search_tail idf w W (re_korean env) t korean_solid_end).
  destruct (search idf (re_korean env) t); [reflexivity|].
  rewrite (search_tail idf w W (re_separated env) t separated_solid_end).
  destruct (search idf (re_separated env) t) eqn:S; [reflexivity|].
  assert (S' : search idf (re_separated env) (t ++ w) = None)
    by now rewrite (search_tail idf w W (re_separated env) t separated_solid_end).
  rewrite (iso_dead env _ S), (iso_dead env _ S').
  now rewrite (try_formats_dead env _ _ S), (try_formats_dead env _ _ S').
Qed.

Lemma norm_date_range a c b :
  is_range_sep c = true -> sep_free a = true ->
  _norm_date env (Some (a ++ c :: b)) = _norm_date env (Some a).
Proof.
  intros C F; unfold _norm_date, strip.
  pose proof (range_sep_solid c C) as Cs.
  destruct (lstrip_spec a) as (w0 & Ea & W0 & [L|(x & r & L & X)]).
  - (* nothing but white space before the separator *)
    rewrite L, app_nil_r in Ea; subst w0.
    rewrite (lstrip_app_space a (c :: b) W0), L.
    simpl lstrip; rewrite Cs.
    destruct (rstrip_cons_solid c b Cs) as (b' & ->).
    unfold rstrip at 1; simpl; rewrite C; reflexivity.
  - rewrite (lstrip_app_solid a (c :: b) x r L).
    assert (F' : sep_free (lstrip a) = true).
    { unfold sep_free in *; rewrite Ea, forallb_app in F.
      now apply andb_true_iff in F. }
    destruct (rstrip_cons_solid c b Cs) as (b' & Eb).
    rewrite (rstrip_app_keep (lstrip a) (c :: b)) by (rewrite Eb; discriminate).
    rewrite Eb.
    destruct (rstrip_spec (lstrip a)) as (w & Et & W).
    assert (Ne : rstrip (lstrip a) <> []).
    { rewrite L; destruct (rstrip_cons_solid x r X) as (r' & ->); discriminate. }
    assert (Ft : sep_free (rstrip (lstrip a)) = true).
    { unfold sep_free in *; rewrite Et, forallb_app in F'.
      now apply andb_true_iff in F'. }
    replace (nonempty (lstrip a ++ c :: b')) with true by (rewrite L; reflexivity).
    replace (nonempty (rstrip (lstrip a))) with true
      by (destruct (rstrip (lstrip a)); [congruence|reflexivity]).
    cbn [negb].
    rewrite (break_at_sep is_range_sep (lstrip a) c b' F' C).
    rewrite (break_at_free is_range_sep _ Ft); cbn [fst].
    rewrite Et at 1; now apply norm_first_tail.
Qed.
End NormDateFacts.

(** ** Which date [_norm_date] returns *)

Lemma search_leftmost fold r s m :
  search fold r s = Some m ->
  exists pre t s',
    s = pre ++ t /\ match_at fold r t = Some (s', groups m)
    /\ forall pre' t', s = pre' ++ t' -> (length pre' < length pre)%nat ->
                       match_at fold r t' = None.
Proof.
  induction s as [|x s IH]; cbn [search].
  - destruct (match_at fold r []) as [[s' cs]|] eqn:E; [|discriminate].
    intros H; inversion H; subst; cbn [groups].
    exists [], [], s'. repeat split; auto. intros; cbn in *; lia.
  - destruct (match_at fold r (x :: s)) as [[s' cs]|] eqn:E.
    + intros H; inversion H; subst; cbn [groups].
      exists [], (x :: s), s'. repeat split; auto. intros; cbn in *; lia.
    + intros H; apply IH in H as (pre & t & s' & -> & M & L).
      exists (x :: pre), t, s'. repeat split; auto.
      intros pre' t' Ep Lp. destruct pre' as [|y pre'].
      * cbn in Ep. now rewrite <- Ep.
      * cbn in Ep. inversion Ep; subst. apply (L pre' t' H1). cbn in Lp. lia.
Qed.

Lemma rmatch_seq_inv fold a b (A : Type) s cs (k : str -> list str -> option A) res :
  rmatch fold (Seq a b) s cs k = Some res ->
  exists s1 c1, denote fold a s cs s1 c1 /\ rmatch fold b s1 c1 k = Some res.
Proof. cbn [rmatch]. apply rmatch_sound. Qed.

Section WhichDate.
Variable env : Env.
Local Abbreviation dec := (is_decimal (rt env)).
Local Abbreviation idf := (fun c : char => c).

Lemma forallb_app4 (p : char -> bool) (a b c d : str) :
  forallb p a = true -> forallb p b = true -> forallb p c = true -> forallb p d = true ->
  forallb p (a ++ b ++ c ++ d) = true.
Proof. intros; rewrite !forallb_app; repeat (apply andb_true_iff; split); auto. Qed.

Lemma korean_denote t s' cs :
  denote idf (re_korean env) t [] s' cs ->
  exists g1 g2 g3, cs = [g1; g2; g3] /\ korean_at (rt env) t g1 g2 g3 s'.
Proof.
  unfold re_korean.
  intros (s1 & c1 & G1 & s2 & c2 & (w2 & -> & W2 & ->) & s3 & c3 & (x3 & -> & X3 & ->)
          & s4 & c4 & (w4 & -> & W4 & ->) & s5 & c5 & G2
          & s6 & c6 & (w6 & -> & W6 & ->) & s7 & c7 & (x7 & -> & X7 & ->)
          & s8 & c8 & (w8 & -> & W8 & ->) & s9 & c9 & G3
          & s10 & c10 & (w10 & -> & W10 & ->) & x11 & -> & X11 & ->).
  apply denote_group_d4 in G1 as (g1 & -> & R1 & ->).
  apply denote_group_d12 in G2 as (g2 & -> & R2 & ->).
  apply denote_group_d12 in G3 as (g3 & -> & R3 & ->).
  cbv beta in X3, X7, X11. subst x3 x7 x11.
  exists g1, g2, g3; split; [reflexivity|].
  exists w2, w4, w6, w8, w10. split; [reflexivity|].
  repeat split; try apply R1; try apply R2; try apply R3.
  rewrite !forallb_app, W2, W4, W6, W8, W10. reflexivity.
Qed.

Lemma spaces5 (w1 w2 w3 w4 w5 : str) :
  forallb is_space (w1 ++ w2 ++ w3 ++ w4 ++ w5) = true ->
  forallb is_space w1 = true /\ forallb is_space w2 = true /\ forallb is_space w3 = true
  /\ forallb is_space w4 = true /\ forallb is_space w5 = true.
Proof. rewrite !forallb_app, !andb_true_iff. tauto. Qed.

Lemma spaces4 (w1 w2 w3 w4 : str) :
  forallb is_space (w1 ++ w2 ++ w3 ++ w4) = true ->
  forallb is_space w1 = true /\ forallb is_space w2 = true /\ forallb is_space w3 = true
  /\ forallb is_space w4 = true.
Proof. rewrite !forallb_app, !andb_true_iff. tauto. Qed.

Lemma korean_written t g1 g2 g3 rest :
  korean_at (rt env) t g1 g2 g3 rest ->
  denote idf (re_korean env) t [] rest [g1; g2; g3].
Proof.
  intros (w1 & w2 & w3 & w4 & w5 & -> & R1 & R2 & R3 & W).
  apply spaces5 in W as (W1 & W2 & W3 & W4 & W5).
  unfold re_korean.
  eexists _, _; split; [apply (mk_d4 env g1 _ []); exact R1|].
  eexists _, _; split; [exists w1; eauto|].
  eexists _, _; split; [exists 45380%N; eauto|].
  eexists _, _; split; [exists w2; eauto|].
  eexists _, _; split; [apply (mk_d12 env g2 _ [g1]); exact R2|].
  eexists _, _; split; [exists w3; eauto|].
  eexists _, _; split; [exists 50900%N; eauto|].
  eexists _, _; split; [exists w4; eauto|].
  eexists _, _; split; [apply (mk_d12 env g3 _ [g1; g2]); exact R3|].
  eexists _, _; split; [exists w5; eauto|].
  exists 51068%N; eauto.
Qed.

Lemma separated_denote t s' cs :
  denote idf (re_separated env) t [] s' cs ->
  exists g1 g2 g3, cs = [g1; g2; g3] /\ separated_at (rt env) t g1 g2 g3 s'.
Proof.
  unfold re_separated.
  intros (s1 & c1 & G1 & s2 & c2 & (w2 & -> & W2 & ->) & s3 & c3 & (x3 & -> & X3 & ->)
          & s4 & c4 & (w4 & -> & W4 & ->) & s5 & c5 & G2
          & s6 & c6 & (w6 & -> & W6 & ->) & s7 & c7 & (x7 & -> & X7 & ->)
          & s8 & c8 & (w8 & -> & W8 & ->) & G3).
  apply denote_group_d4 in G1 as (g1 & -> & R1 & ->).
  apply denote_group_d12 in G2 as (g2 & -> & R2 & ->).
  apply denote_group_d12 in G3 as (g3 & -> & R3 & ->).
  exists g1, g2, g3; split; [reflexivity|].
  exists w2, x3, w4, w6, x7, w8. split; [reflexivity|].
  repeat split; try apply R1; try apply R2; try apply R3; auto.
  rewrite !forallb_app, W2, W4, W6, W8. reflexivity.
Qed.

Lemma separated_written t g1 g2 g3 rest :
  separated_at (rt env) t g1 g2 g3 rest ->
  denote idf (re_separated env) t [] rest [g1; g2; g3].
Proof.
  intros (w1 & x & w2 & w3 & y & w4 & -> & R1 & R2 & R3 & X & Y & W).
  apply spaces4 in W as (W1 & W2 & W3 & W4).
  unfold re_separated.
  eexists _, _; split; [apply (mk_d4 env g1 _ []); exact R1|].
  eexists _, _; split; [exists w1; eauto|].
  eexists _, _; split; [exists x; eauto|].
  eexists _, _; split; [exists w2; eauto|].
  eexists _, _; split; [apply (mk_d12 env g2 _ [g1]); exact R2|].
  eexists _, _; split; [exists w3; eauto|].
  eexists _, _; split; [exists y; eauto|].
  eexists _, _; split; [exists w4; eauto|].
  apply (mk_d12 env g3 rest [g1; g2]); exact R3.
Qed.

(** The last group of the separated pattern takes a second digit when
    there is one. *)
Lemma last_day_greedy s cs s' cs' :
  rmatch idf (Group (d12 env)) s cs (fun s0 c0 => Some (s0, c0)) = Some (s', cs') ->
  day_complete (rt env) (consumed s s') s'.
Proof.
  unfold d12, d1; cbn [rmatch].
  destruct s as [|x r]; [discriminate|].
  destruct (dec x); [|discriminate].
  destruct r as [|y r'].
  - cbn [orelse]. intros H; inversion H; subst. right; exact I.
  - destruct (dec y) eqn:Y; cbn [orelse]; intros H; inversion H; subst.
    + left. now rewrite (consumed_app [x; y] s' : consumed (x :: y :: s') s' = _).
    + right. exact Y.
Qed.

Lemma separated_match t s' cs :
  match_at idf (re_separated env) t = Some (s', cs) ->
  exists g1 g2 g3, cs = [g1; g2; g3] /\ separated_at (rt env) t g1 g2 g3 s'
                   /\ day_complete (rt env) g3 s'.
Proof.
  intros M. pose proof (match_at_sound idf _ _ _ _ M) as D.
  apply separated_denote in D as (g1 & g2 & g3 & -> & S).
  exists g1, g2, g3. split; [reflexivity|]. split; [exact S|].
  unfold match_at, re_separated in M.
  apply rmatch_seq_inv in M as (s1 & c1 & _ & M).
  apply rmatch_seq_inv in M as (s2 & c2 & _ & M).
  apply rmatch_seq_inv in M as (s3 & c3 & _ & M).
  apply rmatch_seq_inv in M as (s4 & c4 & _ & M).
  apply rmatch_seq_inv in M as (s5 & c5 & _ & M).
  apply rmatch_seq_inv in M as (s6 & c6 & _ & M).
  apply rmatch_seq_inv in M as (s7 & c7 & _ & M).
  apply rmatch_seq_inv in M as (s8 & c8 & _ & M).
  pose proof (last_day_greedy _ _ _ _ M) as C.
  pose proof (rmatch_sound idf _ _ _ _ _ _ M) as (s9 & c9 & D & E).
  inversion E; subst s9 c9.
  apply denote_group_d12 in D as (g & -> & _ & Ec).
  rewrite consumed_app in C.
  assert (g = g3); [|now subst].
  apply (f_equal (fun l => last l [])) in Ec. rewrite last_last in Ec.
  cbn in Ec. congruence.
Qed.

Lemma date_written k t g1 g2 g3 rest :
  date_at (rt env) k t g1 g2 g3 rest ->
  exists r, plain r = true /\ denote idf r t [] rest [g1; g2; g3]
            /\ r = match k with Korean => re_korean env | Separated => re_separated env end.
Proof.
  destruct k; cbn [date_at]; intros H.
  - exists (re_korean env). repeat split; auto using korean_written.
  - exists (re_separated env). repeat split; auto using separated_written.
Qed.

Lemma not_found_not_written k s :
  search idf (match k with Korean => re_korean env | Separated => re_separated env end) s
  = None ->
  ~ occurs (rt env) k s.
Proof.
  intros N (pre & t & g1 & g2 & g3 & rest & -> & D).
  apply date_written in D as (r & P & D & ->).
  exact (search_complete idf _ pre t rest _ P D N).
Qed.

Lemma found_written k s m :
  search idf (match k with Korean => re_korean env | Separated => re_separated env end) s
  = Some m ->
  exists pre t g1 g2 g3 rest,
    s = pre ++ t /\ groups m = [g1; g2; g3] /\ date_at (rt env) k t g1 g2 g3 rest
    /\ (k = Separated -> day_complete (rt env) g3 rest)
    /\ forall pre' t' h1 h2 h3 rest',
         s = pre' ++ t' -> (length pre' < length pre)%nat ->
         ~ date_at (rt env) k t' h1 h2 h3 rest'.
Proof.
  intros S. apply search_leftmost in S as (pre & t & s' & -> & M & L).
  assert (Left : forall pre' t' h1 h2 h3 rest',
             pre ++ t = pre' ++ t' -> (length pre' < length pre)%nat ->
             ~ date_at (rt env) k t' h1 h2 h3 rest').
  { intros pre' t' h1 h2 h3 rest' E Lt D.
    apply date_written in D as (r & P & D & ->).
    apply (match_at_complete idf _ _ _ _ P D). now apply L with (pre' := pre'). }
  destruct k.
  - pose proof (match_at_sound idf _ _ _ _ M) as D.
    apply korean_denote in D as (g1 & g2 & g3 & E & K).
    exists pre, t, g1, g2, g3, s'. repeat split; auto. discriminate.
  - apply separated_match in M as (g1 & g2 & g3 & E & K & C).
    exists pre, t, g1, g2, g3, s'. repeat split; auto.
Qed.

Lemma format_ymd_value g1 g2 g3 out :
  digit_run (rt env) 4 4 g1 -> digit_run (rt env) 1 2 g2 -> digit_run (rt env) 1 2 g3 ->
  format_ymd env [g1; g2; g3] = Ok out ->
  exists y m d,
    int_of_digits (rt env) g1 = Some y /\ int_of_digits (rt env) g2 = Some m
    /\ int_of_digits (rt env) g3 = Some d
    /\ out = zero_pad 4 y ++ u "-" ++ zero_pad 2 m ++ u "-" ++ zero_pad 2 d
    /\ is_ymd out = true.
Proof.
  intros R1 R2 R3; unfold format_ymd.
  apply digit_run_int in R1 as (y & -> & By); [|lia].
  apply digit_run_int in R2 as (m & -> & Bm); [|lia].
  apply digit_run_int in R3 as (d & -> & Bd); [|lia].
  change (10 ^ N.of_nat 4)%N with 10000%N in By.
  change (10 ^ N.of_nat 2)%N with 100%N in Bm, Bd.
  intros H; inversion H; subst.
  exists y, m, d. repeat split.
  apply is_ymd_of_padded; auto using padded_4, padded_2.
Qed.

Lemma date_at_runs k t g1 g2 g3 rest :
  date_at (rt env) k t g1 g2 g3 rest ->
  digit_run (rt env) 4 4 g1 /\ digit_run (rt env) 1 2 g2 /\ digit_run (rt env) 1 2 g3.
Proof.
  destruct k; cbn [date_at].
  - intros (w1 & w2 & w3 & w4 & w5 & _ & R1 & R2 & R3 & _); auto.
  - intros (w1 & x & w2 & w3 & y & w4 & _ & R1 & R2 & R3 & _); auto.
Qed.

(** What steps 2 to 5 return: nothing exactly when no date is written in
    the text; otherwise the fields of the leftmost Korean date, or without
    one of the leftmost separated date. *)
Lemma norm_first_spec s out :
  norm_first env s = Ok out ->
  (out = [] <-> forall k, ~ occurs (rt env) k s)
  /\ (out <> [] ->
      exists k pre t g1 g2 g3 rest y m d,
        s = pre ++ t /\ date_at (rt env) k t g1 g2 g3 rest
        /\ (k = Separated -> ~ occurs (rt env) Korean s /\ day_complete (rt env) g3 rest)
        /\ (forall pre' t' h1 h2 h3 rest',
              s = pre' ++ t' -> (length pre' < length pre)%nat ->
              ~ date_at (rt env) k t' h1 h2 h3 rest')
        /\ int_of_digits (rt env) g1 = Some y /\ int_of_digits (rt env) g2 = Some m
        /\ int_of_digits (rt env) g3 = Some d
        /\ out = zero_pad 4 y ++ u "-" ++ zero_pad 2 m ++ u "-" ++ zero_pad 2 d).
Proof.
  unfold norm_first.
  destruct (search idf (re_korean env) s) as [mk|] eqn:K.
  { intros F.
    destruct (found_written Korean s mk K) as (pre & t & g1 & g2 & g3 & rest & E & G & D & _ & L).
    rewrite G in F. destruct (date_at_runs _ _ _ _ _ _ D) as (R1 & R2 & R3).
    destruct (format_ymd_value _ _ _ _ R1 R2 R3 F) as (y & m & d & I1 & I2 & I3 & O & Y).
    assert (Ne : out <> []) by (intros ->; discriminate).
    split.
    - split; [intros Z; now elim Ne|].
      intros N; exfalso. apply (N Korean). exists pre, t, g1, g2, g3, rest; auto.
    - intros _. exists Korean, pre, t, g1, g2, g3, rest, y, m, d.
      repeat split; auto; discriminate. }
  destruct (search idf (re_separated env) s) as [ms|] eqn:S.
  { intros F.
    destruct (found_written Separated s ms S)
      as (pre & t & g1 & g2 & g3 & rest & E & G & D & C & L).
    rewrite G in F. destruct (date_at_runs _ _ _ _ _ _ D) as (R1 & R2 & R3).
    destruct (format_ymd_value _ _ _ _ R1 R2 R3 F) as (y & m & d & I1 & I2 & I3 & O & Y).
    assert (Ne : out <> []) by (intros ->; discriminate).
    split.
    - split; [intros Z; now elim Ne|].
      intros N; exfalso. apply (N Separated). exists pre, t, g1, g2, g3, rest; auto.
    - intros _. exists Separated, pre, t, g1, g2, g3, rest, y, m, d.
      repeat split; auto. now apply (not_found_not_written Korean). }
  rewrite (iso_dead env s S), (try_formats_dead env s _ S) by reflexivity.
  intros F; inversion F; subst. split.
  - split; [|reflexivity]. intros _ [|]; now apply not_found_not_written.
  - intros N; now elim N.
Qed.

Lemma strip_sep_free a : sep_free a = true -> sep_free (strip a) = true.
Proof.
  unfold sep_free, strip. intros F.
  destruct (lstrip_spec a) as (w0 & E & _ & _).
  rewrite E, forallb_app in F. apply andb_true_iff in F as [_ F].
  destruct (rstrip_spec (lstrip a)) as (w & E' & _).
  rewrite E', forallb_app in F. now apply andb_true_iff in F as [F _].
Qed.

Lemma norm_date_first a :
  sep_free a = true -> _norm_date env (Some a) = norm_first env (strip a).
Proof.
  intros F. unfold _norm_date.
  destruct (strip a) as [|c s] eqn:E; [reflexivity|].
  cbn [nonempty negb]. rewrite <- E.
  rewrite (break_at_free is_range_sep (strip a) (strip_sep_free a F)). reflexivity.
Qed.
End WhichDate.

(** C10: [_norm_date] returns for every input, without raising, and what it
    returns is either the empty text or a text of the shape YYYY-MM-DD in
    ASCII digits, zero-padded; on a text with a range separator (~, en dash,
    em dash, 至) it returns what it returns on the text before the first
    separator, the first endpoint of the range.  Which text it returns, on
    [None] and on a text [a] without range separator: the empty text exactly
    when no date is written anywhere in [a] stripped, neither in the Korean
    way nor with separators; otherwise the year, month and day of a date
    written in [a], read as numbers and padded with zeros, namely of the
    leftmost date in the Korean way, or without one of the leftmost date with
    separators, whose day takes a second digit when there is one. *)
Theorem norm_date_total_shape_range (env : Env) :
  (forall s : option str,
      exists out, _norm_date env s = Ok out /\ (out = [] \/ is_ymd out = true))
  /\ (forall (a b : str) (c : char),
         is_range_sep c = true -> sep_free a = true ->
         _norm_date env (Some (a ++ c :: b)) = _norm_date env (Some a))
  /\ _norm_date env None = Ok []
  /\ (forall (a out : str),
         sep_free a = true -> _norm_date env (Some a) = Ok out ->
         (out = [] <-> forall k, ~ occurs (rt env) k (strip a))
         /\ (out <> [] ->
             exists k pre t g1 g2 g3 rest y m d,
               strip a = pre ++ t /\ date_at (rt env) k t g1 g2 g3 rest
               /\ (k = Separated ->
                   ~ occurs (rt env) Korean (strip a) /\ day_complete (rt env) g3 rest)
               /\ (forall pre' t' h1 h2 h3 rest',
                     strip a = pre' ++ t' -> (length pre' < length pre)%nat ->
                     ~ date_at (rt env) k t' h1 h2 h3 rest')
               /\ int_of_digits (rt env) g1 = Some y
               /\ int_of_digits (rt env) g2 = Some m
               /\ int_of_digits (rt env) g3 = Some d
               /\ out = zero_pad 4 y ++ u "-" ++ zero_pad 2 m ++ u "-" ++ zero_pad 2 d)).
Proof.
  split; [|split; [|split]].
  - intros s; unfold _norm_date.
    destruct (negb (nonempty (strip _))); [eauto|apply norm_first_shape].
  - intros a b c; apply norm_date_range.
  - reflexivity.
  - intros a out F H. rewrite (norm_date_first env a F) in H.
    now apply norm_first_spec.
Qed.

Lemma norm_date_total_shape_range_witness :
  (_norm_date (world []) (Some (u "2025.3.5 " ++ u "~" ++ u " 2025.04.01"))
   = Ok (u "2025-03-05")
   /\ _norm_date (world []) (Some (u "2025.3.5 ")) = Ok (u "2025-03-05")
   /\ is_ymd (u "2025-03-05") = true)
  /\ exists k pre t g1 g2 g3 rest y m d,
       u "2025.3.5" = pre ++ t /\ date_at rt0 k t g1 g2 g3 rest
       /\ (k = Separated -> ~ occurs rt0 Korean (u "2025.3.5") /\ day_complete rt0 g3 rest)
       /\ (forall pre' t' h1 h2 h3 rest',
             u "2025.3.5" = pre' ++ t' -> (length pre' < length pre)%nat ->
             ~ date_at rt0 k t' h1 h2 h3 rest')
       /\ int_of_digits rt0 g1 = Some y /\ int_of_digits rt0 g2 = Some m
       /\ int_of_digits rt0 g3 = Some d
       /\ u "2025-03-05" = zero_pad 4 y ++ u "-" ++ zero_pad 2 m ++ u "-" ++ zero_pad 2 d.
Proof.
  destruct (norm_date_total_shape_range (world [])) as (_ & R & _ & V).
  split.
  - split; [|split; reflexivity].
    eapply eq_trans;
      [exact (R (u "2025.3.5 ") (u " 2025.04.01") 126%N eq_refl eq_refl)|reflexivity].
  - destruct (V (u "2025.3.5 ") (u "2025-03-05") eq_refl eq_refl) as [_ W].
    apply W. discriminate.
Defined.

(** ** The collector *)

Lemma dict_get_set_same d k v : dict_get (dict_set d k v) k = Some v.
Proof.
  induction d as [|[k' v'] d IH]; simpl.
  - now rewrite str_eqb_refl.
  - destruct (str_eqb k' k) eqn:E; simpl; [now rewrite str_eqb_refl|now rewrite E].
Qed.

Lemma dict_get_set_other d k v k' :
  str_eqb k k' = false -> dict_get (dict_set d k v) k' = dict_get d k'.
Proof.
  intros N; induction d as [|[k0 v0] d IH]; simpl.
  - now rewrite N.
  - destruct (str_eqb k0 k) eqn:E; simpl.
    + apply str_eqb_eq in E; subst k0; now rewrite N.
    + destruct (str_eqb k0 k'); auto.
Qed.

Lemma In_insert_desc x y l : In y (insert_desc x l) -> y = x \/ In y l.
Proof.
  induction l as [|z l IH]; simpl; [intros [->|[]]; auto|].
  destruct (cand_lt x z); simpl; intuition.
Qed.

Lemma In_sort_desc y l : In y (sort_desc l) -> In y l.
Proof.
  induction l as [|x l IH]; simpl; [tauto|].
  intros H; apply In_insert_desc in H as [->|H]; auto.
Qed.

Lemma In_firstn {A : Type} n (x : A) l : In x (firstn n l) -> In x l.
Proof.
  revert l; induction n as [|n IH]; intros [|y l]; simpl; auto; try contradiction.
  intros [->|H]; auto.
Qed.

Section CollectorFacts.
Variable env : Env.
Variable depth : nat.
Hypothesis Hjoin : urljoin_keeps_links env.
Local Abbreviation usable := (usable env).

Lemma safe_abs_usable h base v :
  collector_base env base ->
  _safe_abs_url env (Some h) base = Ok (Some v) -> nonempty v = true -> usable v.
Proof.
  unfold _safe_abs_url; intros Hb H Hv.
  destruct (_is_placeholder_href env (Some h)) eqn:P; [intros; discriminate|].
  destruct (urljoin env base (strip h)) as [v'|e] eqn:U; inversion H; subst.
  split; [exact Hv|exact (Hjoin base h v Hb P U Hv)].
Qed.

Lemma candidates_usable keep score anchors base (Hb : collector_base env base) : forall cs,
  candidates env keep score anchors base = Ok cs ->
  forall sc url txt, In (sc, url, txt) cs -> usable url.
Proof.
  induction anchors as [|a rest IH]; cbn [candidates]; intros cs H sc url txt Hin.
  - inversion H; subst; destruct Hin.
  - destruct (_safe_abs_url env (Some (href a)) base) as [o|e] eqn:S; [|intros; discriminate].
    destruct (candidates env keep score rest base) as [cs'|e]; [|intros; discriminate].
    destruct o as [v|].
    + destruct (nonempty v && keep v a) eqn:K; inversion H; subst.
      * destruct Hin as [E|Hin]; [|now apply (IH _ eq_refl sc url txt)].
        inversion E; subst. apply andb_true_iff in K as [K _].
        now apply (safe_abs_usable (href a) base _ Hb).
      * now apply (IH _ eq_refl sc url txt).
    + inversion H; subst; now apply (IH _ eq_refl sc url txt).
Qed.

Lemma meta_link_usable rows detail url label (Hb : collector_base env detail) :
  meta_link env rows detail = Ok (Some (url, label)) -> usable url.
Proof.
  induction rows as [|r rest IH]; cbn [meta_link]; [intros; discriminate|].
  destruct (td r) as [[txt [h|]]|]; auto.
  destruct (nonempty (th r) && existsb (contains (th r)) LINK_LABELS); auto.
  destruct (_safe_abs_url env (Some h) detail) as [[v|]|e] eqn:S; auto; [|intros; discriminate].
  destruct (nonempty v) eqn:V; auto.
  intros H; inversion H; subst; now apply (safe_abs_usable h detail _ Hb).
Qed.

Lemma first_document_usable anchors base url (Hb : collector_base env base) :
  first_document env anchors base = Ok (Some url) -> usable url.
Proof.
  induction anchors as [|a rest IH]; cbn [first_document]; [intros; discriminate|].
  destruct (_safe_abs_url env (Some (href a)) base) as [[v|]|e] eqn:S; auto;
    [|intros; discriminate].
  destruct (nonempty v && is_document env v) eqn:K; auto.
  intros H; inversion H; subst. apply andb_true_iff in K as [K _].
  now apply (safe_abs_usable (href a) base _ Hb).
Qed.

Lemma typed_link_type meta kind detail : link_type (typed meta kind detail) = kind.
Proof.
  unfold link_type, typed, get_or; simpl.
  rewrite dict_get_set_other by reflexivity.
  now rewrite dict_get_set_same.
Qed.

(** The candidate of [_pick_best_go_link] is the detail URL or a usable
    URL, and only the detail URL comes with a type that starts with
    "detail". *)
Lemma pick_best_spec html detail url meta (Hb : collector_base env detail) :
  _pick_best_go_link env html detail = Ok (url, meta) ->
  (url = detail \/ usable url)
  /\ (startswith (link_type meta) (u "detail") = true -> url = detail).
Proof.
  unfold _pick_best_go_link.
  destruct (parse_detail env html) as [soup|e]; [|intros; discriminate].
  destruct (meta_link env (table_rows soup) detail) as [[[v label]|]|e] eqn:M;
    [| |intros; discriminate].
  { intros H; inversion H; subst; rewrite typed_link_type.
    split; [right; now apply (meta_link_usable _ _ _ _ Hb M)|discriminate]. }
  destruct (body soup) as [anchors|].
  - destruct (candidates env _ _ anchors detail) as [cs|e] eqn:C; [|intros; discriminate].
    destruct (sort_desc cs) as [|[[sc v] txt] rest] eqn:Srt.
    + destruct (first_document env (attachments soup) detail) as [[v|]|e] eqn:F;
        [| |intros; discriminate]; intros H; inversion H; subst; rewrite typed_link_type.
      * split; [right; now apply (first_document_usable _ _ _ Hb F)|discriminate].
      * split; [now left|reflexivity].
    + intros H; inversion H; subst; rewrite typed_link_type.
      split; [right|discriminate].
      apply (candidates_usable _ _ _ _ Hb cs C sc url txt), In_sort_desc.
      rewrite Srt; now left.
  - destruct (first_document env (attachments soup) detail) as [[v|]|e] eqn:F;
      [| |intros; discriminate]; intros H; inversion H; subst; rewrite typed_link_type.
    + split; [right; now apply (first_document_usable _ _ _ Hb F)|discriminate].
    + split; [now left|reflexivity].
Qed.

Lemma first_valid_found cs detail : forall log url txt vm log',
  first_valid env depth cs detail log = (Ok (Some (url, txt, vm)), log') ->
  (exists sc, In (sc, url, txt) cs)
  /\ exists log0, verdict (_validate_link env depth url detail log0) = true.
Proof.
  induction cs as [|[[sc u0] t0] rest IH]; cbn [first_valid];
    intros log url txt vm log' H;
    [intros; discriminate|].
  destruct (_validate_link env depth u0 detail log) as [[[[|] vm0]|e] l1] eqn:V.
  - inversion H; subst; split; [exists sc; now left|].
    exists log; unfold verdict; now rewrite V.
  - apply IH in H as [(sc' & Hin) Hv]; split; [exists sc'; now right|exact Hv].
  - discriminate.
Qed.

Lemma link_type_set_field m k v :
  str_eqb k (u "go_link_type") = false -> link_type (set_field m k v) = link_type m.
Proof.
  intros N; unfold link_type, set_field, get_or; simpl.
  now rewrite dict_get_set_other.
Qed.

Lemma link_type_set_type m v : link_type (set_field m (u "go_link_type") v) = v.
Proof.
  unfold link_type, set_field, get_or; simpl. now rewrite dict_get_set_same.
Qed.

Lemma detail_candidate_spec detail log html cand meta log' (Hb : collector_base env detail) :
  detail_candidate env detail log = ((html, (cand, meta)), log') ->
  (cand = detail \/ usable cand)
  /\ (startswith (link_type meta) (u "detail") = true -> cand = detail).
Proof.
  unfold detail_candidate.
  destruct (send env GET detail [] log) as [[dr|e] l1];
    [|intros H; inversion H; subst; split; [now left|reflexivity]].
  destruct (raise_for_status dr) as [[]|e];
    [|intros H; inversion H; subst; split; [now left|reflexivity]].
  destruct (_pick_best_go_link env (text dr) detail) as [[c m]|e] eqn:P;
    intros H; inversion H; subst; [|split; [now left|reflexivity]].
  exact (pick_best_spec _ _ _ _ Hb P).
Qed.

(** A link that was validated, can be used and is not an internal
    placeholder. *)
Local Abbreviation validated detail go :=
  ((exists log0, verdict (_validate_link env depth go detail log0) = true)
   /\ usable go /\ _looks_like_khidi_placeholder env go = false).

Lemma fallback_link_spec detail cand meta vm html log go meta' log'
      (Hb : collector_base env detail) :
  fallback_link env depth detail cand meta vm html log = (Ok (go, meta'), log') ->
  go = detail
  \/ (validated detail go /\ startswith (link_type meta') (u "detail") = false).
Proof.
  unfold fallback_link.
  destruct (parse_detail env html) as [soup|e]; [|intros; discriminate].
  set (kb := fun url a => negb (str_eqb url cand) && (0 <? _score_anchor env a)%Z).
  set (kf := fun url (_ : Anchor) => negb (str_eqb url cand)).
  destruct (match body soup with
            | Some anchors => candidates env kb (_score_anchor env) anchors detail
            | None => Ok []
            end) as [from_body|e] eqn:B;
    [|destruct (candidates env kf (fun _ => 3%Z) (attachments soup) detail);
      intros; discriminate].
  destruct (candidates env kf (fun _ => 3%Z) (attachments soup) detail)
    as [from_files|e] eqn:F; [|intros; discriminate].
  destruct (first_valid env depth _ detail log) as [[[[[alt txt] vm2]|]|e] l1] eqn:V;
    [| |intros; discriminate].
  - destruct (negb (nonempty alt) || _looks_like_khidi_placeholder env alt) eqn:K;
      intros H; inversion H; subst; [now left|right].
    apply orb_false_iff in K as [_ K].
    apply first_valid_found in V as [(sc & Hin) Hv].
    apply In_firstn, In_sort_desc, in_app_or in Hin.
    split; [split; [exact Hv|split; [|exact K]]|].
    + destruct Hin as [Hin|Hin].
      * destruct (body soup) as [anchors|]; [|inversion B; subst; destruct Hin].
        exact (candidates_usable _ _ _ _ Hb _ B _ _ _ Hin).
      * exact (candidates_usable _ _ _ _ Hb _ F _ _ _ Hin).
    + unfold fallback_meta, set_validation, link_type; cbn [fields].
      fold (link_type (set_field (set_field meta (u "go_link_type") (u "fallback:" ++ firstn 30 txt))
                                 (u "fallback_from") cand)).
      rewrite link_type_set_field by reflexivity.
      rewrite link_type_set_type. reflexivity.
  - intros H; inversion H; subst; now left.
Qed.

Lemma direct_link_spec detail cand meta ok vm go meta' :
  direct_link env detail cand meta ok vm = (go, meta') ->
  go = detail
  \/ (go = cand /\ ok = true /\ _looks_like_khidi_placeholder env go = false
      /\ link_type meta' = link_type meta).
Proof.
  unfold direct_link.
  destruct (ok && negb (_looks_like_khidi_placeholder env cand)) eqn:K;
    intros H; inversion H; subst; [right|now left].
  apply andb_true_iff in K as [K1 K2]; apply negb_true_iff in K2.
  repeat split; auto.
Qed.

(** The link that the loop body settles on is the detail URL, or a
    validated, usable link that is not an internal placeholder and whose
    type does not start with "detail". *)
Lemma resolve_row_spec tr log r log' :
  resolve_row env depth tr log = (Ok (Some r), log') ->
  collector_base env (r_detail_href r)
  /\ (r_go_link r = r_detail_href r
      \/ (validated (r_detail_href r) (r_go_link r)
          /\ startswith (link_type (r_meta r)) (u "detail") = false)).
Proof.
  unfold resolve_row.
  destruct (view tr) as [[title a_href]|]; [|intros; discriminate].
  destruct (urljoin env BASE a_href) as [detail|e] eqn:U; [|intros; discriminate].
  destruct (_norm_date env (nth_error (cells tr) 3)) as [reg|e]; [|intros; discriminate].
  assert (Hb : collector_base env detail) by (now exists a_href).
  destruct (detail_candidate env detail log) as [[html [cand meta]] l1] eqn:D.
  apply (detail_candidate_spec _ _ _ _ _ _ Hb) in D as [Dc Dt].
  destruct (_validate_link env depth cand detail l1) as [[[ok vm]|e] l2] eqn:V;
    [|intros; discriminate].
  destruct (negb ok && nonempty html) eqn:G.
  - destruct (fallback_link env depth detail cand meta vm html l2) as [[[go m]|e] l3] eqn:Fb;
      [|intros; discriminate].
    intros H; inversion H; subst; cbn.
    split; [exact Hb|]. exact (fallback_link_spec _ _ _ _ _ _ _ _ _ Hb Fb).
  - destruct (direct_link env detail cand meta ok vm) as [go m] eqn:Dl.
    intros H; inversion H; subst; cbn.
    split; [exact Hb|].
    apply direct_link_spec in Dl as [->|(-> & -> & Hp & Ht)]; [now left|].
    destruct (startswith (link_type meta) (u "detail")) eqn:T; [left; now apply Dt|].
    destruct Dc as [->|Hu]; [now left|right].
    split; [split; [|split; [exact Hu|exact Hp]]|now rewrite Ht].
    exists l1; unfold verdict; now rewrite V.
Qed.

Lemma no_original_genuine tr log r log' :
  resolve_row env depth tr log = (Ok (Some r), log') ->
  if _no_original env r
  then ~ genuine_link env depth (r_detail_href r) (r_go_link r)
  else genuine_link env depth (r_detail_href r) (r_go_link r).
Proof.
  intros H; apply resolve_row_spec in H as [_ H].
  unfold _no_original; fold (link_type (r_meta r)).
  destruct (str_eqb (r_go_link r) (r_detail_href r)) eqn:E; cbn [orb].
  { apply str_eqb_eq in E; intros (_ & N & _); now apply N. }
  destruct H as [H|((V & (_ & P) & K) & T)].
  { rewrite H, str_eqb_refl in E; discriminate. }
  rewrite K, T; cbn [orb].
  repeat split; auto.
  intros Heq; rewrite Heq, str_eqb_refl in E; discriminate.
Qed.

(** The decision for one row: appended with a genuine link, or left out
    of the output and, when the log file can be written, logged. *)
Lemma process_row_decision tr st r log :
  resolve_row env depth tr (requests st) = (Ok (Some r), log) ->
  exists st', process_row env depth tr st = Ok st'
    /\ (genuine_link env depth (r_detail_href r) (r_go_link r) /\ appended r st st'
        \/ ~ genuine_link env depth (r_detail_href r) (r_go_link r)
           /\ out st' = out st
           /\ (skip_log_writable env = true -> skipped_and_logged r st st')).
Proof.
  intros H; pose proof (no_original_genuine _ _ _ _ H) as G.
  unfold process_row; rewrite H.
  eexists; split; [reflexivity|].
  unfold emit_row; destruct (_no_original env r); [right|left]; (split; [exact G|]).
  - split; [reflexivity|]. intros W; split; [reflexivity|].
    unfold _log_skip; rewrite W; cbn [skipped].
    eexists; split; [reflexivity|]; cbn; auto.
  - split; [|reflexivity]. cbn [out].
    eexists; split; [reflexivity|]; cbn; auto.
Qed.

Lemma grown_refl st st' :
  out st' = out st -> skipped st' = skipped st -> grown env depth st st'.
Proof.
  intros Ho Hs; split; exists []; rewrite app_nil_r; (split; [assumption|intros ? []]).
Qed.

Lemma grown_trans a b c :
  grown env depth a b -> grown env depth b c -> grown env depth a c.
Proof.
  intros [(n1 & O1 & G1) (k1 & S1 & N1)] [(n2 & O2 & G2) (k2 & S2 & N2)].
  split; [exists (n1 ++ n2)|exists (k1 ++ k2)];
    (split; [now rewrite app_assoc; congruence|]);
    intros x Hx; apply in_app_or in Hx as [Hx|Hx]; auto.
Qed.

Lemma process_row_grown tr st st' :
  process_row env depth tr st = Ok st' -> grown env depth st st'.
Proof.
  unfold process_row.
  destruct (resolve_row env depth tr (requests st)) as [[[r|]|e] log] eqn:R;
    intros H; inversion H; subst; [|now apply grown_refl].
  pose proof (no_original_genuine _ _ _ _ R) as G.
  unfold emit_row; destruct (_no_original env r); split; cbn [out skipped].
  - exists []; rewrite app_nil_r; split; [reflexivity|intros ? []].
  - unfold _log_skip; destruct (skip_log_writable env).
    + eexists; split; [reflexivity|]. intros e [<-|[]]; exact G.
    + exists []; rewrite app_nil_r; split; [reflexivity|intros ? []].
  - eexists; split; [reflexivity|]. intros n [<-|[]]; exact G.
  - exists []; rewrite app_nil_r; split; [reflexivity|intros ? []].
Qed.

Lemma process_rows_grown trs : forall st st',
  process_rows env depth trs st = Ok st' -> grown env depth st st'.
Proof.
  induction trs as [|tr rest IH]; cbn [process_rows]; intros st st' H.
  - inversion H; subst; now apply grown_refl.
  - destruct (process_row env depth tr st) as [st1|e] eqn:P; [|discriminate].
    exact (grown_trans _ _ _ (process_row_grown _ _ _ P) (IH _ _ H)).
Qed.

Lemma process_pages_grown rows count : forall page st st',
  process_pages env depth rows count page st = Ok st' -> grown env depth st st'.
Proof.
  induction count as [|count IH]; cbn [process_pages]; intros pg st st' H.
  - inversion H; subst; now apply grown_refl.
  - destruct (urljoin env BASE LIST_PATH) as [list_url|e]; [|discriminate].
    destruct (send env GET _ [] (requests st)) as [[r|e] log]; [|discriminate].
    destruct (raise_for_status r) as [[]|e]; [|discriminate].
    destruct (process_rows env depth _ _) as [st1|e] eqn:P; [|discriminate].
    apply process_rows_grown in P; apply IH in H.
    refine (grown_trans _ _ _ _ H).
    refine (grown_trans _ _ _ _ P). now apply grown_refl.
Qed.

Lemma In_insert_by_date x y l : In y (insert_by_date env x l) -> y = x \/ In y l.
Proof.
  induction l as [|z l IH]; simpl; [intros [->|[]]; auto|].
  destruct (date_key env x <? date_key env z)%Z; simpl; intuition.
Qed.

Lemma In_sorted_by_date y l : In y (fold_right (insert_by_date env) [] l) -> In y l.
Proof.
  induction l as [|x l IH]; simpl; [tauto|].
  intros H; apply In_insert_by_date in H as [->|H]; auto.
Qed.

Lemma fetch_grown max_pages rows skip_log notices st :
  fetch_khidi_events env depth max_pages rows skip_log = Ok (notices, st) ->
  (forall n, In n notices -> genuine_link env depth (n_detail_url n) (n_link n))
  /\ exists new, skipped st = skip_log ++ new
       /\ forall e, In e new ->
            ~ genuine_link env depth (k_detail_url e) (k_final_go_link e).
Proof.
  unfold fetch_khidi_events.
  destruct (process_pages env depth rows max_pages 1 _) as [st1|e] eqn:P; [|discriminate].
  intros H; inversion H; subst.
  apply process_pages_grown in P as [(new & O & G) K]; cbn [out skipped] in *.
  split; [|exact K].
  intros n Hn; apply In_sorted_by_date in Hn. rewrite O in Hn. now apply G.
Qed.
End CollectorFacts.

(** ** The example site satisfies the assumption on [urljoin] *)

Lemma lstrip_idem s : lstrip (lstrip s) = lstrip s.
Proof.
  destruct (lstrip_spec s) as (_ & _ & _ & [E|(x & r & E & C)]); rewrite E; simpl; auto.
  now rewrite C.
Qed.

Lemma rstrip_idem s : rstrip (rstrip s) = rstrip s.
Proof.
  unfold rstrip; now rewrite rev_involutive, lstrip_idem.
Qed.

Lemma strip_idem s : strip (strip s) = strip s.
Proof.
  unfold strip.
  destruct (lstrip_spec s) as (_ & _ & _ & [E|(x & r & E & C)]); rewrite E; [reflexivity|].
  destruct (rstrip_cons_solid x r C) as [b Eb].
  rewrite Eb; simpl; rewrite C, <- Eb. apply rstrip_idem.
Qed.

Lemma site_url_kept (t : str) : _is_placeholder_href site_world (Some (104%N :: t)) = false.
Proof.
  unfold _is_placeholder_href, strip.
  destruct (rstrip_cons_solid 104%N t eq_refl) as [b E].
  change (rstrip (lstrip (104%N :: t))) with (rstrip (@cons char 104%N t)).
  rewrite E. reflexivity.
Qed.

Lemma site_join : urljoin_keeps_links site_world.
Proof.
  intros base h v _ P U V; cbn in U; unfold urljoin_site in U.
  destruct (after_scheme (strip h)); inversion U; subst; clear U.
  - destruct h as [|c h]; [discriminate|].
    unfold _is_placeholder_href in *.
    destruct (strip (c :: h)) as [|c' t] eqn:E; [discriminate|].
    rewrite <- E, strip_idem, E. exact P.
  - apply site_url_kept.
Qed.



(** * Properties of the helpers and the callers *)

Lemma inc_pts_bounds rt hay : (0 <= inc_pts rt hay <= 4)%Z.
Proof. unfold inc_pts; destruct (inc_of rt hay); [lia|apply pts_bounds]. Qed.

Lemma exc_pts_bounds rt hay : (0 <= exc_pts rt hay <= 4)%Z.
Proof. unfold exc_pts; destruct (exc_of rt hay); [lia|apply pts_bounds]. Qed.

Lemma score_bounds rt meta extra : (-4 <= fst (score_notice rt meta extra) <= 8)%Z.
Proof.
  rewrite score_notice_sum; cbv zeta.
  pose proof (inc_pts_bounds rt (hay_of rt meta extra)).
  pose proof (exc_pts_bounds rt (hay_of rt meta extra)).
  unfold agency_pts, context_pts, penalty_pts.
  destruct (is_primary meta), (is_secondary meta), (has_context rt _),
    (nonempty_list _); cbn [andb negb]; lia.
Qed.

(** X1 (score_notice): whatever the notice and the extra text, the score lies
    between -4 and 8, and both bounds are reached: 8 by a notice of a primary
    agency with four health keywords and a context word, -4 by a notice with
    four keywords of other industries. *)
Theorem score_notice_range :
  (forall rt meta extra_text, (-4 <= fst (score_notice rt meta extra_text) <= 8)%Z)
  /\ fst (score_notice rt0 best_notice []) = 8%Z
  /\ fst (score_notice rt0 worst_notice []) = (-4)%Z.
Proof.
  split; [exact score_bounds|split; vm_compute; reflexivity].
Qed.

Lemma interesting_eq rt meta extra t :
  is_interesting_for_association rt meta extra t
  = ((t <=? fst (score_notice rt meta extra))%Z, fst (score_notice rt meta extra),
     snd (score_notice rt meta extra)).
Proof.
  unfold is_interesting_for_association.
  destruct (score_notice rt meta extra); reflexivity.
Qed.

Lemma counts_pts rt (ms : list str) :
  Forall (fun m => nonempty m = true) ms ->
  counts (match ms with [] => 0 | m :: l => pts (uniq_lower rt (m :: l)) end)%Z
  = if nonempty_list ms then 1%nat else 0%nat.
Proof.
  intros F; destruct ms as [|m ms]; [reflexivity|].
  destruct (uniq_lower_nonempty rt _ F) as [_ [N _]].
  unfold counts, pts; cbn [nonempty_list].
  destruct (uniq_lower rt (m :: ms)) as [|x l]; [specialize (N eq_refl); discriminate|].
  cbn [length]. destruct (Z.min 4 (Z.of_nat (S (length l))) =? 0)%Z eqn:E; [|reflexivity].
  apply Z.eqb_eq in E; lia.
Qed.

(** X2 (score_notice): the list of reasons has one entry for each of the
    contributions (agency, health keywords, excluded keywords, context,
    penalty) that is not zero; it never has more than four entries, and a
    notice without any reason has the score 0. *)
Theorem reasons_match_contributions (rt : Runtime) (meta : dict) (extra_text : str) :
  let hay := hay_of rt meta extra_text in
  let reasons := snd (score_notice rt meta extra_text) in
  length reasons
  = (counts (agency_pts meta) + counts (inc_pts rt hay) + counts (exc_pts rt hay)
     + counts (context_pts rt hay) + counts (penalty_pts rt meta hay))%nat
  /\ (length reasons <= 4)%nat
  /\ (length reasons = 0%nat -> fst (score_notice rt meta extra_text) = 0%Z).
Proof.
  intros hay reasons.
  assert (L : length reasons
              = (counts (agency_pts meta) + counts (inc_pts rt hay) + counts (exc_pts rt hay)
                 + counts (context_pts rt hay) + counts (penalty_pts rt meta hay))%nat).
  { subst reasons.
    assert (Ci : counts (inc_pts rt hay) = if nonempty_list (inc_of rt hay) then 1%nat else 0%nat)
      by exact (counts_pts rt _ (@finditer_nonempty (casefold rt) inc_regex hay inc_productive)).
    assert (Ce : counts (exc_pts rt hay) = if nonempty_list (exc_of rt hay) then 1%nat else 0%nat)
      by exact (counts_pts rt _ (@finditer_nonempty (casefold rt) exc_regex hay exc_productive)).
    rewrite Ci, Ce; clear Ci Ce.
    unfold score_notice, agency_pts, context_pts, penalty_pts; fold hay.
    fold (inc_of rt hay); fold (exc_of rt hay).
    destruct (is_primary meta), (is_secondary meta), (inc_of rt hay), (exc_of rt hay),
      (has_context rt hay); reflexivity. }
  split; [exact L|].
  pose proof (score_notice_sum rt meta extra_text) as S; cbv zeta in S; fold hay in S.
  pose proof (inc_pts_bounds rt hay). pose proof (exc_pts_bounds rt hay).
  revert L S; unfold counts, agency_pts, context_pts, penalty_pts.
  generalize (length reasons); intros n.
  assert (Z0 : nonempty_list (inc_of rt hay) = false -> inc_pts rt hay = 0%Z)
    by (unfold inc_pts; destruct (inc_of rt hay); [reflexivity|discriminate]).
  destruct (is_primary meta), (is_secondary meta), (has_context rt hay),
    (nonempty_list (inc_of rt hay)); cbn [andb negb Z.eqb];
    destruct (Z.eqb_spec (inc_pts rt hay) 0), (Z.eqb_spec (exc_pts rt hay) 0);
    intros L S; split; try lia; specialize (Z0 eq_refl); lia.
Qed.

(** ** Helpers of the collector *)

Lemma lstrip_all_space s : forallb is_space s = true -> lstrip s = [].
Proof.
  induction s as [|c s IH]; simpl; auto.
  intros H; apply andb_true_iff in H as [-> H]; auto.
Qed.

Lemma rstrip_app_space y w : forallb is_space w = true -> rstrip (y ++ w) = rstrip y.
Proof.
  intros W; unfold rstrip; rewrite rev_app_distr, lstrip_app_space; auto.
  now rewrite forallb_rev.
Qed.

Lemma strip_pad w1 h w2 :
  forallb is_space w1 = true -> forallb is_space w2 = true ->
  strip (w1 ++ h ++ w2) = strip h.
Proof.
  intros W1 W2; unfold strip; rewrite lstrip_app_space by exact W1.
  destruct (lstrip_spec h) as (w0 & E & W0 & [L|(x & r & L & C)]).
  - rewrite L. rewrite L, app_nil_r in E; subst h.
    rewrite lstrip_all_space; [reflexivity|].
    now rewrite forallb_app, W0, W2.
  - rewrite (lstrip_app_solid h w2 x r L). now apply rstrip_app_space.
Qed.

(** X3 (_is_placeholder_href): white space around an href does not change the
    verdict, provided [str.lower] maps the empty text to itself. *)
Theorem placeholder_href_ignores_padding (env : Env) (w1 h w2 : str) :
  py_lower (rt env) [] = [] ->
  forallb is_space w1 = true -> forallb is_space w2 = true ->
  _is_placeholder_href env (Some (w1 ++ h ++ w2)) = _is_placeholder_href env (Some h).
Proof.
  intros L0 W1 W2.
  assert (B : forall x, _is_placeholder_href env (Some x)
                        = let s := lower env (strip x) in
                          str_in s PLACEHOLDER_HREFS || str_eqb s (u "#")
                          || existsb (startswith s) [u "javascript:"; u "mailto:"; u "tel:"]).
  { intros [|c x]; [|reflexivity].
    cbv zeta; unfold lower; change (strip []) with (@nil char); rewrite L0; reflexivity. }
  rewrite !B; cbv zeta. now rewrite strip_pad.
Qed.

Lemma placeholder_href_ignores_padding_witness :
  _is_placeholder_href (world []) (Some (u "  " ++ u "JavaScript:void(0)" ++ u " "))
  = _is_placeholder_href (world []) (Some (u "JavaScript:void(0)"))
  /\ _is_placeholder_href (world []) (Some (u "JavaScript:void(0)")) = true.
Proof.
  split; [|reflexivity].
  apply (placeholder_href_ignores_padding (world []) (u "  ") (u "JavaScript:void(0)") (u " "));
    reflexivity.
Defined.

(** *** [_score_anchor] *)

Lemma keyword_points a :
  let sc := fold_left (fun sc kw => if contains (anchor_text a) (fst kw) then sc + snd kw else sc)%Z
                      _KEYWORD_SCORE 0%Z in
  (0 <= sc <= 19)%Z /\ (sc = 0%Z <-> has_keyword a = false).
Proof.
  unfold has_keyword, _KEYWORD_SCORE; cbn [fold_left existsb fst snd].
  destruct (contains (anchor_text a) (u "신청")), (contains (anchor_text a) (u "바로가기")),
    (contains (anchor_text a) (u "원문")), (contains (anchor_text a) (u "공고문")),
    (contains (anchor_text a) (u "자세히")), (contains (anchor_text a) (u "안내"));
    cbn [orb]; split; try lia; split; intros; try discriminate; try lia; reflexivity.
Qed.

(** X4 (_score_anchor): the score of an anchor lies between 0 and 21; it is 0
    exactly when the text holds no keyword and the anchor does not lead to
    another host, and an anchor to another host without a keyword scores 2. *)
Theorem score_anchor_range (env : Env) (a : Anchor) :
  (0 <= _score_anchor env a <= 21)%Z
  /\ (_score_anchor env a = 0%Z <-> has_keyword a = false /\ external env a = false)
  /\ (has_keyword a = false -> external env a = true -> _score_anchor env a = 2%Z).
Proof.
  pose proof (keyword_points a) as [B Z0]; cbv zeta in B, Z0.
  unfold _score_anchor, external.
  set (sc := fold_left _ _KEYWORD_SCORE 0%Z) in *.
  assert (K : if has_keyword a then sc <> 0%Z else sc = 0%Z).
  { destruct (has_keyword a); [intros E; apply Z0 in E; discriminate|now apply Z0]. }
  clear Z0.
  destruct (urlparse env (href a)) as [[netloc path]|e].
  - fold (lower env netloc).
    destruct (nonempty (lower env netloc) && negb (contains (lower env netloc) (u "khidi.or.kr")));
      destruct (has_keyword a);
      intuition (try discriminate; try lia).
  - destruct (has_keyword a); intuition (try discriminate; try lia).
Qed.

(** *** [_pick_institution] and [_institution_from_list_row] *)

Lemma pick_first (meta : dict) (keys : list str) :
  match find nonempty
             (map (fun key =>
                     let val := strip (get_or meta key []) in
                     if nonempty val && negb (str_in val PLACEHOLDERS) then val else [])
                  keys) with
  | Some v =>
      exists pre key post,
        keys = pre ++ key :: post /\ v = strip (get_or meta key [])
        /\ named (get_or meta key []) = true
        /\ forall k, In k pre -> named (get_or meta k []) = false
  | None => forall k, In k keys -> named (get_or meta k []) = false
  end.
Proof.
  induction keys as [|key keys IH]; cbn [map find]; [intros k []|].
  cbv zeta; fold (named (get_or meta key [])).
  destruct (named (get_or meta key [])) eqn:N.
  - assert (E : nonempty (strip (get_or meta key [])) = true)
      by (unfold named in N; now apply andb_true_iff in N as [N _]).
    rewrite E. exists [], key, keys; repeat split; auto. intros k [].
  - cbn [nonempty].
    destruct (find nonempty _) as [v|].
    + destruct IH as (pre & k0 & post & -> & Ev & Nv & Hpre).
      exists (key :: pre), k0, post; repeat split; auto.
      intros k [<-|Hk]; auto.
    + intros k [<-|Hk]; auto.
Qed.

(** X5 (_pick_institution): the answer is the stripped value of the first key,
    in the order of the key list, whose value is neither blank nor a
    placeholder; it is itself not empty, not a placeholder and stripped.
    Without such a key the answer is [None]. *)
Theorem pick_institution_first_named (meta : dict) :
  match _pick_institution meta with
  | Some v =>
      (exists pre key post,
          INSTITUTION_KEYS = pre ++ key :: post /\ v = strip (get_or meta key [])
          /\ forall k, In k pre -> named (get_or meta k []) = false)
      /\ nonempty v = true /\ str_in v PLACEHOLDERS = false /\ strip v = v
  | None => forall k, In k INSTITUTION_KEYS -> named (get_or meta k []) = false
  end.
Proof.
  pose proof (pick_first meta INSTITUTION_KEYS) as H.
  unfold _pick_institution; fold INSTITUTION_KEYS.
  destruct (find nonempty _) as [v|]; [|exact H].
  destruct H as (pre & key & post & E & -> & N & Hpre).
  split; [now exists pre, key, post|].
  unfold named in N; apply andb_true_iff in N as [N1 N2]; apply negb_true_iff in N2.
  repeat split; auto. apply strip_idem.
Qed.

Lemma collapse_single s : forall b,
  single_spaced (collapse_spaces s b) = true
  /\ (b = true -> match collapse_spaces s b with [] => True | d :: _ => is_space d = false end).
Proof.
  induction s as [|c s IH]; intros b; cbn [collapse_spaces]; [split; auto|].
  destruct (is_space c) eqn:C.
  - destruct b.
    + apply IH.
    + split; [|discriminate].
      destruct (IH true) as [S H]; specialize (H eq_refl).
      cbn [single_spaced]. rewrite S, andb_true_r.
      change (is_space 32) with true; cbn [N.eqb Pos.eqb andb].
      destruct (collapse_spaces s true); [reflexivity|now rewrite H].
  - split; [|intros _; exact C].
    cbn [single_spaced]; rewrite C. apply IH.
Qed.

Lemma single_spaced_suffix a b : single_spaced (a ++ b) = true -> single_spaced b = true.
Proof.
  induction a as [|c a IH]; cbn [app single_spaced]; auto.
  intros H; apply andb_true_iff in H as [_ H]; auto.
Qed.

Lemma single_spaced_prefix a b : single_spaced (a ++ b) = true -> single_spaced a = true.
Proof.
  induction a as [|c a IH]; cbn [app single_spaced]; auto.
  intros H; apply andb_true_iff in H as [H1 H2]. rewrite (IH H2), andb_true_r.
  destruct (is_space c); auto.
  apply andb_true_iff in H1 as [-> H1]; destruct a; auto.
Qed.

Lemma single_spaced_strip s : single_spaced s = true -> single_spaced (strip s) = true.
Proof.
  intros H; unfold strip.
  destruct (lstrip_spec s) as (w0 & E & _).
  destruct (rstrip_spec (lstrip s)) as (w1 & E1 & _).
  rewrite E in H; apply single_spaced_suffix in H.
  rewrite E1 in H; now apply single_spaced_prefix in H.
Qed.

(** X6 (_institution_from_list_row): an institution read from a row of the
    listing is the second cell with every run of white space turned into one
    space and the ends stripped: it is not empty, not a placeholder, stripped
    and single-spaced.  [None] is answered only when the row has fewer than
    two cells or the second cell is blank or a placeholder. *)
Theorem institution_from_list_row_clean (tr : ListRow) :
  match _institution_from_list_row tr with
  | Some v =>
      nonempty v = true /\ str_in v PLACEHOLDERS = false
      /\ strip v = v /\ single_spaced v = true
      /\ exists c0 c1 rest, cells tr = c0 :: c1 :: rest
                            /\ v = strip (collapse_spaces c1 false)
  | None =>
      match cells tr with
      | _ :: c1 :: _ => named (collapse_spaces c1 false) = false
      | _ => True
      end
  end.
Proof.
  unfold _institution_from_list_row.
  destruct (cells tr) as [|c0 [|c1 rest]]; auto.
  cbv zeta; fold (named (collapse_spaces c1 false)).
  destruct (named (collapse_spaces c1 false)) eqn:N; [|reflexivity].
  unfold named in N; apply andb_true_iff in N as [N1 N2]; apply negb_true_iff in N2.
  repeat split; auto.
  - apply strip_idem.
  - apply single_spaced_strip, collapse_single.
  - now exists c0, c1, rest.
Qed.

(** *** The requests of [_validate_link] *)

Lemma get_step_trace env ref recurse url meta log :
  (forall nxt l, exists new, snd (recurse nxt l) = l ++ new /\ head_get_pairs ref new = true) ->
  exists rest, snd (get_step env recurse url ref meta log) = log ++ get_request url ref :: rest
               /\ head_get_pairs ref rest = true.
Proof.
  intros Hrec; unfold get_step, send; cbv zeta. fold (get_request url ref).
  assert (One : exists rest, log ++ [get_request url ref] = log ++ get_request url ref :: rest
                             /\ head_get_pairs ref rest = true)
    by (exists []; split; reflexivity).
  destruct (server env log _) as [gr|e]; [|exact One].
  destruct (ok_status 200 400 gr && _looks_like_ok_content env gr); [|exact One].
  destruct (is_html env gr); [|exact One].
  destruct (_follow_meta_refresh env _ _) as [[nxt|]|e]; try exact One.
  destruct (nonempty nxt && negb (str_eqb nxt (resp_url gr))); [|exact One].
  destruct (Hrec nxt (log ++ [get_request url ref])) as (new & E & P).
  destruct (recurse nxt (log ++ [get_request url ref])) as [[[ok2 m2]|e] l2];
    cbn [snd] in *; subst l2; exists new; rewrite <- app_assoc; split; auto.
Qed.

Lemma validate_trace env ref d : forall url log,
  exists new, snd (_validate_link env d url ref log) = log ++ new
              /\ head_get_pairs ref new = true
              /\ (nonempty url = false -> new = [])
              /\ (nonempty url = true -> d <> 0%nat ->
                  exists rest, new = head_request url ref :: rest).
Proof.
  induction d as [|d IH]; intros url log.
  - exists []; rewrite app_nil_r; repeat split; auto. intros _ N; now elim N.
  - cbn [_validate_link]; unfold send; fold (head_request url ref).
    destruct (nonempty url) eqn:U; cbn [negb].
    2:{ exists []; rewrite app_nil_r; repeat split; auto. discriminate. }
    assert (G : forall meta, exists new,
                 snd (get_step env (fun nxt => _validate_link env d nxt ref) url ref meta
                               (log ++ [head_request url ref])) = log ++ new
                 /\ head_get_pairs ref new = true
                 /\ (true = false -> new = [])
                 /\ (true = true -> S d <> 0%nat ->
                     exists rest, new = head_request url ref :: rest)).
    { intros meta.
      destruct (get_step_trace env ref (fun nxt => _validate_link env d nxt ref) url meta
                               (log ++ [head_request url ref])) as (rest & E & P).
      { intros nxt l; destruct (IH nxt l) as (new & E & P & _); now exists new. }
      exists (head_request url ref :: get_request url ref :: rest).
      rewrite E, <- app_assoc. repeat split; auto; try discriminate.
      - cbn [head_get_pairs head_request get_request method target referer].
        now rewrite !str_eqb_refl, P.
      - intros _ _; now eexists. }
    destruct (server env log _) as [hr|e]; [|apply G].
    destruct (ok_status 200 300 hr); [|apply G].
    exists [head_request url ref]; repeat split; auto; try discriminate.
    + cbn [head_get_pairs head_request method referer]. now rewrite str_eqb_refl.
    + intros _ _; now eexists.
Qed.

Lemma pairs_referer ref : forall n l, (length l <= n)%nat ->
  head_get_pairs ref l = true -> forall rq, In rq l -> referer rq = ref.
Proof.
  induction n as [|n IH]; intros [|h [|g rest]] L P rq Hin; cbn [length] in L; try lia.
  - destruct Hin.
  - destruct Hin.
  - destruct Hin as [<-|[]].
    cbn [head_get_pairs] in P. apply andb_true_iff in P as [P _].
    apply andb_true_iff in P as [_ P]. now apply str_eqb_eq.
  - cbn [head_get_pairs] in P; apply andb_true_iff in P as [P Q].
    apply andb_true_iff in P as [_ P].
    apply andb_true_iff in Q as [Q R]. apply andb_true_iff in Q as [Q1 Q2].
    destruct Hin as [<-|[<-|Hin]]; try now apply str_eqb_eq.
    apply (IH rest); auto; lia.
Qed.

(** X7 (_validate_link): a validation only appends to the request log.  What it
    appends is a sequence of HEAD requests, each possibly followed by a GET
    request for the same URL, all with the given Referer; nothing is sent for
    an empty URL, and otherwise the first request is the HEAD request for the
    URL itself. *)
Theorem validate_link_request_discipline (env : Env) (depth : nat) (url ref : str)
        (log : list Request) :
  exists new,
    snd (_validate_link env depth url ref log) = log ++ new
    /\ head_get_pairs ref new = true
    /\ (forall rq, In rq new -> referer rq = ref)
    /\ (nonempty url = false -> new = [])
    /\ (nonempty url = true -> depth <> 0%nat ->
        exists rest, new = head_request url ref :: rest).
Proof.
  destruct (validate_trace env ref depth url log) as (new & E & P & N & H).
  exists new; repeat split; auto.
  exact (pairs_referer ref (length new) new (le_n _) P).
Qed.

(** *** The target of a meta-refresh *)

Lemma denote_no_group fold r : forall s cs s' cs',
  no_group r = true -> denote fold r s cs s' cs' -> cs' = cs.
Proof.
  induction r as [|c0|p|r1 IHr1 r2 IHr2|r1 IHr1 r2 IHr2|p|r IHr|r IHr|r IHr|];
    cbn [no_group denote]; intros s cs s' cs' N D.
  - now destruct D.
  - now destruct D as (x & _ & _ & ->).
  - now destruct D as (x & _ & _ & ->).
  - apply andb_true_iff in N as [N1 N2]. destruct D as (s1 & c1 & D1 & D2).
    apply IHr1 in D1; auto; subst c1. eapply IHr2; eauto.
  - apply andb_true_iff in N as [N1 N2]. destruct D as [D|D]; eauto.
  - now destruct D as (w & _ & _ & ->).
  - destruct D as [D|[_ ->]]; eauto.
  - discriminate.
  - now destruct D.
  - now destruct D as (_ & -> & _).
Qed.

Lemma denote_seq_skip fold a b s cs s' cs' :
  no_group a = true -> denote fold (Seq a b) s cs s' cs' ->
  exists pre s1, s = pre ++ s1 /\ denote fold b s1 cs s' cs'.
Proof.
  intros N (s1 & c1 & D1 & D2).
  pose proof (denote_no_group fold a s cs s1 c1 N D1); subst c1.
  apply denote_suffix in D1 as (pre & ->). now exists pre, s1.
Qed.

Lemma lstrip_chars_solid p g :
  match g with [] => True | c :: _ => p c = false end -> lstrip_chars p g = g.
Proof. destruct g as [|c g]; cbn; auto. now intros ->. Qed.

Lemma strip_chars_free p g :
  forallb (fun c => negb (p c)) g = true -> strip_chars p g = g.
Proof.
  intros F; unfold strip_chars, rstrip_chars.
  rewrite (lstrip_chars_solid p g).
  2:{ destruct g as [|c g]; auto. cbn in F. apply andb_true_iff in F as [F _].
      now apply negb_true_iff. }
  rewrite lstrip_chars_solid; [apply rev_involutive|].
  rewrite <- forallb_rev in F. destruct (rev g) as [|c r]; auto.
  cbn in F. apply andb_true_iff in F as [F _]. now apply negb_true_iff.
Qed.

Lemma url_char_no_quote g :
  forallb url_char g = true -> forallb (fun c => negb (is_quote c)) g = true.
Proof.
  intros F; rewrite forallb_forall in *; intros c Hc; specialize (F c Hc).
  unfold url_char, is_quote in *.
  apply negb_true_iff in F; apply negb_true_iff.
  destruct (c =? 34)%N, (c =? 39)%N; cbn in *; congruence.
Qed.

(** X8 (_follow_meta_refresh): a URL that is answered is [urljoin] of the base
    with a stripped piece of the page: the piece is a non-empty run of
    characters other than quotes, [>] and [;] (so a target is cut at its
    first semicolon), and it is not a placeholder href. *)
Theorem follow_meta_refresh_target (env : Env) (html base v : str) :
  _follow_meta_refresh env html base = Ok (Some v) ->
  exists pre target post,
    html = pre ++ target ++ post
    /\ nonempty target = true /\ forallb url_char target = true
    /\ _is_placeholder_href env (Some target) = false
    /\ urljoin env base (strip target) = Ok v.
Proof.
  unfold _follow_meta_refresh.
  destruct (search (casefold (rt env)) meta_refresh_regex html) as [m|] eqn:S;
    [|intros; discriminate].
  apply search_sound in S as (pre & t & s' & -> & D & _).
  unfold meta_refresh_regex in D.
  repeat match type of D with
         | denote _ (Seq _ _) _ _ _ _ =>
             apply denote_seq_skip in D; [|reflexivity];
             let p := fresh "p" in let s1 := fresh "s" in destruct D as (p & s1 & -> & D)
         end.
  destruct D as (c1 & (s1 & c2 & (x & -> & X & ->) & (w & -> & W & ->)) & ->).
  replace (consumed (x :: w ++ s') s') with (x :: w)
    by (symmetry; apply (consumed_app (x :: w) s')).
  cbn [nth app groups].
  assert (F : forallb url_char (x :: w) = true) by (cbn; now rewrite X, W).
  rewrite (strip_chars_free is_quote (x :: w) (url_char_no_quote _ F)).
  unfold _safe_abs_url.
  destruct (_is_placeholder_href env _) eqn:P; [intros; discriminate|].
  destruct (urljoin env base _) as [v'|e] eqn:U; [|intros; discriminate].
  intros H; inversion H; subst v'.
  rewrite !app_assoc.
  eexists; exists (x :: w), s'; split; [reflexivity|]. repeat split; auto.
Qed.

Lemma follow_meta_refresh_target_witness :
  _follow_meta_refresh (world []) refresh_page (u "https://e.example/a")
  = Ok (Some (u "https://e.example/event/view?id=7"))
  /\ exists pre target post,
       refresh_page = pre ++ target ++ post /\ nonempty target = true
       /\ forallb url_char target = true
       /\ _is_placeholder_href (world []) (Some target) = false
       /\ urljoin (world []) (u "https://e.example/a") (strip target)
          = Ok (u "https://e.example/event/view?id=7").
Proof.
  split; [reflexivity|].
  apply (follow_meta_refresh_target (world []) refresh_page (u "https://e.example/a")).
  reflexivity.
Defined.

(** *** The link chosen by [_pick_best_go_link] *)

Lemma candidates_sound env keep score anchors base : forall cs,
  candidates env keep score anchors base = Ok cs ->
  forall sc url txt, In (sc, url, txt) cs ->
  exists a, In a anchors /\ sc = score a /\ txt = anchor_text a
            /\ _safe_abs_url env (Some (href a)) base = Ok (Some url)
            /\ nonempty url = true /\ keep url a = true.
Proof.
  induction anchors as [|a rest IH]; cbn [candidates]; intros cs H sc url txt Hin.
  - inversion H; subst; destruct Hin.
  - destruct (_safe_abs_url env (Some (href a)) base) as [o|e] eqn:S; [|discriminate].
    destruct (candidates env keep score rest base) as [cs'|e]; [|discriminate].
    assert (R : In (sc, url, txt) cs' ->
                exists a0, In a0 (a :: rest) /\ sc = score a0 /\ txt = anchor_text a0
                           /\ _safe_abs_url env (Some (href a0)) base = Ok (Some url)
                           /\ nonempty url = true /\ keep url a0 = true).
    { intros Hc; destruct (IH _ eq_refl sc url txt Hc) as (a0 & I & R).
      exists a0; split; [now right|exact R]. }
    destruct o as [v|]; [|inversion H; subst; auto].
    destruct (nonempty v && keep v a) eqn:K; inversion H; subst; auto.
    destruct Hin as [E|Hin]; auto. inversion E; subst.
    apply andb_true_iff in K as [K1 K2]. exists a; repeat split; auto. now left.
Qed.

Lemma candidates_complete env keep score anchors base : forall cs,
  candidates env keep score anchors base = Ok cs ->
  forall a url, In a anchors ->
    _safe_abs_url env (Some (href a)) base = Ok (Some url) ->
    nonempty url = true -> keep url a = true ->
    In (score a, url, anchor_text a) cs.
Proof.
  induction anchors as [|a0 rest IH]; cbn [candidates]; intros cs H a url Hin S N K;
    [destruct Hin|].
  destruct (_safe_abs_url env (Some (href a0)) base) as [o|e] eqn:S0; [|discriminate].
  destruct (candidates env keep score rest base) as [cs'|e]; [|discriminate].
  destruct Hin as [->|Hin].
  - rewrite S in S0; inversion S0; subst o. rewrite N, K in H; inversion H; now left.
  - specialize (IH _ eq_refl a url Hin S N K).
    destruct o as [v|]; [|inversion H; subst; auto].
    destruct (nonempty v && keep v a0); inversion H; subst; auto. now right.
Qed.

Lemma cand_lt_score a b :
  (if cand_lt a b then cand_score a <= cand_score b else cand_score b <= cand_score a)%Z.
Proof.
  destruct a as [[a1 a2] a3], b as [[b1 b2] b3]; unfold cand_lt, cand_score; cbn [fst].
  destruct (Z.ltb_spec a1 b1); cbn [orb]; [lia|].
  destruct (Z.eqb_spec a1 b1); cbn [andb]; [|lia].
  destruct (str_lt a2 b2 || str_eqb a2 b2 && str_lt a3 b3); lia.
Qed.

Lemma insert_desc_head x l :
  (forall h r, l = h :: r -> forall y, In y l -> cand_score y <= cand_score h)%Z ->
  forall h r, insert_desc x l = h :: r ->
  forall y, In y (x :: l) -> (cand_score y <= cand_score h)%Z.
Proof.
  intros Hl h r E y Hy. destruct l as [|z l]; cbn [insert_desc] in E.
  - inversion E; subst. destruct Hy as [<-|[]]; lia.
  - pose proof (cand_lt_score x z) as C.
    specialize (Hl z l eq_refl).
    destruct (cand_lt x z); inversion E; subst.
    + destruct Hy as [<-|Hy]; auto.
    + destruct Hy as [<-|Hy]; [lia|]. specialize (Hl y Hy); lia.
Qed.

Lemma insert_desc_In x y l : In y (x :: l) -> In y (insert_desc x l).
Proof.
  induction l as [|z l IH]; cbn [insert_desc]; auto.
  destruct (cand_lt x z); intros [<-|[<-|H]]; cbn; auto.
  - right; apply IH; now left.
  - right; apply IH; now right.
Qed.

Lemma sort_desc_In y l : In y l -> In y (sort_desc l).
Proof.
  induction l as [|x l IH]; [auto|].
  cbn [sort_desc fold_right]; fold (sort_desc l).
  intros [<-|H]; apply insert_desc_In; [now left|right; auto].
Qed.

Lemma sort_desc_head l : forall h r, sort_desc l = h :: r ->
  forall y, In y l -> (cand_score y <= cand_score h)%Z.
Proof.
  induction l as [|x l IH]; intros h r E y Hy; [destruct Hy|].
  cbn [sort_desc fold_right] in E; fold (sort_desc l) in E.
  assert (Hy' : In y (x :: sort_desc l)).
  { destruct Hy as [<-|Hy]; [now left|right; now apply sort_desc_In]. }
  refine (insert_desc_head x (sort_desc l) _ h r E y Hy').
  intros h0 r0 E0 y0 Hy0. apply (IH h0 r0 E0). now apply In_sort_desc.
Qed.

(** X9 (_pick_best_go_link): when the link that is answered comes from the body
    of the page (type [body:...]), it is the absolute URL of an anchor of the
    main content whose score is positive and is the highest among the anchors
    of the content with a usable absolute URL; the type carries the first 30
    characters of the anchor text. *)
Theorem pick_best_body_link_is_top_scored (env : Env) (html detail url : str)
        (meta : RowMeta) :
  _pick_best_go_link env html detail = Ok (url, meta) ->
  startswith (link_type meta) (u "body:") = true ->
  exists soup anchors a,
    parse_detail env html = Ok soup /\ body soup = Some anchors /\ In a anchors
    /\ _safe_abs_url env (Some (href a)) detail = Ok (Some url)
    /\ (0 < _score_anchor env a)%Z
    /\ link_type meta = u "body:" ++ firstn 30 (anchor_text a)
    /\ forall a' url',
         In a' anchors ->
         _safe_abs_url env (Some (href a')) detail = Ok (Some url') ->
         nonempty url' = true ->
         (_score_anchor env a' <= _score_anchor env a)%Z.
Proof.
  unfold _pick_best_go_link.
  destruct (parse_detail env html) as [soup|e]; [|intros; discriminate].
  destruct (meta_link env (table_rows soup) detail) as [[[v label]|]|e] eqn:M;
    [| |intros; discriminate].
  { intros H; inversion H; subst; rewrite typed_link_type. intros; discriminate. }
  destruct (body soup) as [anchors|] eqn:B.
  2:{ destruct (first_document env (attachments soup) detail) as [[v|]|e];
        [| |intros; discriminate]; intros H; inversion H; subst;
        rewrite typed_link_type; intros; discriminate. }
  destruct (candidates env _ _ anchors detail) as [cs|e] eqn:C; [|intros; discriminate].
  destruct (sort_desc cs) as [|[[sc v] txt] rest] eqn:Srt.
  { destruct (first_document env (attachments soup) detail) as [[v|]|e];
      [| |intros; discriminate]; intros H; inversion H; subst;
      rewrite typed_link_type; intros; discriminate. }
  intros H _; inversion H; subst; clear H. rewrite typed_link_type.
  assert (Hin : In (sc, url, txt) cs) by (apply In_sort_desc; rewrite Srt; now left).
  destruct (candidates_sound env _ _ anchors detail cs C sc url txt Hin)
    as (a & Ia & -> & -> & Sa & Na & Ka).
  exists soup, anchors, a.
  split; [reflexivity|]. split; [exact B|]. split; [exact Ia|]. split; [exact Sa|].
  split; [now apply Z.ltb_lt|]. split; [reflexivity|].
  intros a' url' Ia' Sa' Na'.
  destruct (Z.ltb_spec 0 (_score_anchor env a')) as [Pos|Npos].
  - pose proof (candidates_complete env _ _ anchors detail cs C a' url' Ia' Sa' Na') as I.
    cbv beta in I. specialize (I (proj2 (Z.ltb_lt _ _) Pos)).
    exact (sort_desc_head cs _ _ Srt _ I).
  - apply Z.ltb_lt in Ka; lia.
Qed.

Lemma pick_best_body_link_is_top_scored_witness :
  exists meta,
    _pick_best_go_link body_world [] kh = Ok (u "http://apply.example/form", meta)
    /\ exists soup anchors a,
         parse_detail body_world [] = Ok soup /\ body soup = Some anchors /\ In a anchors
         /\ _safe_abs_url body_world (Some (href a)) kh = Ok (Some (u "http://apply.example/form"))
         /\ (0 < _score_anchor body_world a)%Z
         /\ link_type meta = u "body:" ++ firstn 30 (anchor_text a)
         /\ forall a' url',
              In a' anchors ->
              _safe_abs_url body_world (Some (href a')) kh = Ok (Some url') ->
              nonempty url' = true ->
              (_score_anchor body_world a' <= _score_anchor body_world a)%Z.
Proof.
  assert (E : _pick_best_go_link body_world [] kh
              = Ok (u "http://apply.example/form",
                    typed [] (u "body:신청 바로가기") kh)) by reflexivity.
  eexists; split; [exact E|].
  apply (pick_best_body_link_is_top_scored body_world [] kh _ _ E). reflexivity.
Defined.

(** *** The list that [fetch_khidi_events] returns *)

Lemma insert_by_date_perm env x l : Permutation (insert_by_date env x l) (x :: l).
Proof.
  induction l as [|y l IH]; cbn [insert_by_date]; [reflexivity|].
  destruct (date_key env x <? date_key env y)%Z; [|reflexivity].
  rewrite IH. apply perm_swap.
Qed.

Lemma sorted_by_date_perm env l : Permutation (fold_right (insert_by_date env) [] l) l.
Proof.
  induction l as [|x l IH]; cbn [fold_right]; [reflexivity|].
  rewrite insert_by_date_perm. now constructor.
Qed.

Lemma insert_by_date_descending env x l :
  descending (date_key env) l = true ->
  descending (date_key env) (insert_by_date env x l) = true.
Proof.
  induction l as [|y l IH]; cbn [insert_by_date]; [reflexivity|].
  intros D. destruct (Z.ltb_spec (date_key env x) (date_key env y)) as [Lt|Ge].
  - cbn [descending] in D |- *. apply andb_true_iff in D as [D1 D2].
    rewrite (IH D2), andb_true_r.
    destruct l as [|z l]; cbn [insert_by_date].
    + apply Z.leb_le; lia.
    + destruct (date_key env x <? date_key env z)%Z; [exact D1|apply Z.leb_le; lia].
  - change (descending (date_key env) (x :: y :: l))
      with ((date_key env y <=? date_key env x)%Z && descending (date_key env) (y :: l)).
    rewrite D, andb_true_r. apply Z.leb_le; lia.
Qed.

Lemma sorted_by_date_descending env l :
  descending (date_key env) (fold_right (insert_by_date env) [] l) = true.
Proof.
  induction l as [|x l IH]; cbn [fold_right]; [reflexivity|].
  now apply insert_by_date_descending.
Qed.

(** X10 (fetch_khidi_events): the notices that are returned are the collected
    ones rearranged, in descending order of the sort key of their dates. *)
Theorem fetch_khidi_events_sorted (env : Env) (depth max_pages : nat) (rows : N)
        (skip_log : list SkipEntry) (notices : list Notice) (st : Collected) :
  fetch_khidi_events env depth max_pages rows skip_log = Ok (notices, st) ->
  Permutation notices (out st) /\ descending (date_key env) notices = true.
Proof.
  unfold fetch_khidi_events.
  destruct (process_pages env depth rows max_pages 1 _) as [st1|e]; [|discriminate].
  intros H; inversion H; subst; split;
    [apply sorted_by_date_perm|apply sorted_by_date_descending].
Qed.

Lemma fetch_khidi_events_sorted_witness :
  exists notices st,
    fetch_khidi_events busy_site 3 1 20 [] = Ok (notices, st)
    /\ map n_date (out st) = [u "2025-03-05"; u "2025-04-01"]
    /\ map n_date notices = [u "2025-04-01"; u "2025-03-05"]
    /\ Permutation notices (out st) /\ descending (date_key busy_site) notices = true.
Proof.
  destruct (fetch_khidi_events busy_site 3 1 20 []) as [[notices st]|e] eqn:E;
    [|vm_compute in E; discriminate].
  exists notices, st. split; [reflexivity|].
  pose proof (fetch_khidi_events_sorted busy_site 3 1 20 [] notices st E) as S.
  vm_compute in E; inversion E; subst notices st; clear E.
  split; [reflexivity|]. split; [reflexivity|exact S].
Defined.

Lemma norm_date_shape env s out :
  _norm_date env s = Ok out -> out = [] \/ is_ymd out = true.
Proof.
  unfold _norm_date; cbv zeta.
  destruct (negb (nonempty _)); [intros H; inversion H; now left|].
  intros H. destruct (norm_first_shape env (fst (break_at (is_range_sep) (strip match s with Some s0 => s0 | None => [] end))))
    as (o & E & Sh).
  rewrite E in H; inversion H; subst; exact Sh.
Qed.

Lemma resolve_row_fields env depth tr log r log' :
  resolve_row env depth tr log = (Ok (Some r), log') ->
  _norm_date env (nth_error (cells tr) 3) = Ok (r_reg_date r)
  /\ r_list_inst r = _institution_from_list_row tr
  /\ exists a_href, view tr = Some (r_title r, a_href)
                    /\ urljoin env BASE a_href = Ok (r_detail_href r).
Proof.
  unfold resolve_row.
  destruct (view tr) as [[title a_href]|]; [|intros; discriminate].
  destruct (urljoin env BASE a_href) as [detail|e] eqn:U; [|intros; discriminate].
  destruct (_norm_date env (nth_error (cells tr) 3)) as [reg|e]; [|intros; discriminate].
  destruct (detail_candidate env detail log) as [[html [cand meta]] l1].
  destruct (_validate_link env depth cand detail l1) as [[[ok vm]|e] l2];
    [|intros; discriminate].
  destruct (negb ok && nonempty html).
  - destruct (fallback_link env depth detail cand meta vm html l2) as [[[go m]|e] l3];
      [|intros; discriminate].
    intros H; inversion H; subst; cbn; repeat split; eauto.
  - intros H; inversion H; subst; cbn; repeat split; eauto.
Qed.

Lemma list_inst_named tr v :
  _institution_from_list_row tr = Some v -> nonempty v = true /\ str_in v PLACEHOLDERS = false.
Proof.
  unfold _institution_from_list_row.
  destruct (cells tr) as [|c0 [|c1 rest]]; try discriminate.
  cbv zeta. destruct (nonempty _ && negb _) eqn:N; [|discriminate].
  intros H; inversion H; subst.
  apply andb_true_iff in N as [N1 N2]; apply negb_true_iff in N2; auto.
Qed.

Lemma pick_institution_named meta v :
  _pick_institution meta = Some v -> nonempty v = true /\ str_in v PLACEHOLDERS = false.
Proof.
  pose proof (pick_first meta INSTITUTION_KEYS) as H.
  unfold _pick_institution; fold INSTITUTION_KEYS.
  destruct (find nonempty _) as [v0|]; [|discriminate].
  destruct H as (pre & key & post & E & -> & N & Hpre).
  intros H; inversion H; subst.
  unfold named in N; apply andb_true_iff in N as [N1 N2]; apply negb_true_iff in N2; auto.
Qed.

Section FeedFacts.
Variable env : Env.
Variable depth : nat.

Lemma emit_row_well_formed tr log r log' st n :
  resolve_row env depth tr log = (Ok (Some r), log') ->
  In n (out (emit_row env r st log')) -> In n (out st) \/ well_formed_notice n.
Proof.
  intros R; apply resolve_row_fields in R as (D & L & _).
  apply norm_date_shape in D.
  unfold emit_row. destruct (_no_original env r); cbn [out]; [now left|].
  intros Hin; apply in_app_or in Hin as [Hin|[<-|[]]]; [now left|right].
  unfold well_formed_notice; cbn [n_date n_institution].
  split; [exact D|].
  assert (M : forall meta_inst,
             meta_inst = match _pick_institution (fields (r_meta r)) with
                         | Some i => i | None => u "-" end ->
             let inst := if str_eqb meta_inst (u "-") then u "기타" else meta_inst in
             nonempty inst = true /\ str_in inst PLACEHOLDERS = false).
  { intros mi ->; cbv zeta.
    destruct (_pick_institution (fields (r_meta r))) as [i|] eqn:P.
    - destruct (pick_institution_named _ _ P) as [N1 N2].
      destruct (str_eqb i (u "-")); [split; reflexivity|now split].
    - split; reflexivity. }
  specialize (M _ eq_refl); cbv zeta in M.
  rewrite L. destruct (_institution_from_list_row tr) as [li|] eqn:Li; [|exact M].
  destruct (list_inst_named _ _ Li) as [N1 N2].
  destruct (nonempty li && negb (str_eqb li (u "기타"))); [now split|exact M].
Qed.

Lemma process_row_well_formed tr st st' :
  process_row env depth tr st = Ok st' ->
  Forall well_formed_notice (out st) -> Forall well_formed_notice (out st').
Proof.
  unfold process_row.
  destruct (resolve_row env depth tr (requests st)) as [[[r|]|e] log] eqn:R;
    intros H; inversion H; subst; auto.
  intros F; apply Forall_forall; intros n Hn.
  destruct (emit_row_well_formed _ _ _ _ st n R Hn) as [I|W]; auto.
  now apply (proj1 (Forall_forall _ _) F).
Qed.

Lemma process_rows_well_formed trs : forall st st',
  process_rows env depth trs st = Ok st' ->
  Forall well_formed_notice (out st) -> Forall well_formed_notice (out st').
Proof.
  induction trs as [|tr rest IH]; cbn [process_rows]; intros st st' H F.
  - now inversion H; subst.
  - destruct (process_row env depth tr st) as [st1|e] eqn:P; [|discriminate].
    exact (IH _ _ H (process_row_well_formed _ _ _ P F)).
Qed.

Lemma process_pages_well_formed rows count : forall page st st',
  process_pages env depth rows count page st = Ok st' ->
  Forall well_formed_notice (out st) -> Forall well_formed_notice (out st').
Proof.
  induction count as [|count IH]; cbn [process_pages]; intros pg st st' H F.
  - now inversion H; subst.
  - destruct (urljoin env BASE LIST_PATH) as [list_url|e]; [|discriminate].
    destruct (send env GET _ [] (requests st)) as [[r|e] log]; [|discriminate].
    destruct (raise_for_status r) as [[]|e]; [|discriminate].
    destruct (process_rows env depth _ _) as [st1|e] eqn:P; [|discriminate].
    apply process_rows_well_formed in P; [|exact F]. exact (IH _ _ _ H P).
Qed.
End FeedFacts.

(** X11 (fetch_khidi_events): every notice that is returned has a date that is
    empty or of the shape YYYY-MM-DD, and an institution that is neither
    empty nor a placeholder. *)
Theorem fetch_khidi_events_notice_fields (env : Env) (depth max_pages : nat) (rows : N)
        (skip_log : list SkipEntry) (notices : list Notice) (st : Collected) :
  fetch_khidi_events env depth max_pages rows skip_log = Ok (notices, st) ->
  forall n, In n notices -> well_formed_notice n.
Proof.
  unfold fetch_khidi_events.
  destruct (process_pages env depth rows max_pages 1 _) as [st1|e] eqn:P; [|discriminate].
  intros H; inversion H; subst; clear H. intros n Hn.
  apply In_sorted_by_date in Hn.
  apply process_pages_well_formed in P; [|constructor].
  now apply (proj1 (Forall_forall _ _) P).
Qed.

Lemma fetch_khidi_events_notice_fields_witness :
  exists notices st,
    fetch_khidi_events busy_site 3 1 20 [] = Ok (notices, st)
    /\ map n_institution notices = [u "보건복지부"; u "KHIDI 본원"]
    /\ forall n, In n notices -> well_formed_notice n.
Proof.
  destruct (fetch_khidi_events busy_site 3 1 20 []) as [[notices st]|e] eqn:E;
    [|vm_compute in E; discriminate].
  exists notices, st. split; [reflexivity|].
  pose proof (fetch_khidi_events_notice_fields busy_site 3 1 20 [] notices st E) as S.
  vm_compute in E; inversion E; subst notices st; clear E.
  split; [reflexivity|exact S].
Defined.

(** ** Normal forms of [_norm_date] *)

Lemma digit_is_decimal rt c : is_digit c = true -> is_decimal rt c = true.
Proof. intros H; unfold is_decimal; now rewrite H. Qed.

Section Stepping.
Variable env : Env.
Local Abbreviation idf := (fun c : char => c).
Local Abbreviation dec := (is_decimal (rt env)).

Lemma step_group_d4 (A : Type) y1 y2 y3 y4 s cs (k : str -> list str -> option A) :
  forallb dec [y1; y2; y3; y4] = true ->
  rmatch idf (Group (d4 env)) (y1 :: y2 :: y3 :: y4 :: s) cs k
  = k s (cs ++ [[y1; y2; y3; y4]]).
Proof.
  cbn [forallb]; rewrite !andb_true_iff; intros (H1 & H2 & H3 & H4 & _).
  unfold d4, KhidiEvents.d1; cbn [rmatch]. rewrite H1, H2, H3, H4.
  now rewrite (consumed_app [y1; y2; y3; y4] s : consumed (y1 :: y2 :: y3 :: y4 :: s) s = _).
Qed.

Lemma step_group_d12 (A : Type) m1 m2 s cs (k : str -> list str -> option A) :
  dec m1 = true -> dec m2 = true ->
  rmatch idf (Group (d12 env)) (m1 :: m2 :: s) cs k
  = orelse (k s (cs ++ [[m1; m2]])) (k (m2 :: s) (cs ++ [[m1]])).
Proof.
  intros H1 H2; unfold d12, KhidiEvents.d1; cbn [rmatch]. rewrite H1, H2.
  now rewrite (consumed_app [m1; m2] s : consumed (m1 :: m2 :: s) s = _),
    (consumed_app [m1] (m2 :: s) : consumed (m1 :: m2 :: s) (m2 :: s) = _).
Qed.

Lemma step_sp (A : Type) x s cs (k : str -> list str -> option A) :
  is_space x = false -> rmatch idf sp (x :: s) cs k = k (x :: s) cs.
Proof. intros H; unfold sp; cbn [rmatch star_greedy]; now rewrite H. Qed.

Lemma step_sep (A : Type) s cs (k : str -> list str -> option A) :
  rmatch idf (Cls date_sep) (45%N :: s) cs k = k s cs.
Proof. reflexivity. Qed.

Lemma step_seq (A : Type) a b s cs (k : str -> list str -> option A) :
  rmatch idf (Seq a b) s cs k = rmatch idf a s cs (fun s' cs' => rmatch idf b s' cs' k).
Proof. reflexivity. Qed.

Lemma match_separated_ymd y1 y2 y3 y4 m1 m2 e1 e2 :
  forallb is_digit [y1; y2; y3; y4; m1; m2; e1; e2] = true ->
  match_at idf (re_separated env) [y1; y2; y3; y4; 45%N; m1; m2; 45%N; e1; e2]
  = Some ([], [[y1; y2; y3; y4]; [m1; m2]; [e1; e2]]).
Proof.
  cbn [forallb]; rewrite !andb_true_iff.
  intros (Y1 & Y2 & Y3 & Y4 & M1 & M2 & E1 & E2 & _).
  pose proof (is_digit_not_space _ M1) as M1s.
  pose proof (is_digit_not_space _ E1) as E1s.
  unfold match_at, re_separated.
  rewrite step_seq, step_group_d4
    by (cbn [forallb]; now rewrite !digit_is_decimal).
  rewrite step_seq, step_sp by reflexivity.
  rewrite step_seq, step_sep.
  rewrite step_seq, step_sp by exact M1s.
  rewrite step_seq, step_group_d12 by now apply digit_is_decimal.
  rewrite step_seq, step_sp by reflexivity.
  rewrite step_seq, step_sep.
  rewrite step_seq, step_sp by exact E1s.
  rewrite step_group_d12 by now apply digit_is_decimal.
  reflexivity.
Qed.
End Stepping.

Lemma korean_needs_year_sign env t s' cs :
  denote (fun c => c) (re_korean env) t [] s' cs -> In 45380%N t.
Proof.
  unfold re_korean.
  intros (s1 & c1 & G1 & s2 & c2 & (w2 & -> & _ & _) & s3 & c3 & (x3 & -> & X & _) & _).
  apply denote_suffix in G1 as (pre & ->). cbv beta in X; subst x3.
  apply in_or_app; right; apply in_or_app; right; now left.
Qed.

Lemma zero_pad_4_digits n : (n < 10000)%N ->
  zero_pad 4 n = [48 + n / 1000; 48 + (n / 100) mod 10; 48 + (n / 10) mod 10; 48 + n mod 10]%N.
Proof.
  intros H.
  assert (All : forallb (fun n => str_eqb (zero_pad 4 n)
                           [48 + n / 1000; 48 + (n / 100) mod 10; 48 + (n / 10) mod 10;
                            48 + n mod 10]%N)
                        (map N.of_nat (seq 0 (N.to_nat 10000))) = true)
    by (vm_compute; reflexivity).
  rewrite forallb_forall in All. apply str_eqb_eq, All, (below_in_seq 10000); exact H.
Qed.

Lemma zero_pad_2_digits n : (n < 100)%N -> zero_pad 2 n = [48 + n / 10; 48 + n mod 10]%N.
Proof.
  intros H.
  assert (All : forallb (fun n => str_eqb (zero_pad 2 n) [48 + n / 10; 48 + n mod 10]%N)
                        (map N.of_nat (seq 0 (N.to_nat 100))) = true)
    by (vm_compute; reflexivity).
  rewrite forallb_forall in All. apply str_eqb_eq, All, (below_in_seq 100); exact H.
Qed.

Lemma digit_value_ascii rt c : is_digit c = true -> digit_value rt c = (c - 48)%N.
Proof. intros H; unfold digit_value; now rewrite H. Qed.

Lemma pad_4_round_trip rt y1 y2 y3 y4 :
  forallb is_digit [y1; y2; y3; y4] = true ->
  zero_pad 4 (digits_value rt [y1; y2; y3; y4] 0) = [y1; y2; y3; y4].
Proof.
  cbn [forallb]; rewrite !andb_true_iff; intros (H1 & H2 & H3 & H4 & _).
  cbn [digits_value]; rewrite !digit_value_ascii by assumption.
  apply is_digit_range in H1, H2, H3, H4.
  set (a := (y1 - 48)%N). set (b := (y2 - 48)%N). set (c := (y3 - 48)%N). set (d := (y4 - 48)%N).
  assert (Ea : y1 = (48 + a)%N) by (subst a; lia).
  assert (Eb : y2 = (48 + b)%N) by (subst b; lia).
  assert (Ec : y3 = (48 + c)%N) by (subst c; lia).
  assert (Ed : y4 = (48 + d)%N) by (subst d; lia).
  assert (Ba : (a < 10)%N) by (subst a; lia). assert (Bb : (b < 10)%N) by (subst b; lia).
  assert (Bc : (c < 10)%N) by (subst c; lia). assert (Bd : (d < 10)%N) by (subst d; lia).
  clearbody a b c d. subst y1 y2 y3 y4.
  replace (10 * (10 * (10 * (10 * 0 + a) + b) + c) + d)%N
    with (1000 * a + 100 * b + 10 * c + d)%N by lia.
  set (n := (1000 * a + 100 * b + 10 * c + d)%N).
  rewrite zero_pad_4_digits by (subst n; lia).
  assert (Q1 : (n / 1000 = a)%N)
    by (symmetry; apply (N.div_unique n 1000 a (100 * b + 10 * c + d)); subst n; lia).
  assert (Q2 : (n / 100 = 10 * a + b)%N)
    by (symmetry; apply (N.div_unique n 100 (10 * a + b) (10 * c + d)); subst n; lia).
  assert (Q3 : (n / 10 = 100 * a + 10 * b + c)%N)
    by (symmetry; apply (N.div_unique n 10 (100 * a + 10 * b + c) d); subst n; lia).
  assert (R2 : ((10 * a + b) mod 10 = b)%N)
    by (symmetry; apply (N.mod_unique (10 * a + b) 10 a b); lia).
  assert (R3 : ((100 * a + 10 * b + c) mod 10 = c)%N)
    by (symmetry; apply (N.mod_unique (100 * a + 10 * b + c) 10 (10 * a + b) c); lia).
  assert (R4 : (n mod 10 = d)%N)
    by (symmetry; apply (N.mod_unique n 10 (100 * a + 10 * b + c) d); subst n; lia).
  now rewrite Q1, Q2, Q3, R2, R3, R4.
Qed.

Lemma pad_2_round_trip rt m1 m2 :
  forallb is_digit [m1; m2] = true ->
  zero_pad 2 (digits_value rt [m1; m2] 0) = [m1; m2].
Proof.
  cbn [forallb]; rewrite !andb_true_iff; intros (H1 & H2 & _).
  cbn [digits_value]; rewrite !digit_value_ascii by assumption.
  apply is_digit_range in H1, H2.
  set (a := (m1 - 48)%N). set (b := (m2 - 48)%N).
  assert (Ea : m1 = (48 + a)%N) by (subst a; lia).
  assert (Eb : m2 = (48 + b)%N) by (subst b; lia).
  assert (Ba : (a < 10)%N) by (subst a; lia). assert (Bb : (b < 10)%N) by (subst b; lia).
  clearbody a b. subst m1 m2.
  replace (10 * (10 * 0 + a) + b)%N with (10 * a + b)%N by lia.
  rewrite zero_pad_2_digits by lia.
  assert (Q : ((10 * a + b) / 10 = a)%N)
    by (symmetry; apply (N.div_unique (10 * a + b) 10 a b); lia).
  assert (R : ((10 * a + b) mod 10 = b)%N)
    by (symmetry; apply (N.mod_unique (10 * a + b) 10 a b); lia).
  now rewrite Q, R.
Qed.

Lemma is_digit_not_sep c : is_digit c = true -> is_range_sep c = false.
Proof.
  intros H; apply is_digit_range in H. unfold is_range_sep.
  destruct (N.eqb_spec c 126), (N.eqb_spec c 8211), (N.eqb_spec c 8212),
    (N.eqb_spec c 33267); try reflexivity; lia.
Qed.

Lemma is_ymd_inv out :
  is_ymd out = true ->
  exists y1 y2 y3 y4 m1 m2 e1 e2 : char,
    out = [y1; y2; y3; y4; 45%N; m1; m2; 45%N; e1; e2]
    /\ forallb is_digit [y1; y2; y3; y4; m1; m2; e1; e2] = true.
Proof.
  unfold is_ymd.
  destruct out as [|y1 [|y2 [|y3 [|y4 [|h1 [|m1 [|m2 [|h2 [|e1 [|e2 [|? ?]]]]]]]]]]];
    try discriminate.
  intros H; apply andb_true_iff in H as [H H2]; apply andb_true_iff in H as [H H1].
  apply N.eqb_eq in H1, H2; subst. now exists y1, y2, y3, y4, m1, m2, e1, e2.
Qed.

Lemma norm_date_fixed env out : is_ymd out = true -> _norm_date env (Some out) = Ok out.
Proof.
  intros Y; destruct (is_ymd_inv out Y) as (y1 & y2 & y3 & y4 & m1 & m2 & e1 & e2 & -> & D).
  pose proof D as D0. cbn [forallb] in D0; rewrite !andb_true_iff in D0.
  destruct D0 as (Y1 & Y2 & Y3 & Y4 & M1 & M2 & E1 & E2 & _).
  unfold _norm_date.
  assert (St : strip [y1; y2; y3; y4; 45%N; m1; m2; 45%N; e1; e2]
               = [y1; y2; y3; y4; 45%N; m1; m2; 45%N; e1; e2]).
  { unfold strip, rstrip. cbn [lstrip]. rewrite (is_digit_not_space _ Y1).
    cbn [rev app lstrip]. now rewrite (is_digit_not_space _ E2). }
  rewrite St; cbn [nonempty negb].
  assert (Br : break_at is_range_sep [y1; y2; y3; y4; 45%N; m1; m2; 45%N; e1; e2]
               = ([y1; y2; y3; y4; 45%N; m1; m2; 45%N; e1; e2], [])).
  { apply break_at_free. unfold sep_free; cbn [forallb].
    rewrite (is_digit_not_sep _ Y1), (is_digit_not_sep _ Y2), (is_digit_not_sep _ Y3),
      (is_digit_not_sep _ Y4), (is_digit_not_sep _ M1), (is_digit_not_sep _ M2),
      (is_digit_not_sep _ E1), (is_digit_not_sep _ E2). reflexivity. }
  rewrite Br; cbn [fst]. unfold norm_first.
  destruct (search (fun c => c) (re_korean env) _) as [m|] eqn:K.
  { exfalso. apply search_sound in K as (pre & t & s' & E & Dn & _).
    apply korean_needs_year_sign in Dn.
    assert (I : In 45380%N [y1; y2; y3; y4; 45%N; m1; m2; 45%N; e1; e2])
      by (rewrite E; apply in_or_app; now right).
    cbn [In] in I.
    repeat destruct I as [I|I]; try discriminate; try contradiction;
      subst; discriminate. }
  assert (Sr : search (fun c => c) (re_separated env)
                      [y1; y2; y3; y4; 45%N; m1; m2; 45%N; e1; e2]
               = Some {| group0 := [y1; y2; y3; y4; 45%N; m1; m2; 45%N; e1; e2];
                         groups := [[y1; y2; y3; y4]; [m1; m2]; [e1; e2]] |}).
  { pose proof (match_separated_ymd env _ _ _ _ _ _ _ _ D) as Mt.
    cbn [search]. rewrite Mt. reflexivity. }
  rewrite Sr; cbn [groups format_ymd].
  rewrite !int_of_digits_value
    by (try discriminate; cbn [forallb]; now rewrite !digit_is_decimal).
  rewrite pad_4_round_trip by (cbn [forallb]; now rewrite Y1, Y2, Y3, Y4).
  rewrite !pad_2_round_trip by (cbn [forallb]; now rewrite ?M1, ?M2, ?E1, ?E2).
  reflexivity.
Qed.

(** X12 (_norm_date): a text of the shape YYYY-MM-DD is returned as it is, and
    normalising a second time changes nothing: whatever [_norm_date] returns
    is returned again when it is given back. *)
Theorem norm_date_idempotent (env : Env) :
  (forall out, is_ymd out = true -> _norm_date env (Some out) = Ok out)
  /\ (forall s out, _norm_date env s = Ok out -> _norm_date env (Some out) = Ok out).
Proof.
  split; [exact (norm_date_fixed env)|].
  intros s out H. destruct (norm_date_shape env s out H) as [->|Y].
  - reflexivity.
  - now apply norm_date_fixed.
Qed.

(** ** Parsing a date text back *)

Lemma orelse_map {A B : Type} (f : A -> B) (x y : option A) :
  option_map f (orelse x y) = orelse (option_map f x) (option_map f y).
Proof. now destruct x. Qed.

Lemma star_greedy_ext {A : Type} p s (k k' : str -> option A) :
  (forall s', k s' = k' s') -> star_greedy p s k = star_greedy p s k'.
Proof.
  intros E; induction s as [|x s IH]; cbn [star_greedy]; auto.
  now rewrite IH, E.
Qed.

Lemma rmatch_ext fold r : forall (A : Type) s cs (k k' : str -> list str -> option A),
  (forall s' cs', k s' cs' = k' s' cs') -> rmatch fold r s cs k = rmatch fold r s cs k'.
Proof.
  induction r as [|c0|p|r1 IHr1 r2 IHr2|r1 IHr1 r2 IHr2|p|r IHr|r IHr|r IHr|];
    intros A s cs k k' E; cbn [rmatch].
  - apply E.
  - destruct s as [|x s]; auto. now rewrite E.
  - destruct s as [|x s]; auto. now rewrite E.
  - apply IHr1; intros; now apply IHr2.
  - now rewrite (IHr1 _ s cs k k' E), (IHr2 _ s cs k k' E).
  - apply star_greedy_ext; intros; apply E.
  - now rewrite (IHr _ s cs k k' E), E.
  - apply IHr; intros; apply E.
  - now rewrite E.
  - now rewrite E.
Qed.

Lemma star_greedy_post {A B : Type} (f : A -> B) p s (k : str -> option A) :
  star_greedy p s (fun s' => option_map f (k s')) = option_map f (star_greedy p s k).
Proof.
  induction s as [|x s IH]; cbn [star_greedy]; auto.
  destruct (p x); auto. now rewrite IH, orelse_map.
Qed.

Lemma rmatch_post fold r : forall (A B : Type) (f : A -> B) s cs
                                  (k : str -> list str -> option A),
  rmatch fold r s cs (fun s' cs' => option_map f (k s' cs'))
  = option_map f (rmatch fold r s cs k).
Proof.
  induction r as [|c0|p|r1 IHr1 r2 IHr2|r1 IHr1 r2 IHr2|p|r IHr|r IHr|r IHr|];
    intros A B f s cs k; cbn [rmatch].
  - reflexivity.
  - destruct s as [|x s]; [reflexivity|]. destruct (_ =? _)%N; reflexivity.
  - destruct s as [|x s]; [reflexivity|]. destruct (p x); reflexivity.
  - rewrite <- IHr1. apply rmatch_ext; intros; apply IHr2.
  - now rewrite IHr1, IHr2, orelse_map.
  - apply (star_greedy_post f p s (fun s' => k s' cs)).
  - now rewrite IHr, orelse_map.
  - apply (IHr _ _ f s cs (fun s' cs' => k s' (cs' ++ [consumed s s']))).
  - destruct (rmatch fold r s cs _); reflexivity.
  - destruct (at_end s); reflexivity.
Qed.

Lemma rmatch_prefix fold r : forall (A : Type) c0 s cs (k : str -> list str -> option A),
  rmatch fold r s (c0 ++ cs) k = rmatch fold r s cs (fun s' cs' => k s' (c0 ++ cs')).
Proof.
  induction r as [|c0'|p|r1 IHr1 r2 IHr2|r1 IHr1 r2 IHr2|p|r IHr|r IHr|r IHr|];
    intros A c0 s cs k; cbn [rmatch].
  - reflexivity.
  - reflexivity.
  - reflexivity.
  - rewrite IHr1. apply rmatch_ext; intros; apply IHr2.
  - now rewrite IHr1, IHr2.
  - reflexivity.
  - now rewrite IHr.
  - rewrite IHr. apply rmatch_ext; intros; now rewrite app_assoc.
  - now rewrite IHr.
  - reflexivity.
Qed.

Section ReadingDates.
Variable rt : Runtime.
Local Abbreviation idf := (fun c : char => c).

Lemma month_days_read : forallb (reads_month_day rt) month_days = true.
Proof. vm_compute; reflexivity. Qed.

Lemma in_month_days m d :
  (1 <= m <= 12)%N -> (1 <= d <= 31)%N -> In (m, d) month_days.
Proof.
  intros Hm Hd; unfold month_days. apply in_flat_map.
  exists (N.to_nat m); split; [apply in_seq; lia|].
  apply in_map_iff. exists (N.to_nat d); split; [now rewrite !N2Nat.id|apply in_seq; lia].
Qed.

Lemma month_day_read m d :
  (1 <= m <= 12)%N -> (1 <= d <= 31)%N ->
  rmatch idf (after_year rt) (month_day_text m d) [] matched
  = Some ([], [zero_pad 2 m; zero_pad 2 d])
  /\ rmatch idf (Seq (after_year rt) (then_time rt)) (month_day_text m d) [] matched = None.
Proof.
  intros Hm Hd. pose proof month_days_read as T. rewrite forallb_forall in T.
  specialize (T (m, d) (in_month_days m d Hm Hd)). unfold reads_month_day in T.
  apply andb_true_iff in T as [T1 T2].
  split.
  - destruct (rmatch idf (after_year rt) _ [] matched) as [[[|? ?] [|a [|b [|? ?]]]]|];
      try discriminate.
    apply andb_true_iff in T1 as [A B]. apply str_eqb_eq in A, B. now subst.
  - destruct (rmatch idf (Seq _ _) _ [] matched); [discriminate|reflexivity].
Qed.

Lemma step_re_Y (A : Type) y1 y2 y3 y4 s cs (k : str -> list str -> option A) :
  forallb is_digit [y1; y2; y3; y4] = true ->
  rmatch idf (re_Y rt) (y1 :: y2 :: y3 :: y4 :: s) cs k = k s (cs ++ [[y1; y2; y3; y4]]).
Proof.
  cbn [forallb]; rewrite !andb_true_iff; intros (H1 & H2 & H3 & H4 & _).
  unfold re_Y, dig; cbn [rmatch].
  rewrite !digit_is_decimal by assumption.
  now rewrite (consumed_app [y1; y2; y3; y4] s : consumed (y1 :: y2 :: y3 :: y4 :: s) s = _).
Qed.

Lemma zero_pad_4_shape y : (y < 10000)%N ->
  exists y1 y2 y3 y4 : char,
    zero_pad 4 y = [y1; y2; y3; y4] /\ forallb is_digit [y1; y2; y3; y4] = true.
Proof.
  intros H; pose proof (padded_4 y H) as P; unfold padded in P.
  apply andb_true_iff in P as [L D]; apply Nat.eqb_eq in L.
  destruct (zero_pad 4 y) as [|y1 [|y2 [|y3 [|y4 [|? ?]]]]]; try discriminate.
  now exists y1, y2, y3, y4.
Qed.

Lemma int_of_padded_4 y : (y < 10000)%N -> int_of_digits rt (zero_pad 4 y) = Some y.
Proof.
  intros H.
  assert (All : forallb (fun n => match int_of_digits rt (zero_pad 4 n) with
                                  | Some v => (v =? n)%N | None => false end)
                        (map N.of_nat (seq 0 (N.to_nat 10000))) = true)
    by (vm_compute; reflexivity).
  rewrite forallb_forall in All. specialize (All y (below_in_seq 10000 y H)).
  destruct (int_of_digits rt (zero_pad 4 y)); [|discriminate].
  now apply N.eqb_eq in All; subst.
Qed.

Lemma int_of_padded_2 m : (m < 100)%N -> int_of_digits rt (zero_pad 2 m) = Some m.
Proof.
  intros H.
  assert (All : forallb (fun n => match int_of_digits rt (zero_pad 2 n) with
                                  | Some v => (v =? n)%N | None => false end)
                        (map N.of_nat (seq 0 (N.to_nat 100))) = true)
    by (vm_compute; reflexivity).
  rewrite forallb_forall in All. specialize (All m (below_in_seq 100 m H)).
  destruct (int_of_digits rt (zero_pad 2 m)); [|discriminate].
  now apply N.eqb_eq in All; subst.
Qed.

(** The two formats of [_parse_date_for_sort] on the text of a date. *)
Lemma match_ymd_text y m d :
  (y < 10000)%N -> (1 <= m <= 12)%N -> (1 <= d <= 31)%N ->
  match_at idf (format_regex rt (F_ymd 45)) (ymd_text y m d)
  = Some ([], [zero_pad 4 y; zero_pad 2 m; zero_pad 2 d])
  /\ match_at idf (format_regex rt F_ymd_hm) (ymd_text y m d) = None.
Proof.
  intros Hy Hm Hd.
  destruct (zero_pad_4_shape y Hy) as (y1 & y2 & y3 & y4 & E & D).
  destruct (month_day_read m d Hm Hd) as [T1 T2].
  unfold ymd_text, match_at; rewrite E.
  change ([y1; y2; y3; y4] ++ u "-" ++ zero_pad 2 m ++ u "-" ++ zero_pad 2 d)
    with (y1 :: y2 :: y3 :: y4 :: month_day_text m d).
  split.
  - change (format_regex rt (F_ymd 45)) with (Seq (re_Y rt) (after_year rt)).
    cbn [rmatch]. rewrite (step_re_Y _ _ _ _ _ _ _ _ D).
    change ([] ++ [[y1; y2; y3; y4]]) with ([[y1; y2; y3; y4]] ++ @nil str).
    rewrite rmatch_prefix.
    transitivity (option_map (fun r : str * list str => (fst r, [y1; y2; y3; y4] :: snd r))
                             (rmatch idf (after_year rt) (month_day_text m d) [] matched));
      [|rewrite T1; reflexivity].
    rewrite <- rmatch_post. apply rmatch_ext; intros; reflexivity.
  - change (format_regex rt F_ymd_hm)
      with (Seq (Seq (re_Y rt) (after_year rt)) (then_time rt)).
    cbn [rmatch]. rewrite (step_re_Y _ _ _ _ _ _ _ _ D).
    change ([] ++ [[y1; y2; y3; y4]]) with ([[y1; y2; y3; y4]] ++ @nil str).
    change (rmatch idf (after_year rt) (month_day_text m d) ([[y1; y2; y3; y4]] ++ [])
              (fun s' cs' => rmatch idf (then_time rt) s' cs'
                               (fun s'0 cs'0 => Some (s'0, cs'0))))
      with (rmatch idf (Seq (after_year rt) (then_time rt)) (month_day_text m d)
              ([[y1; y2; y3; y4]] ++ []) matched).
    rewrite rmatch_prefix.
    transitivity (option_map (fun r : str * list str => (fst r, [y1; y2; y3; y4] :: snd r))
                             (rmatch idf (Seq (after_year rt) (then_time rt))
                                     (month_day_text m d) [] matched));
      [|rewrite T2; reflexivity].
    rewrite <- rmatch_post. apply rmatch_ext; intros; reflexivity.
Qed.
End ReadingDates.

Lemma strip_ymd out : is_ymd out = true -> strip out = out.
Proof.
  intros Y; destruct (is_ymd_inv out Y) as (y1 & y2 & y3 & y4 & m1 & m2 & e1 & e2 & -> & D).
  cbn [forallb] in D; rewrite !andb_true_iff in D.
  destruct D as (Y1 & _ & _ & _ & _ & _ & _ & E2 & _).
  unfold strip, rstrip. cbn [lstrip]. rewrite (is_digit_not_space _ Y1).
  cbn [rev app lstrip]. now rewrite (is_digit_not_space _ E2).
Qed.

Lemma is_ymd_length out : is_ymd out = true -> length out = 10%nat.
Proof.
  intros Y; destruct (is_ymd_inv out Y) as (y1 & y2 & y3 & y4 & m1 & m2 & e1 & e2 & -> & _).
  reflexivity.
Qed.

Lemma calendar_date_bounds y m d :
  calendar_date y m d = true ->
  (1 <= y < 10000)%N /\ (1 <= m <= 12)%N /\ (1 <= d <= 31)%N
  /\ (Z.of_N d <= days_in_month (Z.of_N y) (Z.of_N m))%Z.
Proof.
  unfold calendar_date; rewrite !andb_true_iff, !N.leb_le, Z.leb_le.
  intros (((((A & B) & C) & D) & E) & F).
  assert (G : (days_in_month (Z.of_N y) (Z.of_N m) <= 31)%Z).
  { unfold days_in_month.
    destruct (_ =? 2)%Z; [destruct (is_leap _); lia|].
    destruct (_ || _); lia. }
  repeat split; try lia.
Qed.

Lemma ymd_text_is_ymd y m d :
  (y < 10000)%N -> (m < 100)%N -> (d < 100)%N -> is_ymd (ymd_text y m d) = true.
Proof.
  intros Hy Hm Hd; apply is_ymd_of_padded; [now apply padded_4| |];
    apply padded_2; assumption.
Qed.

Lemma strptime_ymd_text rt y m d :
  calendar_date y m d = true ->
  strptime rt (ymd_text y m d) (F_ymd 45)
  = Ok {| year := Z.of_N y; month := Z.of_N m; day := Z.of_N d; hour := 0; minute := 0 |}
  /\ exists e, strptime rt (ymd_text y m d) F_ymd_hm = Raise e.
Proof.
  intros C; destruct (calendar_date_bounds y m d C) as (Hy & Hm & Hd & Hdm).
  destruct (match_ymd_text rt y m d) as [M1 M2]; try lia.
  unfold strptime; rewrite M1, M2. split; [|eauto].
  cbn [nonempty field nth_error].
  rewrite int_of_padded_4, !int_of_padded_2 by lia. cbn [option_map].
  destruct (Z.ltb_spec (Z.of_N y) 1); [lia|].
  destruct (Z.ltb_spec (days_in_month (Z.of_N y) (Z.of_N m)) (Z.of_N d)); [lia|].
  reflexivity.
Qed.

(** X13 (main._parse_date_for_sort): the text YYYY-MM-DD of a calendar date, as
    the crawlers write it, is read back as that date at 00:00; the answer is
    the value [datetime.min], which also stands for an unreadable date, only
    for the date 0001-01-01. *)
Theorem parse_date_for_sort_round_trip (rt : Runtime) (y m d : N) :
  calendar_date y m d = true ->
  Main._parse_date_for_sort rt (Some (ymd_text y m d))
  = {| year := Z.of_N y; month := Z.of_N m; day := Z.of_N d; hour := 0; minute := 0 |}
  /\ (Main._parse_date_for_sort rt (Some (ymd_text y m d)) = datetime_min
      <-> (y = 1 /\ m = 1 /\ d = 1)%N).
Proof.
  intros C; destruct (calendar_date_bounds y m d C) as (Hy & Hm & Hd & _).
  destruct (strptime_ymd_text rt y m d C) as [S1 [e S2]].
  assert (Y : is_ymd (ymd_text y m d) = true) by (apply ymd_text_is_ymd; lia).
  pose proof (strip_ymd _ Y) as St. pose proof (is_ymd_length _ Y) as L.
  assert (R : Main._parse_date_for_sort rt (Some (ymd_text y m d))
              = {| year := Z.of_N y; month := Z.of_N m; day := Z.of_N d;
                   hour := 0; minute := 0 |}).
  { unfold Main._parse_date_for_sort.
    destruct (ymd_text y m d) as [|c s]; [discriminate|].
    rewrite St, firstn_all2 by (rewrite L; lia). now rewrite S2, S1. }
  split; [exact R|]. rewrite R. unfold datetime_min. split.
  - intros H; inversion H; lia.
  - intros (-> & -> & ->); reflexivity.
Qed.

Lemma parse_date_for_sort_round_trip_witness :
  Main._parse_date_for_sort rt0 (Some (u "2024-02-29"))
  = {| year := 2024; month := 2; day := 29; hour := 0; minute := 0 |}
  /\ Main._parse_date_for_sort rt0 (Some (u "0001-01-01")) = datetime_min.
Proof.
  split.
  - exact (proj1 (parse_date_for_sort_round_trip rt0 2024 2 29 eq_refl)).
  - exact (proj1 (parse_date_for_sort_round_trip rt0 1 1 1 eq_refl)).
Defined.

Lemma key_eqb_eq a b : Collect.key_eqb a b = true <-> a = b.
Proof.
  destruct a as [[a1 a2] a3], b as [[b1 b2] b3]; cbn [Collect.key_eqb].
  rewrite !andb_true_iff, !str_eqb_eq. split.
  - intros [[-> ->] ->]; reflexivity.
  - intros E; inversion E; auto.
Qed.

Lemma seen_spec k seen : existsb (Collect.key_eqb k) seen = true <-> In k seen.
Proof.
  rewrite existsb_exists. split.
  - intros (x & I & E). apply key_eqb_eq in E. now subst.
  - intros I. exists k. split; [assumption | now apply key_eqb_eq].
Qed.

Lemma key_of_ok it : no_null it = true -> Collect.key_of it = Ok (item_key it).
Proof.
  unfold no_null, Collect.key_of, item_key.
  destruct (Collect.title it), (Collect.date it), (Collect.link it);
    intros; try discriminate; reflexivity.
Qed.

Lemma key_of_raise it : no_null it = false -> Collect.key_of it = Raise Collect.AttributeError.
Proof.
  unfold no_null, Collect.key_of.
  destruct (Collect.title it), (Collect.date it), (Collect.link it);
    intros; try discriminate; reflexivity.
Qed.

Lemma dedup_loop_raise items : forall seen acc,
  forallb no_null items = false ->
  Collect.dedup_loop items seen acc = Raise Collect.AttributeError.
Proof.
  induction items as [|it rest IH]; intros seen acc H; [discriminate|].
  cbn [forallb] in H. cbn [Collect.dedup_loop].
  destruct (no_null it) eqn:N.
  - rewrite (key_of_ok it N). cbn [andb] in H.
    destruct (existsb _ seen); now apply IH.
  - now rewrite (key_of_raise it N).
Qed.

Lemma subsequence_nil {A} (b : list A) : subsequence [] b.
Proof. destruct b; cbn; auto. Qed.

Lemma subsequence_refl {A} (b : list A) : subsequence b b.
Proof. induction b; cbn; auto. Qed.

Lemma subsequence_skip {A} (a b : list A) y : subsequence a b -> subsequence a (y :: b).
Proof. destruct a; cbn; auto. Qed.

Lemma subsequence_In {A} (b : list A) : forall a x, subsequence a b -> In x a -> In x b.
Proof.
  induction b as [|y b IH]; intros a x S I; cbn in S.
  - subst a; destruct I.
  - destruct a as [|z a]; [destruct I|].
    destruct S as [[-> S]|S].
    + destruct I as [->|I]; [now left | right; eauto].
    + right; eauto.
Qed.

Lemma dedup_loop_ok items : forall seen acc,
  forallb no_null items = true ->
  exists new,
    Collect.dedup_loop items seen acc = Ok (acc ++ new)
    /\ subsequence new items
    /\ NoDup (map item_key new)
    /\ (forall x, In x new -> ~ In (item_key x) seen)
    /\ (forall it, In it items -> In (item_key it) seen \/ In (item_key it) (map item_key new))
    /\ (forall pre it post, items = pre ++ it :: post ->
          ~ In (item_key it) seen -> ~ In (item_key it) (map item_key pre) -> In it new).
Proof.
  induction items as [|it rest IH]; intros seen acc H.
  - exists []. cbn. rewrite app_nil_r.
    split; [reflexivity|]. split; [reflexivity|]. split; [constructor|].
    split; [intros x []|]. split; [intros x []|].
    intros pre x post E. destruct pre; discriminate.
  - cbn [forallb] in H. apply andb_true_iff in H as [N H].
    cbn [Collect.dedup_loop]. rewrite (key_of_ok it N).
    destruct (existsb _ seen) eqn:S.
    + apply seen_spec in S.
      destruct (IH seen acc H) as (new & E & Sub & ND & Fresh & Cov & First).
      exists new. repeat split; auto.
      * now apply subsequence_skip.
      * intros x [<-|I]; auto.
      * intros pre x post Ep Ns Np. destruct pre as [|p pre]; cbn in Ep.
        { inversion Ep; subst. contradiction. }
        inversion Ep; subst. apply (First pre x post eq_refl Ns).
        intros I; apply Np; now right.
    + assert (Ns : ~ In (item_key it) seen).
      { intros I; apply seen_spec in I; congruence. }
      destruct (IH (seen ++ [item_key it]) (acc ++ [it]) H)
        as (new & E & Sub & ND & Fresh & Cov & First).
      exists (it :: new). repeat split.
      * rewrite E, <- app_assoc; reflexivity.
      * cbn. destruct new; auto.
      * cbn [map]. constructor; [|assumption].
        intros I. apply in_map_iff in I as (x & Ex & I).
        apply (Fresh x I). rewrite Ex. apply in_or_app; right; now left.
      * intros x [<-|I]; [assumption|].
        intros J; apply (Fresh x I). apply in_or_app; now left.
      * intros x [<-|I]; [right; now left|].
        destruct (Cov x I) as [J|J].
        { apply in_app_or in J as [J|[J|[]]]; [now left | right; left; assumption]. }
        right; now right.
      * intros pre x post Ep Nx Np. destruct pre as [|p pre]; cbn in Ep.
        { inversion Ep; subst; now left. }
        inversion Ep; subst. right. apply (First pre x post eq_refl).
        { intros J; apply in_app_or in J as [J|[J|[]]]; [now apply Nx|].
          apply Np; left; assumption. }
        intros I; apply Np; now right.
Qed.

Lemma dedup_loop_distinct l : forall seen acc,
  forallb no_null l = true -> NoDup (map item_key l) ->
  (forall x, In x l -> ~ In (item_key x) seen) ->
  Collect.dedup_loop l seen acc = Ok (acc ++ l).
Proof.
  induction l as [|it rest IH]; intros seen acc H ND F.
  - cbn. now rewrite app_nil_r.
  - cbn [forallb] in H. apply andb_true_iff in H as [N H].
    cbn [Collect.dedup_loop]. rewrite (key_of_ok it N).
    destruct (existsb _ seen) eqn:S.
    + apply seen_spec in S. exfalso; apply (F it); [now left | assumption].
    + cbn [map] in ND. inversion ND as [|? ? Ni ND']; subst.
      rewrite IH; auto.
      * rewrite <- app_assoc; reflexivity.
      * intros x I J. apply in_app_or in J as [J|[J|[]]].
        { apply (F x); [now right | assumption]. }
        apply Ni. rewrite J. now apply in_map.
Qed.

Lemma subsequence_forallb {A} (p : A -> bool) (b : list A) : forall a,
  subsequence a b -> forallb p b = true -> forallb p a = true.
Proof.
  intros a S H. apply forallb_forall. intros x I.
  rewrite forallb_forall in H. apply H. eapply subsequence_In; eauto.
Qed.

(** X14 (collect, step 3): if some item has [None] as title, date or link, the
    removal of duplicates raises [AttributeError].  Otherwise it keeps, in
    their order, exactly the first item of every key (stripped title, date
    and link; a missing field counts as empty): the kept keys are pairwise
    different, every key of the input is kept, and removing duplicates again
    changes nothing. *)
Theorem collect_dedup_first_occurrences (all_items : list Collect.Candidate) :
  (forallb no_null all_items = false ->
   Collect.dedup all_items = Raise Collect.AttributeError)
  /\ (forallb no_null all_items = true ->
      exists out,
        Collect.dedup all_items = Ok out
        /\ subsequence out all_items
        /\ NoDup (map item_key out)
        /\ (forall it, In it all_items -> In (item_key it) (map item_key out))
        /\ (forall pre it post, all_items = pre ++ it :: post ->
              ~ In (item_key it) (map item_key pre) -> In it out)
        /\ Collect.dedup out = Ok out).
Proof.
  split; intros H.
  - now apply dedup_loop_raise.
  - destruct (dedup_loop_ok all_items [] [] H) as (new & E & Sub & ND & _ & Cov & First).
    exists new. repeat split; auto.
    + intros it I. destruct (Cov it I) as [[]|J]; assumption.
    + intros pre it post Ep Np. apply (First pre it post Ep); auto.
    + apply (dedup_loop_distinct new [] []); auto.
      eapply subsequence_forallb; eauto.
Qed.

Section EnrichFacts.
Variable rt : Runtime.
Variable fetch_meta_func : option (str -> result dict).
Variable fetch_extra_text_func : option (str -> result str).

Let run := Collect.enrich_and_filter rt fetch_meta_func fetch_extra_text_func.

Lemma enrich_cons n rest t :
run (n :: rest) t
= let meta := Collect.enriched_meta fetch_meta_func n in
  let extra := Collect.extra_text_of fetch_extra_text_func n in
  if (t <=? fst (score_notice rt meta extra))%Z
  then {| Collect.chosen := n; Collect.s_meta := meta;
          Collect.s_score := fst (score_notice rt meta extra);
          Collect.s_reasons := snd (score_notice rt meta extra) |} :: run rest t
  else run rest t.
Proof.
unfold run; cbn [Collect.enrich_and_filter]. rewrite interesting_eq. reflexivity.
Qed.

Lemma enrich_selected notices t : forall s, In s (run notices t) ->
In (Collect.chosen s) notices
/\ Collect.s_meta s = Collect.enriched_meta fetch_meta_func (Collect.chosen s)
/\ (Collect.s_score s, Collect.s_reasons s)
   = score_notice rt (Collect.s_meta s)
       (Collect.extra_text_of fetch_extra_text_func (Collect.chosen s))
/\ (t <= Collect.s_score s)%Z.
Proof.
induction notices as [|n rest IH]; intros s I; [destruct I|].
rewrite enrich_cons in I; cbv zeta in I.
destruct (Z.leb_spec t (fst (score_notice rt (Collect.enriched_meta fetch_meta_func n)
                               (Collect.extra_text_of fetch_extra_text_func n)))) as [L|L].
- destruct I as [<-|I].
  + cbn. repeat split; auto. now destruct (score_notice rt _ _).
  + destruct (IH s I) as (A & B); split; [now right | assumption].
- destruct (IH s I) as (A & B); split; [now right | assumption].
Qed.

Lemma enrich_subsequence notices t : subsequence (map Collect.chosen (run notices t)) notices.
Proof.
induction notices as [|n rest IH]; [reflexivity|].
rewrite enrich_cons; cbv zeta. destruct (_ <=? _)%Z.
- cbn [map subsequence]. left; split; [reflexivity | assumption].
- now apply subsequence_skip.
Qed.

Lemma enrich_all notices t : (t <= -4)%Z -> map Collect.chosen (run notices t) = notices.
Proof.
intros T. induction notices as [|n rest IH]; [reflexivity|].
rewrite enrich_cons; cbv zeta.
pose proof (score_bounds rt (Collect.enriched_meta fetch_meta_func n)
              (Collect.extra_text_of fetch_extra_text_func n)) as B.
destruct (Z.leb_spec t (fst (score_notice rt (Collect.enriched_meta fetch_meta_func n)
                               (Collect.extra_text_of fetch_extra_text_func n)))); [|lia].
cbn [map Collect.chosen]. now rewrite IH.
Qed.

Lemma enrich_none notices t : (9 <= t)%Z -> run notices t = [].
Proof.
intros T. induction notices as [|n rest IH]; [reflexivity|].
rewrite enrich_cons; cbv zeta.
pose proof (score_bounds rt (Collect.enriched_meta fetch_meta_func n)
              (Collect.extra_text_of fetch_extra_text_func n)) as B.
destruct (Z.leb_spec t (fst (score_notice rt (Collect.enriched_meta fetch_meta_func n)
                               (Collect.extra_text_of fetch_extra_text_func n)))); [lia|].
assumption.
Qed.

Lemma enrich_kept notices t : forall n, In n notices ->
(t <= fst (score_notice rt (Collect.enriched_meta fetch_meta_func n)
             (Collect.extra_text_of fetch_extra_text_func n)))%Z ->
In n (map Collect.chosen (run notices t)).
Proof.
induction notices as [|m rest IH]; intros n I L; [destruct I|].
rewrite enrich_cons; cbv zeta.
destruct I as [->|I].
- apply Z.leb_le in L. rewrite L. now left.
- destruct (_ <=? _)%Z; [right|]; now apply IH.
Qed.

End EnrichFacts.

(** X15 (enrich_and_filter): the selected notices are, in their order, exactly
    the notices whose score (on the enriched metadata and extra text) reaches
    the threshold, each stored with that metadata, score and reasons.  With a
    threshold of -4 or less every notice is selected, with 9 or more none.
    A notice without a ["link"] key keeps its own metadata and gets no extra
    text, since the [KeyError] is swallowed. *)
Theorem enrich_and_filter_selection (rt : Runtime)
  (fetch_meta_func : option (str -> result dict))
  (fetch_extra_text_func : option (str -> result str))
  (notices : list Collect.Fetched) (threshold : Z) :
  let selected :=
    Collect.enrich_and_filter rt fetch_meta_func fetch_extra_text_func notices threshold in
  let meta_of := Collect.enriched_meta fetch_meta_func in
  let extra_of := Collect.extra_text_of fetch_extra_text_func in
  subsequence (map Collect.chosen selected) notices
  /\ (forall s, In s selected ->
        Collect.s_meta s = meta_of (Collect.chosen s)
        /\ (Collect.s_score s, Collect.s_reasons s)
           = score_notice rt (Collect.s_meta s) (extra_of (Collect.chosen s))
        /\ (threshold <= Collect.s_score s)%Z)
  /\ (forall n, In n notices ->
        (threshold <= fst (score_notice rt (meta_of n) (extra_of n)))%Z ->
        In n (map Collect.chosen selected))
  /\ ((threshold <= -4)%Z -> map Collect.chosen selected = notices)
  /\ ((9 <= threshold)%Z -> selected = [])
  /\ (forall n, In n notices -> Collect.n_link n = None ->
        meta_of n = Collect.n_meta n /\ extra_of n = []).
Proof.
  cbv zeta. repeat split.
  - apply enrich_subsequence.
  - now apply (enrich_selected rt fetch_meta_func fetch_extra_text_func notices threshold s).
  - now apply (enrich_selected rt fetch_meta_func fetch_extra_text_func notices threshold s).
  - now apply (enrich_selected rt fetch_meta_func fetch_extra_text_func notices threshold s).
  - apply enrich_kept.
  - apply enrich_all.
  - apply enrich_none.
  - unfold Collect.enriched_meta. rewrite H0. now destruct fetch_meta_func.
  - unfold Collect.extra_text_of. rewrite H0. now destruct fetch_extra_text_func.
Qed.

Lemma strptime_empty rt f : exists e, strptime rt [] f = Raise e.
Proof. destruct f; cbn; eauto. Qed.

Lemma strptime_needs_sep rt s sep :
  ~ In sep s -> exists e, strptime rt s (F_ymd sep) = Raise e.
Proof.
  intros N. unfold strptime.
  assert (M : match_at (fun c => c) (format_regex rt (F_ymd sep)) s = None).
  { unfold match_at, format_regex, re_date, re_Y, dig.
    destruct s as [|y1 [|y2 [|y3 [|y4 [|y5 s]]]]]; cbn [rmatch];
      repeat (destruct (is_decimal rt _)); try reflexivity.
    destruct (N.eqb_spec y5 sep) as [->|]; [|reflexivity].
    exfalso; apply N; cbn; auto 10. }
  rewrite M; eauto.
Qed.

Lemma replace_free a b s : a <> b -> ~ In a (replace a b s).
Proof.
  intros D I. unfold replace in I. apply in_map_iff in I as (x & E & _).
  destruct (N.eqb_spec x a); congruence.
Qed.

Lemma replace_keeps_free a b c s : c <> b -> ~ In c s -> ~ In c (replace a b s).
Proof.
  intros D N I. unfold replace in I. apply in_map_iff in I as (x & E & J).
  destruct (N.eqb_spec x a); [congruence|]. subst; contradiction.
Qed.

Lemma head_solid_lstrip s : head_solid s = true -> lstrip s = s.
Proof.
  destruct s as [|c s]; [reflexivity|]. cbn. now destruct (is_space c).
Qed.

Lemma head_solid_rstrip s : head_solid (rev s) = true -> rstrip s = s.
Proof.
  intros H. unfold rstrip. rewrite head_solid_lstrip by assumption. apply rev_involutive.
Qed.

Lemma lstrip_head_solid s : head_solid (lstrip s) = true.
Proof.
  destruct (lstrip_spec s) as (_ & _ & _ & [E|(x & r & E & C)]); rewrite E; cbn; auto.
  now rewrite C.
Qed.

Lemma strip_head_solid s : head_solid (strip s) = true /\ head_solid (rev (strip s)) = true.
Proof.
  split.
  - unfold strip.
    destruct (lstrip_spec s) as (_ & _ & _ & [E|(x & r & E & C)]); rewrite E; [reflexivity|].
    destruct (rstrip_cons_solid x r C) as [b Eb]. rewrite Eb; cbn. now rewrite C.
  - unfold strip, rstrip. rewrite rev_involutive. apply lstrip_head_solid.
Qed.

Lemma head_solid_replace a b s :
  is_space b = false -> head_solid s = true -> head_solid (replace a b s) = true.
Proof.
  intros B. destruct s as [|c s]; [reflexivity|]. cbn.
  destruct (c =? a)%N; [now rewrite B | auto].
Qed.

Lemma rev_replace a b s : rev (replace a b s) = replace a b (rev s).
Proof. unfold replace. symmetry; apply map_rev. Qed.

Lemma head_solid_split_first r s :
  head_solid s = true -> head_solid (split_first r s) = true.
Proof.
  destruct s as [|c s]; cbn [split_first]; destruct (match_at _ r _); auto.
Qed.

Lemma match_tilde s : match_at (fun c => c) WebDates.re_tilde s = star_greedy is_space s tilde_k.
Proof. reflexivity. Qed.

Lemma match_tilde_space c t :
  is_space c = true -> match_at (fun c => c) WebDates.re_tilde t <> None ->
  match_at (fun c => c) WebDates.re_tilde (c :: t) <> None.
Proof.
  rewrite !match_tilde. cbn [star_greedy]. intros ->.
  destruct (star_greedy is_space t tilde_k); cbn; congruence.
Qed.

Lemma split_first_nil s :
  split_first WebDates.re_tilde s = [] ->
  s = [] \/ match_at (fun c => c) WebDates.re_tilde s <> None.
Proof.
  destruct s as [|c t]; [auto|]. cbn [split_first].
  destruct (match_at _ _ (c :: t)); [right; congruence | discriminate].
Qed.

Lemma head_solid_rev_cons c s :
  s <> [] -> head_solid (rev (c :: s)) = head_solid (rev s).
Proof.
  intros N. cbn [rev]. destruct (rev s) as [|x r] eqn:E; [|reflexivity].
  apply (f_equal (@rev char)) in E. rewrite rev_involutive in E. now elim N.
Qed.

Lemma split_first_end_solid s :
  head_solid (rev s) = true ->
  head_solid (rev (split_first WebDates.re_tilde s)) = true.
Proof.
  induction s as [|c t IH]; intros H; [reflexivity|].
  cbn [split_first].
  destruct (match_at _ _ (c :: t)) eqn:M; [reflexivity|].
  destruct (split_first WebDates.re_tilde t) as [|x xs] eqn:S.
  - cbn. apply split_first_nil in S as [->|S].
    + exact H.
    + destruct (is_space c) eqn:C; [|reflexivity].
      exfalso. now apply (match_tilde_space c t C S).
  - rewrite head_solid_rev_cons by discriminate.
    apply IH. destruct t as [|y t]; [discriminate|].
    rewrite head_solid_rev_cons in H by discriminate. exact H.
Qed.

Lemma period_start_solid s :
  head_solid (period_start s) = true /\ head_solid (rev (period_start s)) = true.
Proof.
  unfold period_start. destruct (strip_head_solid s) as [A B]. split.
  - repeat apply head_solid_replace; try reflexivity. now apply head_solid_split_first.
  - rewrite !rev_replace. repeat apply head_solid_replace; try reflexivity.
    now apply split_first_end_solid.
Qed.

Lemma period_start_strip s : strip (period_start s) = period_start s.
Proof.
  destruct (period_start_solid s) as [A B]. unfold strip.
  rewrite (head_solid_lstrip _ A). now apply head_solid_rstrip.
Qed.

Lemma period_start_free s : ~ In 46%N (period_start s) /\ ~ In 47%N (period_start s).
Proof.
  unfold period_start; split.
  - apply replace_keeps_free; [discriminate|]. apply replace_free; discriminate.
  - apply replace_free; discriminate.
Qed.

(** X16 (app._parse_date_for_sort): the web application reads the date text it
    picked for an item exactly as [main._parse_date_for_sort] reads the start
    of the period (the text before the first [~]) with dots and slashes
    turned into dashes; the formats %Y.%m.%d and %Y/%m/%d of [_DATE_FMTS]
    never apply, so only the first two formats decide. *)
Theorem index_dates_read_as_collect_reads (rt : Runtime) (item : WebDates.Shown) :
  WebDates._parse_date_for_sort rt item
  = match WebDates._pick_date_str rt item with
    | None => datetime_min
    | Some s => Main._parse_date_for_sort rt (Some (period_start s))
    end
  /\ (forall s, WebDates._pick_date_str rt item = Some s ->
        WebDates._parse_date_for_sort rt item
        = WebDates.first_format rt (firstn 16 (period_start s)) [F_ymd_hm; F_ymd 45]).
Proof.
  assert (K : forall s,
    WebDates.first_format rt (firstn 16 (period_start s)) WebDates._DATE_FMTS
    = WebDates.first_format rt (firstn 16 (period_start s)) [F_ymd_hm; F_ymd 45]).
  { intros s. destruct (period_start_free s) as [A B].
    destruct (strptime_needs_sep rt (firstn 16 (period_start s)) 46%N) as [e1 E1].
    { intros I; apply A; eapply In_firstn; eauto. }
    destruct (strptime_needs_sep rt (firstn 16 (period_start s)) 47%N) as [e2 E2].
    { intros I; apply B; eapply In_firstn; eauto. }
    unfold WebDates._DATE_FMTS; cbn [WebDates.first_format]. now rewrite E1, E2. }
  assert (Z : WebDates.first_format rt [] [F_ymd_hm; F_ymd 45] = datetime_min).
  { reflexivity. }
  unfold WebDates._parse_date_for_sort. split.
  - destruct (WebDates._pick_date_str rt item) as [[|c s]|]; try reflexivity.
    fold (period_start (c :: s)). rewrite K.
    unfold Main._parse_date_for_sort.
    destruct (period_start (c :: s)) as [|x xs] eqn:P; [reflexivity|].
    rewrite <- P, period_start_strip. reflexivity.
  - intros s E. rewrite E. destruct s as [|c s]; [reflexivity|].
    fold (period_start (c :: s)). apply K.
Qed.

Lemma split_first_solid D t :
  forallb date_char D = true ->
  split_first WebDates.re_tilde (D ++ t) = D ++ split_first WebDates.re_tilde t.
Proof.
  induction D as [|c D IH]; intros H; [reflexivity|].
  cbn [forallb] in H. apply andb_true_iff in H as [C H].
  unfold date_char in C. apply andb_true_iff in C as [C1 C2].
  apply negb_true_iff in C1, C2.
  cbn [app split_first]. rewrite match_tilde. cbn [star_greedy].
  rewrite C1. cbn [tilde_k]. rewrite C2. now rewrite IH.
Qed.

Lemma star_greedy_found {A : Type} p s (k : str -> option A) :
  (forall s', k s' <> None) -> star_greedy p s k <> None.
Proof.
  intros K. induction s as [|c s IH]; cbn [star_greedy]; [apply K|].
  destruct (p c); [|apply K].
  destruct (star_greedy p s k); [discriminate | now elim IH].
Qed.

Lemma match_tilde_found sp rest :
  forallb is_space sp = true ->
  match_at (fun c => c) WebDates.re_tilde (sp ++ 126%N :: rest) <> None.
Proof.
  rewrite match_tilde. induction sp as [|c sp IH]; intros H.
  - cbn [app star_greedy]. change (is_space 126) with false. cbn [tilde_k N.eqb Pos.eqb].
    apply star_greedy_found. discriminate.
  - cbn [forallb] in H. apply andb_true_iff in H as [C H].
    cbn [app star_greedy]. rewrite C.
    destruct (star_greedy is_space (sp ++ 126%N :: rest) tilde_k); [discriminate|].
    now elim (IH H).
Qed.

Lemma zero_pad_2_shape m : (m < 100)%N ->
  exists m1 m2 : char, zero_pad 2 m = [m1; m2] /\ forallb is_digit [m1; m2] = true.
Proof.
  intros H; pose proof (padded_2 m H) as P; unfold padded in P.
  apply andb_true_iff in P as [L D]; apply Nat.eqb_eq in L.
  destruct (zero_pad 2 m) as [|m1 [|m2 [|? ?]]]; try discriminate.
  now exists m1, m2.
Qed.

Lemma digit_date_char c : is_digit c = true -> date_char c = true.
Proof.
  intros H. unfold date_char. rewrite (is_digit_not_space c H).
  unfold is_digit in H. apply andb_true_iff in H as [A B].
  apply N.leb_le in A, B. destruct (N.eqb_spec c 126); [lia|reflexivity].
Qed.

Lemma digit_kept a b c : is_digit c = true -> is_digit a = false ->
  replace a b [c] = [c].
Proof.
  intros H N. cbn. destruct (N.eqb_spec c a); [congruence|reflexivity].
Qed.

Lemma date_text_shape sep y m d :
  (y < 10000)%N -> (m < 100)%N -> (d < 100)%N -> date_sep sep = true ->
  forallb date_char (date_text sep y m d) = true
  /\ replace 47 45 (replace 46 45 (date_text sep y m d)) = ymd_text y m d
  /\ (forall t, head_solid (date_text sep y m d ++ t) = true)
  /\ head_solid (rev (date_text sep y m d)) = true.
Proof.
  intros Hy Hm Hd S.
  destruct (zero_pad_4_shape y Hy) as (y1 & y2 & y3 & y4 & Ey & Dy).
  destruct (zero_pad_2_shape m Hm) as (m1 & m2 & Em & Dm).
  destruct (zero_pad_2_shape d Hd) as (e1 & e2 & Ed & De).
  unfold date_text, ymd_text. rewrite Ey, Em, Ed.
  cbn [forallb] in Dy; rewrite !andb_true_iff in Dy.
  cbn [forallb] in Dm; rewrite !andb_true_iff in Dm.
  cbn [forallb] in De; rewrite !andb_true_iff in De.
  destruct Dy as (Y1 & Y2 & Y3 & Y4 & _), Dm as (M1 & M2 & _), De as (E1 & E2 & _).
  assert (K : forall c, is_digit c = true ->
            (if ((if (c =? 46)%N then 45%N else c) =? 47)%N then 45%N
             else (if (c =? 46)%N then 45%N else c)) = c).
  { intros c H. unfold is_digit in H. apply andb_true_iff in H as [A B].
    apply N.leb_le in A, B.
    destruct (N.eqb_spec c 46); [lia|]. destruct (N.eqb_spec c 47); [lia|reflexivity]. }
  assert (Ksep : (if ((if (sep =? 46)%N then 45%N else sep) =? 47)%N then 45%N
                  else (if (sep =? 46)%N then 45%N else sep)) = 45%N
                 /\ date_char sep = true).
  { unfold date_sep in S.
    apply orb_true_iff in S as [S|S]; [apply orb_true_iff in S as [S|S]|];
      apply N.eqb_eq in S; subst sep; split; reflexivity. }
  destruct Ksep as [K1 K2].
  repeat split.
  - cbn [app forallb]. rewrite K2.
    rewrite (digit_date_char _ Y1), (digit_date_char _ Y2), (digit_date_char _ Y3),
      (digit_date_char _ Y4), (digit_date_char _ M1), (digit_date_char _ M2),
      (digit_date_char _ E1), (digit_date_char _ E2). reflexivity.
  - unfold replace. cbn [app map u].
    change (u "-") with [45%N]. cbn [app].
    repeat (apply f_equal2; [first [now apply K | exact K1]|]). reflexivity.
  - intros t. cbn. now rewrite (is_digit_not_space _ Y1).
  - cbn. now rewrite (is_digit_not_space _ E2).
Qed.

Lemma period_start_date_text sep y m d tail :
  (y < 10000)%N -> (m < 100)%N -> (d < 100)%N -> date_sep sep = true ->
  (tail = [] \/ exists sp rest : str, forallb is_space sp = true /\ tail = sp ++ 126%N :: rest) ->
  period_start (date_text sep y m d ++ tail) = ymd_text y m d.
Proof.
  intros Hy Hm Hd S T.
  destruct (date_text_shape sep y m d Hy Hm Hd S) as (A & B & C & D).
  unfold period_start.
  assert (E : split_first WebDates.re_tilde (strip (date_text sep y m d ++ tail))
              = date_text sep y m d).
  { destruct T as [->|(sp & rest & W & ->)].
    - rewrite app_nil_r. unfold strip.
      pose proof (C []) as C0. rewrite app_nil_r in C0.
      rewrite (head_solid_lstrip _ C0), (head_solid_rstrip _ D).
      rewrite <- (app_nil_r (date_text sep y m d)) at 1.
      rewrite (split_first_solid _ [] A). cbn. apply app_nil_r.
    - change (@cons N 126%N rest) with (@cons char 126%N rest).
      unfold strip. rewrite head_solid_lstrip by apply C.
      destruct (rstrip_cons_solid 126%N rest eq_refl) as [b Eb].
      rewrite !app_assoc, rstrip_app_keep by (rewrite Eb; discriminate).
      rewrite Eb, <- app_assoc, (split_first_solid _ _ A).
      pose proof (match_tilde_found sp b W) as F.
      destruct sp as [|c sp]; cbn [app split_first] in *;
        destruct (match_at _ _ _); try (now elim F); now rewrite app_nil_r. }
  now rewrite E.
Qed.

(** X17 (app._parse_date_for_sort): for an item whose date is a calendar date
    written with dashes, dots or slashes, alone or followed by white space and
    [~] and anything (a period), the date that is used for ordering is that
    date at 00:00. *)
Theorem index_date_reads_period_start (rt : Runtime) (sep : char) (y m d : N)
  (tail : str) (meta : dict) :
  calendar_date y m d = true ->
  date_sep sep = true ->
  (tail = [] \/ exists sp rest : str, forallb is_space sp = true /\ tail = sp ++ 126%N :: rest) ->
  WebDates._parse_date_for_sort rt
    {| WebDates.date := Some (date_text sep y m d ++ tail); WebDates.meta := meta |}
  = {| year := Z.of_N y; month := Z.of_N m; day := Z.of_N d; hour := 0; minute := 0 |}.
Proof.
  intros C S T. destruct (calendar_date_bounds y m d C) as (Hy & Hm & Hd & _).
  assert (P : period_start (date_text sep y m d ++ tail) = ymd_text y m d).
  { apply period_start_date_text; try assumption; lia. }
  unfold WebDates._parse_date_for_sort, WebDates._pick_date_str.
  cbn [WebDates.date].
  destruct (date_text sep y m d ++ tail) as [|c s] eqn:E.
  { exfalso. destruct (zero_pad_4_shape y) as (y1 & y2 & y3 & y4 & Ey & _); [lia|].
    unfold date_text in E. rewrite Ey in E. discriminate. }
  cbn [WebDates.truthy]. fold (period_start (c :: s)). rewrite P.
  destruct (strptime_ymd_text rt y m d C) as [O [e R]].
  rewrite firstn_all2 by (rewrite is_ymd_length; [lia | apply ymd_text_is_ymd; lia]).
  unfold WebDates._DATE_FMTS; cbn [WebDates.first_format]. now rewrite R, O.
Qed.

Lemma index_date_reads_period_start_witness :
  WebDates._parse_date_for_sort rt0
    {| WebDates.date := Some (u "2024.02.29 ~ 2024.03.05"); WebDates.meta := [] |}
  = {| year := 2024; month := 2; day := 29; hour := 0; minute := 0 |}.
Proof.
  exact (index_date_reads_period_start rt0 46%N 2024 2 29 (u " ~ 2024.03.05") []
           eq_refl eq_refl
           (or_intror (ex_intro _ (u " ") (ex_intro _ (u " 2024.03.05") (conj eq_refl eq_refl))))).
Defined.

Lemma ceil_div_bounds a b :
  (0 < b)%Z -> (a <= G2B._ceil_div a b * b < a + b)%Z.
Proof.
  intros B. unfold G2B._ceil_div.
  destruct (Z.eqb_spec b 0); [lia|].
  pose proof (Z.div_mod (a + b - 1) b ltac:(lia)) as D.
  pose proof (Z.mod_pos_bound (a + b - 1) b B) as M.
  nia.
Qed.

Lemma range_down_spec last stop :
  length (G2B.range_down last stop) = Z.to_nat (last - stop)
  /\ (forall i, (i < Z.to_nat (last - stop))%nat ->
        nth i (G2B.range_down last stop) 0%Z = (last - Z.of_nat i)%Z)
  /\ (forall p, In p (G2B.range_down last stop) <-> (stop < p <= last)%Z).
Proof.
  unfold G2B.range_down. split; [|split].
  - now rewrite length_map, length_seq.
  - intros i H.
    rewrite (nth_indep _ 0%Z (last - Z.of_nat 0)%Z) by (now rewrite length_map, length_seq).
    rewrite (map_nth (fun i => (last - Z.of_nat i)%Z)), seq_nth by assumption.
    reflexivity.
  - intros p. rewrite in_map_iff. split.
    + intros (i & <- & I). apply in_seq in I. lia.
    + intros H. exists (Z.to_nat (last - p)). split; [lia|]. apply in_seq. lia.
Qed.

(** X18 (_ceil_div, _collect): for a positive page size the number of pages is
    the least one that holds all [total] rows (at least 1), and the pages
    that are scanned are the last [scan_pages] of them (all of them if there
    are fewer), from the last page downwards. *)
Theorem g2b_scans_last_pages (total rows scan_pages : Z) :
  (0 <= total)%Z -> (0 < rows)%Z -> (1 <= scan_pages)%Z ->
  let total_pages := Z.max 1 (G2B._ceil_div total rows) in
  let pages := G2B.page_range total rows scan_pages in
  (total <= total_pages * rows)%Z
  /\ ((0 < total)%Z -> ((total_pages - 1) * rows < total)%Z)
  /\ Z.of_nat (length pages) = Z.min scan_pages total_pages
  /\ (forall i, (i < length pages)%nat -> nth i pages 0%Z = (total_pages - Z.of_nat i)%Z)
  /\ (forall p, In p pages <-> (Z.max 0 (total_pages - scan_pages) < p <= total_pages)%Z).
Proof.
  intros T R S total_pages pages.
  pose proof (ceil_div_bounds total rows R) as B.
  assert (L : (Z.max 1 (total_pages - scan_pages + 1) - 1
               = Z.max 0 (total_pages - scan_pages))%Z) by lia.
  destruct (range_down_spec total_pages (Z.max 1 (total_pages - scan_pages + 1) - 1))
    as (Len & Nth & Mem).
  subst pages; unfold G2B.page_range; fold total_pages.
  split; [subst total_pages; nia|].
  split; [intros P; subst total_pages; nia|].
  split; [rewrite Len; lia|].
  split.
  - intros i H. apply Nth. now rewrite <- Len.
  - intros p. rewrite Mem, L. reflexivity.
Qed.

Lemma g2b_scans_last_pages_witness :
  G2B.page_range 1234 50 (G2B.scan_pages_of 1) = map Z.of_nat (rev (seq 6 20))
  /\ Z.of_nat (length (G2B.page_range 1234 50 20)) = Z.min 20 (Z.max 1 (G2B._ceil_div 1234 50)).
Proof.
  split; [reflexivity|].
  apply (g2b_scans_last_pages 1234 50 20); lia.
Defined.

Lemma rstrip_keeps_solid_prefix D tail :
  D <> [] -> head_solid (rev D) = true -> exists t, rstrip (D ++ tail) = D ++ t.
Proof.
  intros N H. destruct (rev D) as [|e r] eqn:E.
  { apply (f_equal (@rev char)) in E. rewrite rev_involutive in E. now elim N. }
  apply (f_equal (@rev char)) in E. rewrite rev_involutive in E. cbn [rev] in E. subst D.
  cbn [head_solid] in H. apply negb_true_iff in H.
  destruct (rstrip_cons_solid e tail H) as [b Eb].
  exists b. rewrite <- !app_assoc. cbn [app].
  rewrite rstrip_app_keep by (rewrite Eb; discriminate). now rewrite Eb.
Qed.

Lemma replace_app a b s t : replace a b (s ++ t) = replace a b s ++ replace a b t.
Proof. apply map_app. Qed.

Lemma firstn_exact {A} (l t : list A) n : length l = n -> firstn n (l ++ t) = l.
Proof.
  intros <-. rewrite firstn_app, Nat.sub_diag, firstn_all. cbn. apply app_nil_r.
Qed.

Lemma kiat_norm_date_blank env s : strip s = [] -> Kiat._norm_date env (Some s) = None.
Proof.
  intros E. unfold Kiat._norm_date. destruct s as [|c s]; [reflexivity|].
  rewrite E. cbn [replace map firstn].
  destruct (strptime_empty (rt env) (F_ymd 45)) as [e ->]. reflexivity.
Qed.

Lemma kiat_norm_date_dated env sep y m d tail :
  calendar_date y m d = true -> date_sep sep = true ->
  Kiat._norm_date env (Some (date_text sep y m d ++ tail))
  = Some (strftime_ymd env {| year := Z.of_N y; month := Z.of_N m; day := Z.of_N d;
                              hour := 0; minute := 0 |}).
Proof.
  intros C S.
  destruct (calendar_date_bounds y m d C) as (Hy & Hm & Hd & _).
  destruct (date_text_shape sep y m d) as (_ & B & Hh & Ht); try assumption; try lia.
  assert (Ne : date_text sep y m d <> []).
  { destruct (zero_pad_4_shape y) as (y1 & y2 & y3 & y4 & Ey & _); [lia|].
    unfold date_text. rewrite Ey. discriminate. }
  unfold Kiat._norm_date.
  destruct (date_text sep y m d ++ tail) as [|c s] eqn:E.
  { destruct (date_text sep y m d); [now elim Ne | discriminate]. }
  rewrite <- E. unfold strip. rewrite head_solid_lstrip by apply Hh.
  destruct (rstrip_keeps_solid_prefix (date_text sep y m d) tail Ne Ht) as [t ->].
  rewrite !replace_app, B, firstn_exact.
  2:{ apply is_ymd_length, ymd_text_is_ymd; lia. }
  destruct (strptime_ymd_text (rt env) y m d C) as [-> _]. reflexivity.
Qed.

(** X19 (kiat._norm_date, keit_srome._norm_date): the answer is [None] exactly
    for [None] and for a blank text.  A text that starts with a calendar date
    written in ten characters, zero-padded, with dashes, dots or slashes
    (YYYY-MM-DD, YYYY.MM.DD, YYYY/MM/DD) gives that date in the format
    %Y-%m-%d, whatever follows the ten characters.  A date that is not padded
    is not read in this way: of 2025-3-5 10:00 the first ten characters are
    returned as they are. *)
Theorem kiat_norm_date_reads_leading_date (env : Env) :
  Kiat._norm_date env None = None
  /\ (forall s, Kiat._norm_date env (Some s) = None <-> strip s = [])
  /\ (forall sep y m d tail,
        calendar_date y m d = true -> date_sep sep = true ->
        Kiat._norm_date env (Some (date_text sep y m d ++ tail))
        = Some (strftime_ymd env {| year := Z.of_N y; month := Z.of_N m; day := Z.of_N d;
                                    hour := 0; minute := 0 |}))
  /\ Kiat._norm_date (world []) (Some (u "2025-3-5 10:00")) = Some (u "2025-3-5 1").
Proof.
  split; [reflexivity|]. split; [|split].
  - intros s. split; [|apply kiat_norm_date_blank].
    unfold Kiat._norm_date. destruct s as [|c s]; [reflexivity|].
    destruct (strip (c :: s)) as [|x r]; [reflexivity|].
    cbn [replace map firstn].
    destruct (strptime _ _ _); discriminate.
  - apply kiat_norm_date_dated.
  - reflexivity.
Qed.

(** X20 (fetch_kiat_notices, collect): an item of a KIAT row whose registration
    date is blank carries the date [None], and the removal of duplicates in
    [collect] raises [AttributeError] on any list that holds it. *)
Theorem kiat_blank_date_stops_collect (env : Env) (title reg_date link : str)
  (before after : list Collect.Candidate) :
  strip reg_date = [] ->
  Collect.dedup (before ++ kiat_item env title reg_date link :: after)
  = Raise Collect.AttributeError.
Proof.
  intros B. apply dedup_loop_raise.
  rewrite forallb_app. cbn [forallb].
  assert (N : no_null (kiat_item env title reg_date link) = false).
  { unfold no_null, kiat_item; cbn [Collect.title Collect.date Collect.link].
    now rewrite (kiat_norm_date_blank env reg_date B). }
  rewrite N. cbn [andb]. apply andb_false_r.
Qed.

Lemma kiat_blank_date_stops_collect_witness :
  Collect.dedup [kiat_item (world []) (u "notice") (u " ") (u "/proxy/kiat/1?t=notice")]
  = Raise Collect.AttributeError.
Proof.
  exact (kiat_blank_date_stops_collect (world []) (u "notice") (u " ") (u "/proxy/kiat/1?t=notice")
           [] [] eq_refl).
Defined.

Lemma finditer_fuel_step fold f r s b :
  finditer_fuel fold (S f) r s b
  = match rmatch fold r s []
            (fun s' _ => if b && (length s' =? length s)%nat then None else Some s') with
    | Some s' =>
        if (length s' =? length s)%nat
        then consumed s s' :: finditer_fuel fold f r s true
        else consumed s s' :: finditer_fuel fold f r s' false
    | None =>
        match s with
        | [] => []
        | _ :: t => finditer_fuel fold f r t false
        end
    end.
Proof. reflexivity. Qed.

Lemma date_run_whole rt (y1 y2 y3 y4 sep m1 m2 e1 e2 : char) :
  forallb is_digit [y1; y2; y3; y4; m1; m2; e1; e2] = true -> date_sep sep = true ->
  rmatch (fun c => c) (WebDates.re_date_run rt) [y1; y2; y3; y4; sep; m1; m2; sep; e1; e2] []
    (fun s' _ => if false && (length s' =? length [y1; y2; y3; y4; sep; m1; m2; sep; e1; e2])%nat
                 then None else Some s')
  = Some [].
Proof.
  cbn [forallb]; rewrite !andb_true_iff.
  intros (Y1 & Y2 & Y3 & Y4 & M1 & M2 & E1 & E2 & _) S.
  unfold WebDates.re_date_run; cbn [rmatch andb].
  rewrite (digit_is_decimal rt _ Y1), (digit_is_decimal rt _ Y2), (digit_is_decimal rt _ Y3),
    (digit_is_decimal rt _ Y4), S, (digit_is_decimal rt _ M1), (digit_is_decimal rt _ M2).
  rewrite (digit_is_decimal rt _ E1), (digit_is_decimal rt _ E2).
  reflexivity.
Qed.

(** X21 (kiat._norm_period): for a period cell that holds one calendar date and
    nothing else, the start is that date, the end is [None], and the period
    text is the date followed by [ ~ None] (given that [strftime] does not
    print the empty text). *)
Theorem kiat_period_of_single_date (env : Env) (sep : char) (y m d : N) :
  calendar_date y m d = true -> date_sep sep = true ->
  strftime_ymd env (date_of y m d) <> [] ->
  KiatPeriod._norm_period env (Some (date_text sep y m d))
  = {| KiatPeriod.start_date := Some (strftime_ymd env (date_of y m d));
       KiatPeriod.end_date := None;
       KiatPeriod.period := strftime_ymd env (date_of y m d) ++ u " ~ None";
       KiatPeriod.raw := date_text sep y m d |}.
Proof.
  intros C S F. set (date := date_of y m d) in *.
  destruct (calendar_date_bounds y m d C) as (Hy & Hm & Hd & _).
  destruct (date_text_shape sep y m d) as (_ & _ & Hh & Ht); try assumption; try lia.
  pose proof (Hh []) as H0. rewrite app_nil_r in H0.
  pose proof (kiat_norm_date_dated env sep y m d [] C S) as K.
  rewrite app_nil_r in K. change {| year := Z.of_N y; month := Z.of_N m; day := Z.of_N d;
    hour := 0; minute := 0 |} with date in K.
  assert (M : finditer (fun c => c) (WebDates.re_date_run (rt env)) (date_text sep y m d)
              = [date_text sep y m d]).
  { destruct (zero_pad_4_shape y) as (y1 & y2 & y3 & y4 & Ey & Dy); [lia|].
    destruct (zero_pad_2_shape m) as (m1 & m2 & Em & Dm); [lia|].
    destruct (zero_pad_2_shape d) as (e1 & e2 & Ed & De); [lia|].
    unfold date_text. rewrite Ey, Em, Ed. cbn [app].
    assert (Dg : forallb is_digit [y1; y2; y3; y4; m1; m2; e1; e2] = true).
    { cbn [forallb] in *. rewrite !andb_true_iff in *. tauto. }
    unfold finditer.
    change (2 * length [y1; y2; y3; y4; sep; m1; m2; sep; e1; e2] + 2)%nat with (Datatypes.S (Datatypes.S 20)).
    rewrite finditer_fuel_step, (date_run_whole (rt env) y1 y2 y3 y4 sep m1 m2 e1 e2 Dg S).
    cbn [length Nat.eqb]. rewrite finditer_fuel_step. reflexivity. }
  unfold KiatPeriod._norm_period. unfold strip.
  rewrite (head_solid_lstrip _ H0), (head_solid_rstrip _ Ht), M.
  cbn [nth_error].
  match goal with
  | |- context [Kiat._norm_date env ?a] =>
      assert (K' : Kiat._norm_date env a = Some (strftime_ymd env date)) by exact K
  end.
  rewrite K'.
  destruct (strftime_ymd env date) as [|c s] eqn:E; [now elim F|].
  cbn [KiatPeriod.is_true orb KiatPeriod.format_opt]. reflexivity.
Qed.

Lemma kiat_period_of_single_date_witness :
  KiatPeriod._norm_period (world []) (Some (u "2025.03.05"))
  = {| KiatPeriod.start_date := Some (u "2025-03-05");
       KiatPeriod.end_date := None;
       KiatPeriod.period := u "2025-03-05 ~ None";
       KiatPeriod.raw := u "2025.03.05" |}.
Proof.
  apply (kiat_period_of_single_date (world []) 46%N 2025 3 5);
    [reflexivity | reflexivity | intros E; vm_compute in E; discriminate E].
Defined.

Lemma match_lit_spec fold w : forall s,
  match match_at fold (lit w) s with
  | Some (s', cs') => exists tag, s = tag ++ s' /\ map fold tag = map fold w
  | None => forall tag s', s = tag ++ s' -> map fold tag <> map fold w
  end.
Proof.
  unfold match_at.
  assert (G : forall (A : Type) (k : str -> list str -> option A) s cs,
    rmatch fold (lit w) s cs k
    = match rmatch fold (lit w) s cs (fun s' _ => Some s') with
      | Some s' => k s' cs
      | None => None
      end).
  { induction w as [|c w IH]; intros A k s cs; [reflexivity|].
    cbn [lit fold_right rmatch]. fold (lit w).
    destruct s as [|x s]; [reflexivity|].
    destruct (fold x =? fold c)%N; [apply IH | reflexivity]. }
  assert (H : forall s cs,
    match rmatch fold (lit w) s cs (fun s' _ => Some s') with
    | Some s' => exists tag, s = tag ++ s' /\ map fold tag = map fold w
    | None => forall tag s', s = tag ++ s' -> map fold tag <> map fold w
    end).
  { clear G. induction w as [|c w IH]; intros s cs.
    - cbn. exists []. auto.
    - cbn [lit fold_right rmatch]. fold (lit w).
      destruct s as [|x s].
      + intros tag s' E. destruct tag; [discriminate | discriminate].
      + destruct (N.eqb_spec (fold x) (fold c)) as [E|E].
        * specialize (IH s cs).
          destruct (rmatch fold (lit w) s cs _) as [s'|].
          { destruct IH as (tag & -> & M). exists (x :: tag). cbn. now rewrite E, M. }
          intros tag s' Es. destruct tag as [|y tag]; [discriminate|].
          cbn in Es. inversion Es; subst. cbn. intros N. inversion N.
          now apply (IH tag s' eq_refl).
        * intros tag s' Es. destruct tag as [|y tag]; [discriminate|].
          cbn in Es. inversion Es; subst. cbn. intros N. inversion N. contradiction. }
  intros s. rewrite G. specialize (H s []).
  destruct (rmatch fold (lit w) s [] _); assumption.
Qed.

Lemma search_span_spec fold w s :
  match search_span fold (lit w) s with
  | Some (pre, post) =>
      exists tag, s = pre ++ tag ++ post /\ map fold tag = map fold w
        /\ (forall a tag' b, s = a ++ tag' ++ b -> map fold tag' = map fold w ->
              (length pre <= length a)%nat)
  | None => forall a tag' b, s = a ++ tag' ++ b -> map fold tag' <> map fold w
  end.
Proof.
  induction s as [|c t IH]; cbn [search_span].
  - pose proof (match_lit_spec fold w []) as M.
    destruct (match_at fold (lit w) []) as [[s' cs']|].
    + destruct M as (tag & E & F). exists tag. repeat split; auto. intros; cbn; lia.
    + intros a tag' b E. destruct a; [|discriminate]. apply (M tag' b E).
  - pose proof (match_lit_spec fold w (c :: t)) as M.
    destruct (match_at fold (lit w) (c :: t)) as [[s' cs']|].
    + destruct M as (tag & E & F). exists tag. repeat split; auto. intros; cbn; lia.
    + destruct (search_span fold (lit w) t) as [[pre post]|].
      * destruct IH as (tag & E & F & Min). exists tag. repeat split.
        { cbn. now rewrite E. }
        { assumption. }
        intros a tag' b Ea Et. destruct a as [|x a].
        { exfalso. apply (M tag' b Ea Et). }
        cbn in Ea. inversion Ea; subst x. cbn. apply le_n_S. eapply Min; eauto.
      * intros a tag' b Ea. destruct a as [|x a]; [exact (M tag' b Ea)|].
        cbn in Ea. inversion Ea. eapply IH; eauto.
Qed.

(** X22 (_inject_mute_alerts): the page grows by exactly the script.  Without a
    closing head tag the script is put in front of the page; otherwise it is
    put right before the first closing head tag (in any case of the letters),
    that tag is rewritten as [</head>], and the rest of the page is kept. *)
Theorem inject_mute_alerts_before_head_end (rt : Runtime) (html : str) :
  let out := WebProxy._inject_mute_alerts rt html in
  length out = (length WebProxy.snippet + length html)%nat
  /\ ((out = WebProxy.snippet ++ html
       /\ forall a tag b, html = a ++ tag ++ b -> ~ is_head_end rt tag)
      \/ exists pre tag post,
           html = pre ++ tag ++ post /\ is_head_end rt tag
           /\ out = pre ++ WebProxy.snippet ++ WebProxy.head_end ++ post
           /\ forall a tag' b, html = a ++ tag' ++ b -> is_head_end rt tag' ->
                (length pre <= length a)%nat).
Proof.
  cbv zeta. unfold WebProxy._inject_mute_alerts, is_head_end.
  pose proof (search_span_spec (casefold rt) WebProxy.head_end html) as S.
  destruct (search_span (casefold rt) (lit WebProxy.head_end) html) as [[pre post]|].
  - destruct S as (tag & E & F & Min). split.
    + assert (L : length tag = length WebProxy.head_end).
      { apply (f_equal (@length char)) in F. now rewrite !length_map in F. }
      rewrite E, !length_app, L. lia.
    + right. exists pre, tag, post. repeat split; auto.
  - split; [now rewrite length_app|]. left. split; [reflexivity | exact S].
Qed.
